(** * SecureVault password manager: vault encryption, accounts and security analysis

    A shallow embedding of the TypeScript sources
    - [utils/security.ts]   (classes [SecurityAnalyzer] and [TwoFactorAuth]),
    - [utils/crypto.ts]     (classes [CryptoManager], [BiometricManager] and
                             [ActivityLogger]),
    - [context/AppContext]  (the reducer and the functions of the provider:
                             [signup], [login], [logout], [saveData],
                             [importData], [clearAllData], [deleteUser]),
    together with the properties stated about them.

    Conventions of the model.
    - A JavaScript string is the sequence of its UTF-16 code units, a
      [list N]; a [Uint8Array] is a [list byte].
    - An expression that may throw has a [result]; a function that also
      reads or writes storage, draws random bytes or dispatches to the
      reducer is a function of the [World].  An [async] function is run from
      start to end: interleaving with other tasks is not modelled.
    - What the browser provides is of two kinds.  [btoa], [atob],
      [TextEncoder] and [TextDecoder] are written out, after their
      standards, and so are [crypto.randomUUID], the conversion of numbers
      to text and the order of the keys of an object.  Web Crypto, [JSON]
      and [fetch] are parameters ([Env]), with the part of their contract
      that is used stated as [EnvLaws]; WebAuthn and the parsing of a vault
      are parameters ([Host]), and so is what the activity logs take from
      the platform ([LogHost]).
    - Console output, storage quotas and the limits of an engine on the
      number of arguments of a call and on the length of an array are not
      modelled. *)

From stdpp Require Import gmap strings list pretty.
From Stdlib Require Import Ascii Strings.Byte QArith QArith.Qminmax QArith.Qround Lqa
  Sorting.Sorted.

Local Open Scope N_scope.

(** ** JavaScript strings *)

Module JS.

(** A string value: its UTF-16 code units, in order.  [length] is the
    JavaScript [.length]. *)
Abbreviation jsstring := (list N).

(** String literals of the source, all ASCII. *)
Definition lit (s : string) : jsstring :=
  N_of_ascii <$> String.list_ascii_of_string s.

(** [RegExp.prototype.test] for a pattern that is a single character class
    (no flags): some code unit of the subject lies in the class. *)
Definition test_class (cls : N → bool) (s : jsstring) : bool := existsb cls s.

Definition in_range (lo hi c : N) : bool := (lo <=? c) && (c <=? hi).

End JS.

Import JS.

(** ** [SecurityAnalyzer.calculatePasswordStrength] *)

Module Strength.

(** [/[a-z]/] *)
Definition re_lower (c : N) : bool := in_range 97 122 c.
(** [/[A-Z]/] *)
Definition re_upper (c : N) : bool := in_range 65 90 c.
(** [/\d/], which without the [u] flag is [[0-9]] *)
Definition re_digit (c : N) : bool := in_range 48 57 c.
(** The members of the last character class of the source, in its order:
    the punctuation ! @ # $ % ^ & * ( ) , . ? then the double quote, then
    : { } | < > *)
Definition symbol_chars : jsstring :=
  lit "!@#$%^&*(),.?" ++ [34 (* double quote *)] ++ lit ":{}|<>".
Definition re_symbol (c : N) : bool := bool_decide (c ∈ symbol_chars).

(** The body of the method, statement by statement: [score] starts at 0 and
    each [if] adds to it; the result is [Math.min(100, score)]. *)
Definition calculatePasswordStrength (password : jsstring) : Z :=
  let score := 0%Z in
  let score := if (8 <=? length password)%nat then (score + 25)%Z else score in
  let score := if (12 <=? length password)%nat then (score + 25)%Z else score in
  let score := if test_class re_lower password && test_class re_upper password
               then (score + 20)%Z else score in
  let score := if test_class re_digit password then (score + 15)%Z else score in
  let score := if test_class re_symbol password then (score + 15)%Z else score in
  Z.min 100 score.

(** The scoring rule in the words of the specification. *)
Definition has_lowercase (s : jsstring) : Prop := Exists (λ c, 97 ≤ c ≤ 122) s.
Definition has_uppercase (s : jsstring) : Prop := Exists (λ c, 65 ≤ c ≤ 90) s.
Definition has_digit (s : jsstring) : Prop := Exists (λ c, 48 ≤ c ≤ 57) s.
Definition has_symbol (s : jsstring) : Prop := Exists (λ c, c ∈ symbol_chars) s.

(** [points P n] is [n] when [P] holds and 0 otherwise. *)
Definition points (P : Prop) `{Decision P} (n : Z) : Z := if decide P then n else 0%Z.

Definition strength_spec (s : jsstring) : Z :=
  Z.min 100
    (points (8 ≤ length s)%nat 25 + points (12 ≤ length s)%nat 25
     + points (has_lowercase s ∧ has_uppercase s) 20
     + points (has_digit s) 15 + points (has_symbol s) 15)%Z.

End Strength.

(** ** Data model ([types/index.ts]) *)

Module Types.

(** A [Date], by its time value: milliseconds since the epoch.  Invalid
    dates are outside the model. *)
Definition Date := Z.

Inductive FieldType := FText | FPassword | FEmail | FUrl.

Record CustomField := {
  cf_label : jsstring;
  cf_value : jsstring;
  cf_type : FieldType;
}.

(** [interface PasswordEntry]; an optional property is an [option]. *)
Record PasswordEntry := {
  id : jsstring;
  title : jsstring;
  username : jsstring;
  password : jsstring;
  url : option jsstring;
  notes : option jsstring;
  category : jsstring;
  createdAt : Date;
  updatedAt : Date;
  isFavorite : option bool;
  tags : option (list jsstring);
  lastUsed : option Date;
  expiryDate : option Date;
  isCompromised : option bool;
  strength : option Z;
  twoFactorSecret : option jsstring;
  customFields : option (list CustomField);
}.

Record Category := {
  cat_id : jsstring;
  cat_name : jsstring;
  cat_color : jsstring;
  cat_icon : jsstring;
}.

Inductive Theme := Light | Dark | Auto.
Inductive BackupFrequency := Daily | Weekly | Monthly | Never.

Record Settings := {
  autoLockMinutes : Z;
  theme : Theme;
  showPasswordStrength : bool;
  compactView : bool;
  enableBiometric : bool;
  autoFillEnabled : bool;
  passwordExpiryDays : Z;
  enableBreachCheck : bool;
  enableTwoFactor : bool;
  backupFrequency : BackupFrequency;
  language : jsstring;
}.

(** [Partial<Settings>]: every property may be missing. *)
Record PartialSettings := {
  p_autoLockMinutes : option Z;
  p_theme : option Theme;
  p_showPasswordStrength : option bool;
  p_compactView : option bool;
  p_enableBiometric : option bool;
  p_autoFillEnabled : option bool;
  p_passwordExpiryDays : option Z;
  p_enableBreachCheck : option bool;
  p_enableTwoFactor : option bool;
  p_backupFrequency : option BackupFrequency;
  p_language : option jsstring;
}.

(** [interface AppState]; [securityReport] is never set by the reducer and is
    left out. *)
Record AppState := {
  isAuthenticated : bool;
  passwords : list PasswordEntry;
  categories : list Category;
  searchQuery : jsstring;
  selectedCategory : option jsstring;
  showPasswordGenerator : bool;
  editingPassword : option PasswordEntry;
  settings : Settings;
}.

(** Truthiness of an optional boolean property: [undefined] is falsy. *)
Definition truthy_flag (b : option bool) : bool := default false b.

End Types.

Import Types.

(** ** An insertion-ordered [Map] *)

Module JSMap.
Section map.
Context {K V : Type} `{EqDecision K}.

(** Entries in insertion order, keys pairwise distinct. *)
Definition t := list (K * V).

Definition empty : t := [].

Fixpoint get (k : K) (m : t) : option V :=
  match m with
  | [] => None
  | (k', v) :: m' => if decide (k' = k) then Some v else get k m'
  end.

(** [set] keeps the position of a key that is present and appends a new key
    at the end. *)
Fixpoint set (k : K) (v : V) (m : t) : t :=
  match m with
  | [] => [(k, v)]
  | (k', v') :: m' => if decide (k' = k) then (k, v) :: m' else (k', v') :: set k v m'
  end.

(** [forEach] with a callback that updates an accumulator. *)
Definition forEach {A} (f : A → V → A) (m : t) (a : A) : A :=
  fold_left (λ a kv, f a kv.2) m a.

End map.
Global Arguments t : clear implicits.
End JSMap.

(** ** [SecurityAnalyzer] *)

Module SecurityAnalyzer.
Import Strength.

(** [findReusedPasswords]: first the [forEach] that files every entry under
    its password, then the [forEach] over the map that collects the groups
    of more than one entry.  The source extends the array held by the map in
    place and stores it again; storing the extended list is the same. *)
Definition group_entry (passwordMap : JSMap.t jsstring (list PasswordEntry))
    (entry : PasswordEntry) : JSMap.t jsstring (list PasswordEntry) :=
  let existing := default [] (JSMap.get (password entry) passwordMap) in
  let existing := existing ++ [entry] in
  JSMap.set (password entry) existing passwordMap.

Definition group_by_password (passwords : list PasswordEntry)
    : JSMap.t jsstring (list PasswordEntry) :=
  fold_left group_entry passwords JSMap.empty.

Definition collect_group (reused entries : list PasswordEntry) : list PasswordEntry :=
  if (1 <? length entries)%nat then reused ++ entries else reused.

Definition findReusedPasswords (passwords : list PasswordEntry) : list PasswordEntry :=
  let passwordMap := group_by_password passwords in
  JSMap.forEach collect_group passwordMap [].

(** [isPasswordExpired]; [now] is the value of [new Date()]. *)
Definition ms_per_day : Z := 24 * 60 * 60 * 1000.

Definition isPasswordExpired_days (now : Date) (p : PasswordEntry) (expiryDays : Z) : bool :=
  match expiryDate p with
  | None =>
      let createdDate := createdAt p in
      let expiry := (createdDate + expiryDays * ms_per_day)%Z in
      (expiry <? now)%Z
  | Some d => (d <? now)%Z
  end.

(** The default argument [expiryDays = 90]. *)
Definition isPasswordExpired (now : Date) (p : PasswordEntry) : bool :=
  isPasswordExpired_days now p 90.

(** The report returned by [analyzePasswordSecurity].  The counts are
    array lengths.  The score is a JavaScript number obtained with divisions;
    it is modelled as a rational, so the rounding of the binary64 quotients
    is left out of the model. *)
Record Report := {
  weakPasswords : nat;
  reusedPasswords : nat;
  expiredPasswords : nat;
  compromisedPasswords : nat;
  totalPasswords : nat;
  securityScore : Q;
  lastUpdated : Date;
  weakPasswordsList : list PasswordEntry;
  reusedPasswordsList : list PasswordEntry;
  expiredPasswordsList : list PasswordEntry;
  compromisedPasswordsList : list PasswordEntry;
}.

(** An array length as a number. *)
Definition num (n : nat) : Q := inject_Z (Z.of_nat n).

Definition is_weak (p : PasswordEntry) : bool :=
  (calculatePasswordStrength (password p) <? 60)%Z.

Definition analyzePasswordSecurity (now : Date) (passwords : list PasswordEntry) : Report :=
  let weak := List.filter is_weak passwords in
  let reused := findReusedPasswords passwords in
  let expired := List.filter (λ p, isPasswordExpired now p) passwords in
  let compromised := List.filter (λ p, truthy_flag (isCompromised p)) passwords in
  let securityScore : Q := 100%Q in
  let securityScore :=
    if (0 <? length passwords)%nat then
      let weakPenalty := (num (length weak) / num (length passwords) * 30)%Q in
      let reusedPenalty := (num (length reused) / num (length passwords) * 25)%Q in
      let expiredPenalty := (num (length expired) / num (length passwords) * 20)%Q in
      let compromisedPenalty := (num (length compromised) / num (length passwords) * 25)%Q in
      Qmax 0 (100 - weakPenalty - reusedPenalty - expiredPenalty - compromisedPenalty)%Q
    else securityScore in
  {| weakPasswords := length weak;
     reusedPasswords := length reused;
     expiredPasswords := length expired;
     compromisedPasswords := length compromised;
     totalPasswords := length passwords;
     securityScore := securityScore;
     lastUpdated := now;
     weakPasswordsList := weak;
     reusedPasswordsList := reused;
     expiredPasswordsList := expired;
     compromisedPasswordsList := compromised |}.

(** *** The specification's reading of reuse and of the aggregate score *)

(** The entries of [l] that carry the secret [k], in their order. *)
Definition with_secret (k : jsstring) (l : list PasswordEntry) : list PasswordEntry :=
  List.filter (λ e, bool_decide (password e = k)) l.

(** An entry is reused in [l] when the group of its secret has more than one
    member. *)
Definition is_reused (l : list PasswordEntry) (e : PasswordEntry) : bool :=
  (1 <? length (with_secret (password e) l))%nat.





(** Helpers for reasoning about the grouping. *)
Definition group_of (m : JSMap.t jsstring (list PasswordEntry)) (k : jsstring)
    : list PasswordEntry :=
  default [] (JSMap.get k m).

Definition select (P : jsstring → bool) (m : JSMap.t jsstring (list PasswordEntry))
    : list PasswordEntry :=
  flat_map (λ kv, if P kv.1 then kv.2 else []) m.

End SecurityAnalyzer.

(** ** Application state: the reducer of [AppContext] *)

Module AppContext.

Definition mkCategory (i name color icon : string) : Category :=
  {| cat_id := lit i; cat_name := lit name; cat_color := lit color; cat_icon := lit icon |}.

Definition defaultCategories : list Category :=
  [ mkCategory "1" "Personal" "#3B82F6" "User";
    mkCategory "2" "Work" "#EF4444" "Briefcase";
    mkCategory "3" "Social" "#10B981" "Users";
    mkCategory "4" "Finance" "#F59E0B" "CreditCard";
    mkCategory "5" "Shopping" "#8B5CF6" "ShoppingBag" ].

Definition defaultSettings : Settings :=
  {| autoLockMinutes := 15;
     theme := Light;
     showPasswordStrength := true;
     compactView := false;
     enableBiometric := false;
     autoFillEnabled := true;
     passwordExpiryDays := 90;
     enableBreachCheck := true;
     enableTwoFactor := false;
     backupFrequency := Weekly;
     language := lit "en" |}.

Definition initialState : AppState :=
  {| isAuthenticated := false;
     passwords := [];
     categories := defaultCategories;
     searchQuery := [];
     selectedCategory := None;
     showPasswordGenerator := false;
     editingPassword := None;
     settings := defaultSettings |}.

Inductive Action :=
  | LOGIN
  | LOGOUT
  | SET_PASSWORDS (payload : list PasswordEntry)
  | ADD_PASSWORD (payload : PasswordEntry)
  | UPDATE_PASSWORD (payload : PasswordEntry)
  | DELETE_PASSWORD (payload : jsstring)
  | SET_SEARCH_QUERY (payload : jsstring)
  | SET_SELECTED_CATEGORY (payload : option jsstring)
  | SET_SHOW_PASSWORD_GENERATOR (payload : bool)
  | SET_EDITING_PASSWORD (payload : option PasswordEntry)
  | ADD_CATEGORY (payload : Category)
  | UPDATE_SETTINGS (payload : PartialSettings)
  | CLEAR_ALL_DATA.

(** The object spread [{ ...state.settings, ...payload }]: a property of the
    payload, when present, replaces that of the state. *)
Definition spread_settings (s : Settings) (p : PartialSettings) : Settings :=
  {| autoLockMinutes := default (autoLockMinutes s) (p_autoLockMinutes p);
     theme := default (theme s) (p_theme p);
     showPasswordStrength := default (showPasswordStrength s) (p_showPasswordStrength p);
     compactView := default (compactView s) (p_compactView p);
     enableBiometric := default (enableBiometric s) (p_enableBiometric p);
     autoFillEnabled := default (autoFillEnabled s) (p_autoFillEnabled p);
     passwordExpiryDays := default (passwordExpiryDays s) (p_passwordExpiryDays p);
     enableBreachCheck := default (enableBreachCheck s) (p_enableBreachCheck p);
     enableTwoFactor := default (enableTwoFactor s) (p_enableTwoFactor p);
     backupFrequency := default (backupFrequency s) (p_backupFrequency p);
     language := default (language s) (p_language p) |}.

(** Record updates [{ ...state, field: value }]. *)
Definition set_isAuthenticated (b : bool) (s : AppState) : AppState :=
  {| isAuthenticated := b; passwords := passwords s; categories := categories s;
     searchQuery := searchQuery s; selectedCategory := selectedCategory s;
     showPasswordGenerator := showPasswordGenerator s;
     editingPassword := editingPassword s; settings := settings s |}.
Definition set_passwords (ps : list PasswordEntry) (s : AppState) : AppState :=
  {| isAuthenticated := isAuthenticated s; passwords := ps; categories := categories s;
     searchQuery := searchQuery s; selectedCategory := selectedCategory s;
     showPasswordGenerator := showPasswordGenerator s;
     editingPassword := editingPassword s; settings := settings s |}.
Definition set_categories (cs : list Category) (s : AppState) : AppState :=
  {| isAuthenticated := isAuthenticated s; passwords := passwords s; categories := cs;
     searchQuery := searchQuery s; selectedCategory := selectedCategory s;
     showPasswordGenerator := showPasswordGenerator s;
     editingPassword := editingPassword s; settings := settings s |}.
Definition set_searchQuery (q : jsstring) (s : AppState) : AppState :=
  {| isAuthenticated := isAuthenticated s; passwords := passwords s;
     categories := categories s; searchQuery := q;
     selectedCategory := selectedCategory s;
     showPasswordGenerator := showPasswordGenerator s;
     editingPassword := editingPassword s; settings := settings s |}.
Definition set_selectedCategory (c : option jsstring) (s : AppState) : AppState :=
  {| isAuthenticated := isAuthenticated s; passwords := passwords s;
     categories := categories s; searchQuery := searchQuery s;
     selectedCategory := c;
     showPasswordGenerator := showPasswordGenerator s;
     editingPassword := editingPassword s; settings := settings s |}.
Definition set_showPasswordGenerator (b : bool) (s : AppState) : AppState :=
  {| isAuthenticated := isAuthenticated s; passwords := passwords s;
     categories := categories s; searchQuery := searchQuery s;
     selectedCategory := selectedCategory s;
     showPasswordGenerator := b;
     editingPassword := editingPassword s; settings := settings s |}.
Definition set_editingPassword (e : option PasswordEntry) (s : AppState) : AppState :=
  {| isAuthenticated := isAuthenticated s; passwords := passwords s;
     categories := categories s; searchQuery := searchQuery s;
     selectedCategory := selectedCategory s;
     showPasswordGenerator := showPasswordGenerator s;
     editingPassword := e; settings := settings s |}.
Definition set_settings (x : Settings) (s : AppState) : AppState :=
  {| isAuthenticated := isAuthenticated s; passwords := passwords s;
     categories := categories s; searchQuery := searchQuery s;
     selectedCategory := selectedCategory s;
     showPasswordGenerator := showPasswordGenerator s;
     editingPassword := editingPassword s; settings := x |}.

Definition appReducer (state : AppState) (action : Action) : AppState :=
  match action with
  | LOGIN => set_isAuthenticated true state
  | LOGOUT => initialState
  | SET_PASSWORDS payload => set_passwords payload state
  | ADD_PASSWORD payload => set_passwords (passwords state ++ [payload]) state
  | UPDATE_PASSWORD payload =>
      set_passwords
        ((λ p, if decide (id p = id payload) then payload else p) <$> passwords state)
        state
  | DELETE_PASSWORD payload =>
      set_passwords
        (List.filter (λ p, bool_decide (id p ≠ payload)) (passwords state)) state
  | SET_SEARCH_QUERY payload => set_searchQuery payload state
  | SET_SELECTED_CATEGORY payload => set_selectedCategory payload state
  | SET_SHOW_PASSWORD_GENERATOR payload => set_showPasswordGenerator payload state
  | SET_EDITING_PASSWORD payload => set_editingPassword payload state
  | ADD_CATEGORY payload => set_categories (categories state ++ [payload]) state
  | UPDATE_SETTINGS payload =>
      set_settings (spread_settings (settings state) payload) state
  | CLEAR_ALL_DATA => set_isAuthenticated true initialState
  end.

(** The argument of [importData] is untyped.  Of it the function reads
    [data.passwords], used only when it is an array, and [data.settings],
    used only when present. *)
Record ImportData := {
  data_passwords : option (list PasswordEntry);
  data_settings : option PartialSettings;
}.

(** [importData], run against the state [state] it closes over; the result
    is the state after its dispatches. *)
Definition importData (state : AppState) (data : ImportData) : AppState :=
  match data_passwords data with
  | Some imported =>
      let existingIds : gset jsstring := list_to_set (id <$> passwords state) in
      let newPasswords :=
        List.filter (λ p, negb (bool_decide (id p ∈ existingIds))) imported in
      let state' := appReducer state (SET_PASSWORDS (passwords state ++ newPasswords)) in
      match data_settings data with
      | Some s => appReducer state' (UPDATE_SETTINGS s)
      | None => state'
      end
  | None => state
  end.

End AppContext.

(** ** Platform: [btoa] and [atob]

    The two functions are built into the platform.  They are modelled after
    their definition in the HTML and Infra standards: [btoa] is the Base64
    encoding of a string of code units below 256, [atob] is the forgiving
    Base64 decoding. *)

Module Base64.

(** The Base64 alphabet: the character of a 6-bit value and the value of a
    character. *)
Definition char_of (v : N) : N :=
  if v <? 26 then v + 65            (* A-Z *)
  else if v <? 52 then v + 71       (* a-z *)
  else if v <? 62 then v - 4        (* 0-9 *)
  else if v =? 62 then 43           (* + *)
  else 47.                          (* / *)

Definition value_of (c : N) : option N :=
  if in_range 65 90 c then Some (c - 65)
  else if in_range 97 122 c then Some (c - 71)
  else if in_range 48 57 c then Some (c + 4)
  else if c =? 43 then Some 62
  else if c =? 47 then Some 63
  else None.

Definition pad_char : N := 61.

(** Three bytes make four 6-bit values; a final group of one or two bytes
    makes two or three, the missing low bits being zero. *)
Fixpoint to_sextets (bs : list N) : list N :=
  match bs with
  | [] => []
  | [a] => [N.shiftr a 2; N.shiftl (N.land a 3) 4]
  | [a; b] =>
      [N.shiftr a 2;
       N.lor (N.shiftl (N.land a 3) 4) (N.shiftr b 4);
       N.shiftl (N.land b 15) 2]
  | a :: b :: c :: rest =>
      N.shiftr a 2
      :: N.lor (N.shiftl (N.land a 3) 4) (N.shiftr b 4)
      :: N.lor (N.shiftl (N.land b 15) 2) (N.shiftr c 6)
      :: N.land c 63
      :: to_sextets rest
  end.

Definition pad_length (n : nat) : nat :=
  match (n mod 3)%nat with
  | 1%nat => 2
  | 2%nat => 1
  | _ => 0
  end.

Definition encode (bs : list N) : jsstring :=
  (char_of <$> to_sextets bs) ++ replicate (pad_length (length bs)) pad_char.

(** [btoa] throws an [InvalidCharacterError] when a code unit exceeds 255. *)
Definition btoa (s : jsstring) : option jsstring :=
  if forallb (λ c, c <? 256) s then Some (encode s) else None.

(** Four 6-bit values make three bytes.  A remainder of two values makes
    one byte and a remainder of three makes two: the last four,
    respectively two, bits are discarded without being inspected. *)
Fixpoint from_sextets (vs : list N) : list N :=
  match vs with
  | a :: b :: c :: d :: rest =>
      N.lor (N.shiftl a 2) (N.shiftr b 4)
      :: N.lor (N.shiftl (N.land b 15) 4) (N.shiftr c 2)
      :: N.lor (N.shiftl (N.land c 3) 6) d
      :: from_sextets rest
  | [a; b; c] =>
      [N.lor (N.shiftl a 2) (N.shiftr b 4);
       N.lor (N.shiftl (N.land b 15) 4) (N.shiftr c 2)]
  | [a; b] => [N.lor (N.shiftl a 2) (N.shiftr b 4)]
  | _ => []
  end.

(** TAB, LF, FF, CR and SPACE. *)
Definition is_ascii_whitespace (c : N) : bool :=
  bool_decide (c ∈ [9; 10; 12; 13; 32]).

(** Removes one or two trailing [=]. *)
Definition strip_padding (data : jsstring) : jsstring :=
  match reverse data with
  | c1 :: r1 =>
      if c1 =? pad_char then
        match r1 with
        | c2 :: r2 => if c2 =? pad_char then reverse r2 else reverse r1
        | [] => reverse r1
        end
      else data
  | [] => data
  end.

(** [atob]: [None] stands for the [InvalidCharacterError] it throws. *)
Definition atob (s : jsstring) : option jsstring :=
  let data := List.filter (λ c, negb (is_ascii_whitespace c)) s in
  let data := if (length data mod 4 =? 0)%nat then strip_padding data else data in
  if (length data mod 4 =? 1)%nat then None
  else from_sextets <$> mapM value_of data.

End Base64.

(** ** Platform: [Uint8Array], [TextEncoder] and [TextDecoder]

    [new TextEncoder().encode] and [new TextDecoder().decode] are built into
    the platform.  They are modelled after the Encoding standard: UTF-8,
    replacement of unpaired surrogates on the way in, replacement of
    malformed sequences and removal of a leading byte order mark on the way
    out. *)

Module Encoding.

(** An element of a [Uint8Array], and the conversion of a number to one
    (modulo 256). *)
Definition byte_of_N (n : N) : byte := default Byte.x00 (Byte.of_N (n mod 256)).

Global Instance byte_eq_dec : EqDecision byte := Byte.byte_eq_dec.

Definition replacement_char : N := 0xFFFD.
Definition byte_order_mark : N := 0xFEFF.

Definition is_high_surrogate (c : N) : bool := in_range 0xD800 0xDBFF c.
Definition is_low_surrogate (c : N) : bool := in_range 0xDC00 0xDFFF c.

(** The string as a sequence of scalar values: a surrogate pair is one code
    point, an unpaired surrogate becomes U+FFFD. *)
Fixpoint to_scalar_values (s : jsstring) : list N :=
  match s with
  | [] => []
  | c :: t =>
      if is_high_surrogate c then
        match t with
        | d :: t' =>
            if is_low_surrogate d
            then (0x10000 + N.shiftl (c - 0xD800) 10 + (d - 0xDC00)) :: to_scalar_values t'
            else replacement_char :: to_scalar_values t
        | [] => [replacement_char]
        end
      else if is_low_surrogate c then replacement_char :: to_scalar_values t
      else c :: to_scalar_values t
  end.

(** The UTF-8 encoder, one code point at a time. *)
Definition continuation (x : N) : N := N.lor 0x80 (N.land x 0x3F).

Definition utf8_bytes (cp : N) : list N :=
  if cp <=? 0x7F then [cp]
  else if cp <=? 0x7FF then
    [N.shiftr cp 6 + 0xC0; continuation cp]
  else if cp <=? 0xFFFF then
    [N.shiftr cp 12 + 0xE0; continuation (N.shiftr cp 6); continuation cp]
  else
    [N.shiftr cp 18 + 0xF0; continuation (N.shiftr cp 12);
     continuation (N.shiftr cp 6); continuation cp].

Definition utf8_encode (s : jsstring) : list N :=
  flat_map utf8_bytes (to_scalar_values s).

Definition TextEncoder_encode (s : jsstring) : list byte :=
  byte_of_N <$> utf8_encode s.

(** The UTF-8 decoder: its state and its handler for one byte. *)
Record decoder := {
  code_point : N;
  bytes_seen : N;
  bytes_needed : N;
  lower_boundary : N;
  upper_boundary : N;
}.

Definition decoder0 : decoder :=
  {| code_point := 0; bytes_seen := 0; bytes_needed := 0;
     lower_boundary := 0x80; upper_boundary := 0xBF |}.

Definition expect (n cp lo hi : N) : decoder :=
  {| code_point := cp; bytes_seen := 0; bytes_needed := n;
     lower_boundary := lo; upper_boundary := hi |}.

(** A byte met when no bytes are needed. *)
Definition lead (b : N) : list N * decoder :=
  if b <=? 0x7F then ([b], decoder0)
  else if in_range 0xC2 0xDF b then ([], expect 1 (N.land b 0x1F) 0x80 0xBF)
  else if in_range 0xE0 0xEF b then
    ([], expect 2 (N.land b 0xF)
           (if b =? 0xE0 then 0xA0 else 0x80) (if b =? 0xED then 0x9F else 0xBF))
  else if in_range 0xF0 0xF4 b then
    ([], expect 3 (N.land b 0x7)
           (if b =? 0xF0 then 0x90 else 0x80) (if b =? 0xF4 then 0x8F else 0xBF))
  else ([replacement_char], decoder0).

(** A byte out of the expected range ends the sequence with an error and is
    then handled afresh. *)
Definition handler (d : decoder) (b : N) : list N * decoder :=
  if bytes_needed d =? 0 then lead b
  else if negb (in_range (lower_boundary d) (upper_boundary d) b) then
    let '(out, d') := lead b in (replacement_char :: out, d')
  else
    let cp := N.lor (N.shiftl (code_point d) 6) (N.land b 0x3F) in
    if bytes_seen d + 1 =? bytes_needed d then ([cp], decoder0)
    else ([], {| code_point := cp; bytes_seen := bytes_seen d + 1;
                 bytes_needed := bytes_needed d;
                 lower_boundary := 0x80; upper_boundary := 0xBF |}).

Fixpoint run (d : decoder) (bs : list N) : list N :=
  match bs with
  | [] => if bytes_needed d =? 0 then [] else [replacement_char]
  | b :: bs' => let '(out, d') := handler d b in out ++ run d' bs'
  end.

(** A leading U+FEFF of the output is dropped ([ignoreBOM] is false). *)
Definition strip_bom (cps : list N) : list N :=
  match cps with
  | c :: rest => if c =? byte_order_mark then rest else cps
  | [] => []
  end.

(** A code point as UTF-16 code units. *)
Definition utf16_units (cp : N) : list N :=
  if cp <=? 0xFFFF then [cp]
  else [0xD800 + N.shiftr (cp - 0x10000) 10; 0xDC00 + N.land (cp - 0x10000) 0x3FF].

Definition utf8_decode (bs : list N) : jsstring :=
  flat_map utf16_units (strip_bom (run decoder0 bs)).

Definition TextDecoder_decode (bs : list byte) : jsstring :=
  utf8_decode (Byte.to_N <$> bs).

(** [String.prototype.isWellFormed]: every code unit is a 16-bit value and
    every surrogate is part of a pair. *)
Fixpoint isWellFormed (s : jsstring) : bool :=
  match s with
  | [] => true
  | c :: t =>
      if is_high_surrogate c then
        match t with
        | d :: t' => is_low_surrogate d && isWellFormed t'
        | [] => false
        end
      else negb (is_low_surrogate c) && (c <? 0x10000) && isWellFormed t
  end.

(** A scalar value: a code point that is not a surrogate. *)
Definition is_scalar (cp : N) : Prop := cp < 0xD800 ∨ 0xE000 ≤ cp < 0x110000.

End Encoding.

(** ** Exceptions and the platform interface *)

Module Platform.

(** An exception value: the name of its class and its message. *)
Record JSError := {
  err_name : jsstring;
  err_message : jsstring;
}.

(** [new Error(message)] *)
Definition Error (message : string) : JSError :=
  {| err_name := lit "Error"; err_message := lit message |}.

(** The outcome of an expression that may throw. *)
Inductive result (A : Type) :=
  | Ok (a : A)
  | Throw (e : JSError).
Global Arguments Ok {A} a.
Global Arguments Throw {A} e.

Definition bind {A B} (r : result A) (k : A → result B) : result B :=
  match r with
  | Ok a => k a
  | Throw e => Throw e
  end.

(** Sequencing is written [x ← c; k]. *)
Global Instance result_bind : MBind result := λ A B k r, bind r k.
Global Instance result_ret : MRet result := λ A a, Ok a.

(** [try { body } catch (error) { handler }] *)
Definition try_catch {A} (body : result A) (handler : JSError → result A) : result A :=
  match body with
  | Ok a => Ok a
  | Throw e => handler e
  end.

(** A built-in that signals failure by a [DOMException] of the given name. *)
Definition or_throw {A} (name : string) (o : option A) : result A :=
  match o with
  | Some a => Ok a
  | None => Throw {| err_name := lit name; err_message := [] |}
  end.

Inductive HashName := SHA_1 | SHA_256.

(** The algorithm objects passed to [crypto.subtle]. *)
Record Pbkdf2Params := {        (* name: 'PBKDF2' *)
  pbkdf2_salt : list byte;
  pbkdf2_iterations : N;
  pbkdf2_hash : HashName;
}.

Record AesKeyGenParams := {     (* name: 'AES-GCM' *)
  aes_length : N;
}.

Record AesGcmParams := {        (* name: 'AES-GCM' *)
  gcm_iv : list byte;
  gcm_tagLength : N;
}.

(** An element of the list kept under [passwordManager_users]. *)
Record UserInfo := {
  ui_hash : jsstring;
  ui_createdAt : jsstring;
  ui_lastLogin : jsstring;
  ui_hint : jsstring;
}.

(** The object that [signup] and [saveData] serialise; [signup] sets
    [createdAt], [saveData] sets [lastModified]. *)
Record VaultData := {
  vd_passwords : list PasswordEntry;
  vd_categories : list Category;
  vd_settings : Settings;
  vd_createdAt : option jsstring;
  vd_lastModified : option jsstring;
  vd_version : jsstring;
}.

(** What the program takes from its environment and does not define:
    Web Crypto, [JSON] and [fetch].  Each operation may throw. *)
Class Env := {
  KeyMaterial : Type;
  AesKey : Type;
  Response : Type;
  (** [crypto.subtle.importKey('raw', data, 'PBKDF2', false, ['deriveKey'])] *)
  subtle_importKey : list byte → result KeyMaterial;
  (** [crypto.subtle.deriveKey(pbkdf2, keyMaterial, aes, false, ['encrypt', 'decrypt'])] *)
  subtle_deriveKey : Pbkdf2Params → KeyMaterial → AesKeyGenParams → result AesKey;
  (** [crypto.subtle.encrypt(aesGcm, key, data)] *)
  subtle_encrypt : AesGcmParams → AesKey → list byte → result (list byte);
  (** [crypto.subtle.decrypt(aesGcm, key, data)] *)
  subtle_decrypt : AesGcmParams → AesKey → list byte → result (list byte);
  (** [crypto.subtle.digest(name, data)] *)
  subtle_digest : HashName → list byte → result (list byte);
  (** [JSON.stringify] at the two types it is used at, and [JSON.parse] of
      the users list *)
  JSON_stringify_vault : VaultData → jsstring;
  JSON_stringify_users : list UserInfo → jsstring;
  JSON_parse_users : jsstring → result (list UserInfo);
  (** [fetch(url)] and [response.text()] *)
  fetch : jsstring → result Response;
  response_text : Response → result jsstring;
  (** the largest number of arguments that the engine accepts in one call *)
  max_arguments : N;
}.

(** [f(...array)]: the elements of the array become the arguments of the
    call.  An array with more elements than the engine accepts makes the
    call throw a [RangeError], before [f] runs; its message is the
    engine's own and is left empty. *)
Definition RangeError : JSError := {| err_name := lit "RangeError"; err_message := [] |}.

Definition spread `{Env} {A} (array : list A) : result (list A) :=
  if N.of_nat (length array) <=? max_arguments then Ok array else Throw RangeError.

(** The part of the contract of the environment that the properties below
    rely on. *)
Class EnvLaws `{Env} : Prop := {
  (** raw key material of any length is imported *)
  importKey_ok : ∀ data, ∃ km, subtle_importKey data = Ok km;
  (** PBKDF2 with a positive iteration count derives a 256-bit AES key *)
  deriveKey_ok : ∀ p km a,
    0 < pbkdf2_iterations p → aes_length a = 256 →
    ∃ key, subtle_deriveKey p km a = Ok key;
  (** AES-GCM encryption with a 16-byte nonce and a 128-bit tag succeeds
      (its length limit, 2^39 - 256 bits, is beyond the size of an array) *)
  encrypt_ok : ∀ iv key data,
    length iv = 16%nat →
    ∃ ct, subtle_encrypt {| gcm_iv := iv; gcm_tagLength := 128 |} key data = Ok ct;
  (** the output is the input followed by the 16 bytes of the tag *)
  encrypt_length : ∀ iv key data ct,
    subtle_encrypt {| gcm_iv := iv; gcm_tagLength := 128 |} key data = Ok ct →
    length ct = (length data + 16)%nat;
  (** decryption undoes encryption under the same key and parameters *)
  decrypt_encrypt : ∀ p key data ct,
    subtle_encrypt p key data = Ok ct → subtle_decrypt p key ct = Ok data;
  (** an input shorter than the tag is rejected *)
  decrypt_short : ∀ iv key ct,
    (length ct < 16)%nat →
    ∃ e, subtle_decrypt {| gcm_iv := iv; gcm_tagLength := 128 |} key ct = Throw e;
  (** digests are computed *)
  digest_ok : ∀ h data, ∃ d, subtle_digest h data = Ok d;
  (** [JSON.stringify] of an object yields well-formed text that begins
      with a brace *)
  stringify_vault_text : ∀ v,
    Encoding.isWellFormed (JSON_stringify_vault v) = true
    ∧ head (JSON_stringify_vault v) = Some 123;
}.

End Platform.

Import Platform.

(** ** The world a call runs in *)

Module Runtime.

(** The two storage areas, the generator behind [crypto.getRandomValues]
    (an endless supply of bytes and the number of bytes drawn so far), the
    value of [new Date().toISOString()], and the reducer state.  Console
    output is not part of the model. *)
Record World := {
  localStorage : gmap jsstring jsstring;
  sessionStorage : gmap jsstring jsstring;
  random_supply : nat → byte;
  random_drawn : nat;
  clock : jsstring;
  app_state : AppState;
}.

(** A computation that may throw and may change the world; the changes made
    before a throw persist. *)
Definition M (A : Type) : Type := World → result A * World.

Definition ret {A} (a : A) : M A := λ w, (Ok a, w).
Definition throw {A} (e : JSError) : M A := λ w, (Throw e, w).
Definition lift {A} (r : result A) : M A := λ w, (r, w).

Definition bind {A B} (c : M A) (k : A → M B) : M B :=
  λ w, match c w with
       | (Ok a, w') => k a w'
       | (Throw e, w') => (Throw e, w')
       end.

Global Instance M_bind : MBind M := λ A B k c, bind c k.
Global Instance M_ret : MRet M := λ A a, ret a.

Definition try_catch {A} (body : M A) (handler : JSError → M A) : M A :=
  λ w, match body w with
       | (Ok a, w') => (Ok a, w')
       | (Throw e, w') => handler e w'
       end.

Definition set_localStorage (ls : gmap jsstring jsstring) (w : World) : World :=
  {| localStorage := ls; sessionStorage := sessionStorage w;
     random_supply := random_supply w; random_drawn := random_drawn w;
     clock := clock w; app_state := app_state w |}.
Definition set_sessionStorage (ss : gmap jsstring jsstring) (w : World) : World :=
  {| localStorage := localStorage w; sessionStorage := ss;
     random_supply := random_supply w; random_drawn := random_drawn w;
     clock := clock w; app_state := app_state w |}.
Definition set_random_drawn (n : nat) (w : World) : World :=
  {| localStorage := localStorage w; sessionStorage := sessionStorage w;
     random_supply := random_supply w; random_drawn := n;
     clock := clock w; app_state := app_state w |}.
Definition set_app_state (st : AppState) (w : World) : World :=
  {| localStorage := localStorage w; sessionStorage := sessionStorage w;
     random_supply := random_supply w; random_drawn := random_drawn w;
     clock := clock w; app_state := st |}.

(** [localStorage.getItem], [localStorage.setItem] and the same for
    [sessionStorage]; [null] is [None]. *)
Definition localStorage_getItem (k : jsstring) : M (option jsstring) :=
  λ w, (Ok (localStorage w !! k), w).
Definition localStorage_setItem (k v : jsstring) : M unit :=
  λ w, (Ok tt, set_localStorage (<[k := v]> (localStorage w)) w).
Definition sessionStorage_setItem (k v : jsstring) : M unit :=
  λ w, (Ok tt, set_sessionStorage (<[k := v]> (sessionStorage w)) w).

(** The bytes that the next call of [crypto.getRandomValues] on an array of
    length [n] yields. *)
Definition next_random (n : nat) (w : World) : list byte :=
  random_supply w <$> seq (random_drawn w) n.

(** [crypto.getRandomValues(new Uint8Array(n))] *)
Definition getRandomValues (n : nat) : M (list byte) :=
  λ w, (Ok (next_random n w), set_random_drawn (random_drawn w + n) w).

(** [new Date().toISOString()] *)
Definition now_iso : M jsstring := λ w, (Ok (clock w), w).

(** [dispatch(action)] *)
Definition dispatch (a : AppContext.Action) : M unit :=
  λ w, (Ok tt, set_app_state (AppContext.appReducer (app_state w) a) w).

(** Truthiness of a string or [null]: [null] and the empty string are
    falsy. *)
Definition truthy (o : option jsstring) : bool :=
  match o with
  | Some (_ :: _) => true
  | _ => false
  end.

End Runtime.

(** ** Strings of the standard library used by the sources *)

Module JSString.

(** [String.fromCharCode(c1, ..., cn)] on the elements of a byte array *)
Definition fromCharCode (bs : list byte) : jsstring := Byte.to_N <$> bs.

(** [new Uint8Array(s.split('').map(char => char.charCodeAt(0)))] *)
Definition char_codes_to_bytes (s : jsstring) : list byte := Encoding.byte_of_N <$> s.

Definition hex_digit (n : N) : N := if n <? 10 then 48 + n else 87 + n.

(** [b.toString(16).padStart(2, '0')] for a byte. *)
Definition hex2 (b : byte) : jsstring :=
  [hex_digit (Byte.to_N b / 16); hex_digit (Byte.to_N b mod 16)].

(** [bytes.map(b => b.toString(16).padStart(2, '0')).join('')] *)
Definition hex (bs : list byte) : jsstring := flat_map hex2 bs.

(** [toUpperCase], on the ASCII letters; other code units are left as they
    are, which is exact for the hexadecimal strings it is applied to. *)
Definition toUpperCase (s : jsstring) : jsstring :=
  (λ c, if in_range 97 122 c then c - 32 else c) <$> s.

Fixpoint startsWith (s p : jsstring) : bool :=
  match p, s with
  | [], _ => true
  | _ :: _, [] => false
  | a :: p', b :: s' => (a =? b) && startsWith s' p'
  end.

(** [s.includes(p)] *)
Fixpoint includes (s p : jsstring) : bool :=
  startsWith s p ||
  match s with
  | [] => false
  | _ :: s' => includes s' p
  end.

End JSString.

(** ** [CryptoManager] *)

Module CryptoManager.
Section with_env.
Context `{Env}.
Import Encoding Base64 JSString Runtime.

Definition PBKDF2_ITERATIONS : N := 210000.
Definition SALT_LENGTH : nat := 32.
Definition IV_LENGTH : nat := 16.
Definition KEY_LENGTH : N := 32.

Definition deriveKey (password : jsstring) (salt : list byte) : result AesKey :=
  let passwordBuffer := TextEncoder_encode password in
  keyMaterial ← subtle_importKey passwordBuffer;
  subtle_deriveKey
    {| pbkdf2_salt := salt; pbkdf2_iterations := PBKDF2_ITERATIONS; pbkdf2_hash := SHA_256 |}
    keyMaterial
    {| aes_length := KEY_LENGTH * 8 |}.

(** The part of [encrypt] that follows the two draws of random bytes. *)
Definition seal (salt iv : list byte) (data password : jsstring) : result jsstring :=
  let dataBuffer := TextEncoder_encode data in
  key ← deriveKey password salt;
  encryptedBuffer ←
    subtle_encrypt {| gcm_iv := iv; gcm_tagLength := 128 |} key dataBuffer;
  let combined := salt ++ iv ++ encryptedBuffer in
  codes ← spread combined;
  or_throw "InvalidCharacterError" (btoa (fromCharCode codes)).

Definition encrypt (data password : jsstring) : M jsstring :=
  Runtime.try_catch
    (salt ← getRandomValues SALT_LENGTH;
     iv ← getRandomValues IV_LENGTH;
     lift (seal salt iv data password))
    (λ error, throw (Error "Encryption failed")).

(** [typedArray.slice(a, b)] *)
Definition slice (a b : nat) (l : list byte) : list byte := take (b - a) (drop a l).

Definition decrypt (encryptedData password : jsstring) : result jsstring :=
  Platform.try_catch
    (chars ← or_throw "InvalidCharacterError" (atob encryptedData);
     let combined := char_codes_to_bytes chars in
     let salt := slice 0 SALT_LENGTH combined in
     let iv := slice SALT_LENGTH (SALT_LENGTH + IV_LENGTH) combined in
     let encryptedBuffer := drop (SALT_LENGTH + IV_LENGTH) combined in
     key ← deriveKey password salt;
     decryptedBuffer ←
       subtle_decrypt {| gcm_iv := iv; gcm_tagLength := 128 |} key encryptedBuffer;
     Ok (TextDecoder_decode decryptedBuffer))
    (λ error, Throw (Error "Invalid password or corrupted data")).

End with_env.

(** The string [s] with bit [k] of its code unit at index [i] inverted. *)
Definition flip_bit (i : nat) (k : N) (s : jsstring) : jsstring :=
  alter (λ c, N.lxor c (2 ^ k)) i s.

End CryptoManager.

(** ** [AppProvider]: accounts *)

Module AppProvider.
Section with_env.
Context `{Env}.
Import Encoding JSString Runtime AppContext.

Definition getUserHash (masterPassword : jsstring) : result jsstring :=
  let data := TextEncoder_encode masterPassword in
  hashBuffer ← subtle_digest SHA_256 data;
  let hashArray := hashBuffer in
  Ok (hex hashArray).

Definition getUserStorageKey (userHash : jsstring) : jsstring :=
  lit "passwordManager_" ++ userHash.

Definition getUsersListKey : jsstring := lit "passwordManager_users".

Definition getAllUsers : M (list UserInfo) :=
  usersData ← localStorage_getItem getUsersListKey;
  if truthy usersData then lift (JSON_parse_users (default [] usersData)) else mret [].

Definition set_lastLogin (t : jsstring) (u : UserInfo) : UserInfo :=
  {| ui_hash := ui_hash u; ui_createdAt := ui_createdAt u;
     ui_lastLogin := t; ui_hint := ui_hint u |}.

(** The list that [addUserToList] writes back: the record of a known hash
    gets a new [lastLogin], an unknown hash is appended. *)
Definition upsert_user (users : list UserInfo) (userInfo : UserInfo) (now : jsstring)
    : list UserInfo :=
  match list_find (λ u, ui_hash u = ui_hash userInfo) users with
  | Some (existingIndex, u) => <[existingIndex := set_lastLogin now u]> users
  | None => users ++ [userInfo]
  end.

Definition addUserToList (userHash masterPassword : jsstring) : M unit :=
  users ← getAllUsers;
  createdAt ← now_iso;
  lastLogin ← now_iso;
  let userInfo :=
    {| ui_hash := userHash;
       ui_createdAt := createdAt;
       ui_lastLogin := lastLogin;
       ui_hint := take 3 masterPassword ++ lit "... ("
                  ++ lit (pretty (length masterPassword)) ++ lit " chars)" |} in
  now ← now_iso;
  let users := upsert_user users userInfo now in
  localStorage_setItem getUsersListKey (JSON_stringify_users users).

(** The users list after [addUserToList] at time [now], given the list
    [users] read before. *)
Definition registered (users : list UserInfo) (userHash masterPassword now : jsstring)
    : list UserInfo :=
  upsert_user users
    {| ui_hash := userHash; ui_createdAt := now; ui_lastLogin := now;
       ui_hint := take 3 masterPassword ++ lit "... ("
                  ++ lit (pretty (length masterPassword)) ++ lit " chars)" |}
    now.

(** The snapshot that [signup] encrypts. *)
Definition initialData (createdAt : jsstring) : VaultData :=
  {| vd_passwords := [];
     vd_categories := defaultCategories;
     vd_settings := defaultSettings;
     vd_createdAt := Some createdAt;
     vd_lastModified := None;
     vd_version := lit "2.0" |}.

Definition signup (masterPassword : jsstring) : M bool :=
  Runtime.try_catch
    (userHash ← lift (getUserHash masterPassword);
     let userStorageKey := getUserStorageKey userHash in
     existingData ← localStorage_getItem userStorageKey;
     if truthy existingData then
       throw (Error "Account with this master password already exists")
     else
       createdAt ← now_iso;
       let dataString := JSON_stringify_vault (initialData createdAt) in
       encrypted ← CryptoManager.encrypt dataString masterPassword;
       localStorage_setItem userStorageKey encrypted;;
       addUserToList userHash masterPassword;;
       sessionStorage_setItem (lit "masterPassword") masterPassword;;
       sessionStorage_setItem (lit "currentUserHash") userHash;;
       dispatch (SET_PASSWORDS []);;
       dispatch LOGIN;;
       mret true)
    (λ error, mret false).

(** The world after a successful [signup] that stored [blob] and the users
    list [users']. *)
Definition signed_up (w : World) (userHash masterPassword blob : jsstring)
    (users' : list UserInfo) : World :=
  {| localStorage :=
       <[getUsersListKey := JSON_stringify_users users']>
         (<[getUserStorageKey userHash := blob]> (localStorage w));
     sessionStorage :=
       <[lit "currentUserHash" := userHash]>
         (<[lit "masterPassword" := masterPassword]> (sessionStorage w));
     random_supply := random_supply w;
     random_drawn := random_drawn w + 48;
     clock := clock w;
     app_state := appReducer (appReducer (app_state w) (SET_PASSWORDS [])) LOGIN |}.

End with_env.
End AppProvider.

(** ** [SecurityAnalyzer.checkPasswordBreach] *)

Module Breach.
Section with_env.
Context `{Env}.
Import Encoding JSString.

Definition checkPasswordBreach (password : jsstring) : result bool :=
  Platform.try_catch
    (let data := TextEncoder_encode password in
     hashBuffer ← subtle_digest SHA_1 data;
     let hashArray := hashBuffer in
     let hashHex := toUpperCase (hex hashArray) in
     let prefix := take 5 hashHex in
     let suffix := drop 5 hashHex in
     response ← fetch (lit "https://api.pwnedpasswords.com/range/" ++ prefix);
     text ← response_text response;
     Ok (includes text suffix))
    (λ error, Ok false).

End with_env.
End Breach.

(** ** Example data *)

Module Examples.

(** A plain entry for examples: only the identifier, the secret, the creation
    time and the compromised flag vary. *)
Definition sample_entry (i pw : jsstring) (created : Date) (compromised : bool)
    : PasswordEntry :=
  {| id := i; title := lit "Gmail"; username := lit "a@b.com"; password := pw;
     url := None; notes := None; category := lit "1";
     createdAt := created; updatedAt := created; isFavorite := None;
     tags := None; lastUsed := None; expiryDate := None;
     isCompromised := Some compromised; strength := None;
     twoFactorSecret := None; customFields := None |}.

(** A small executable environment, for running the model on examples.  It
    is not cryptography: a key is the salt followed by the passphrase bytes,
    encryption appends a 16-byte checksum of key, nonce and data, and
    decryption checks and removes it; a digest is the first four bytes of
    the input.  The JSON and network operations return fixed values, and a
    call takes up to 65535 arguments. *)
Definition sample_tag (iv key data : list byte) : list byte :=
  let sum := foldr (λ b acc, Byte.to_N b + acc) 0 (key ++ iv ++ data) in
  (λ i, Encoding.byte_of_N (sum + N.of_nat i)) <$> seq 0 16.

Definition OperationError : JSError :=
  {| err_name := lit "OperationError"; err_message := [] |}.

Definition sample_decrypt (p : AesGcmParams) (key ct : list byte) : result (list byte) :=
  if (length ct <? 16)%nat then Throw OperationError
  else
    let n := (length ct - 16)%nat in
    if decide (drop n ct = sample_tag (gcm_iv p) key (take n ct))
    then Ok (take n ct) else Throw OperationError.

Global Instance sample_env : Env := {|
  KeyMaterial := list byte;
  AesKey := list byte;
  Response := jsstring;
  subtle_importKey data := Ok data;
  subtle_deriveKey p km a := Ok (pbkdf2_salt p ++ km);
  subtle_encrypt p key data := Ok (data ++ sample_tag (gcm_iv p) key data);
  subtle_decrypt := sample_decrypt;
  subtle_digest h data := Ok (take 4 (data ++ replicate 4 Byte.x00));
  JSON_stringify_vault v := lit "{}";
  JSON_stringify_users us := lit "[]";
  JSON_parse_users s := Ok [];
  fetch url := Ok url;
  response_text r := Ok r;
  max_arguments := 65535;
|}.

(** The sample environment without network: [fetch] rejects. *)
Definition offline_env : Env := {|
  KeyMaterial := list byte;
  AesKey := list byte;
  Response := jsstring;
  subtle_importKey data := Ok data;
  subtle_deriveKey p km a := Ok (pbkdf2_salt p ++ km);
  subtle_encrypt p key data := Ok (data ++ sample_tag (gcm_iv p) key data);
  subtle_decrypt := sample_decrypt;
  subtle_digest h data := Ok (take 4 (data ++ replicate 4 Byte.x00));
  JSON_stringify_vault v := lit "{}";
  JSON_stringify_users us := lit "[]";
  JSON_parse_users s := Ok [];
  fetch url := Throw {| err_name := lit "TypeError"; err_message := lit "Failed to fetch" |};
  response_text r := Ok r;
  max_arguments := 65535;
|}.

(** The sample environment with a [JSON.parse] that reads the text of the
    empty list and rejects every other text. *)
Definition SyntaxError : JSError :=
  {| err_name := lit "SyntaxError"; err_message := [] |}.

Definition strict_env : Env := {|
  KeyMaterial := list byte;
  AesKey := list byte;
  Response := jsstring;
  subtle_importKey data := Ok data;
  subtle_deriveKey p km a := Ok (pbkdf2_salt p ++ km);
  subtle_encrypt p key data := Ok (data ++ sample_tag (gcm_iv p) key data);
  subtle_decrypt := sample_decrypt;
  subtle_digest h data := Ok (take 4 (data ++ replicate 4 Byte.x00));
  JSON_stringify_vault v := lit "{}";
  JSON_stringify_users us := lit "[]";
  JSON_parse_users s := if decide (s = lit "[]") then Ok [] else Throw SyntaxError;
  fetch url := Ok url;
  response_text r := Ok r;
  max_arguments := 65535;
|}.

(** A world with empty storage whose random bytes are 3, 10, 17, ... *)
Definition sample_world : Runtime.World :=
  {| Runtime.localStorage := ∅;
     Runtime.sessionStorage := ∅;
     Runtime.random_supply := λ i, Encoding.byte_of_N (N.of_nat i * 7 + 3);
     Runtime.random_drawn := 0;
     Runtime.clock := lit "2024-01-01T00:00:00.000Z";
     Runtime.app_state := AppContext.initialState |}.

End Examples.

Import Examples.

(** ** Numbers under the bitwise operators *)

Module Int32.

(** [ToInt32] of an integer-valued number: the value modulo 2^32, read as a
    signed 32-bit integer.  On signed integers the bitwise operations of [Z]
    are those of the two's complement representation, and the result of one
    on two 32-bit integers is a 32-bit integer. *)
Definition ToInt32 (z : Z) : Z := ((z + 2 ^ 31) mod 2 ^ 32 - 2 ^ 31)%Z.

(** [a ^ b], [a | b], [a & b] *)
Definition xor (a b : Z) : Z := Z.lxor (ToInt32 a) (ToInt32 b).
Definition or (a b : Z) : Z := Z.lor (ToInt32 a) (ToInt32 b).
Definition and (a b : Z) : Z := Z.land (ToInt32 a) (ToInt32 b).

(** [a << k]: the shift count is taken modulo 32 *)
Definition shl (a k : Z) : Z := ToInt32 (Z.shiftl (ToInt32 a) (k mod 32)).

End Int32.

(** ** [CryptoManager.constantTimeCompare] *)

Module Compare.

(** [s.charCodeAt(i)]; outside the string it is [NaN], which the bitwise
    operators convert to 0. *)
Definition charCodeAt (s : jsstring) (i : nat) : Z := default 0%Z (Z.of_N <$> s !! i).

Definition constantTimeCompare (a b : jsstring) : bool :=
  if negb (length a =? length b)%nat then false
  else
    let result :=
      fold_left (λ result i, Int32.or result (Int32.xor (charCodeAt a i) (charCodeAt b i)))
        (seq 0 (length a)) 0%Z in
    (result =? 0)%Z.

(** A string value: every code unit is below 2^16. *)
Definition is_string (s : jsstring) : Prop := Forall (λ c, c < 65536) s.

End Compare.

(** ** [SecurityAnalyzer.generateSecurePassword] *)

Module Generator.
Import Runtime.

Record Options := {
  opt_length : nat;
  includeUppercase : bool;
  includeLowercase : bool;
  includeNumbers : bool;
  includeSymbols : bool;
  excludeSimilar : bool;
  excludeAmbiguous : bool;
}.

Definition similar : jsstring := lit "il1Lo0O".
(** The braces, brackets and parentheses, the slash, the backslash, the
    single quote, the double quote, the backquote, and ~ , ; . < > *)
Definition ambiguous : jsstring :=
  lit "{}[]()/\'" ++ [34 (* double quote *)] ++ lit "`~,;.<>".

Definition uppercase : jsstring := lit "ABCDEFGHIJKLMNOPQRSTUVWXYZ".
Definition lowercase : jsstring := lit "abcdefghijklmnopqrstuvwxyz".
Definition numbers : jsstring := lit "0123456789".
Definition symbols : jsstring := lit "!@#$%^&*()_+-=[]{}|;:,.<>?".

(** [charset.split('').filter(char => !excluded.includes(char)).join('')] *)
Definition without (excluded charset : jsstring) : jsstring :=
  List.filter (λ char, negb (JSString.includes excluded [char])) charset.

(** The character set after the six [if] statements. *)
Definition charset_of (options : Options) : jsstring :=
  let charset := [] in
  let charset := if includeUppercase options then charset ++ uppercase else charset in
  let charset := if includeLowercase options then charset ++ lowercase else charset in
  let charset := if includeNumbers options then charset ++ numbers else charset in
  let charset := if includeSymbols options then charset ++ symbols else charset in
  let charset := if excludeSimilar options then without similar charset else charset in
  let charset := if excludeAmbiguous options then without ambiguous charset else charset in
  charset.

Definition QuotaExceededError : JSError :=
  {| err_name := lit "QuotaExceededError"; err_message := [] |}.

(** The element of a [Uint32Array] held in four bytes; the byte order is
    that of the platform, here little-endian. *)
Definition uint32 (bs : list byte) : N := foldr (λ b acc, Byte.to_N b + 256 * acc) 0 bs.

(** [crypto.getRandomValues(new Uint32Array(n))]: the call fills the 4n
    bytes of the array, and throws when they are more than 65536.  (The
    limit of an engine on the length of an array is far above that.) *)
Definition getRandomValues_Uint32 (n : nat) : M (list N) :=
  if 65536 <? 4 * N.of_nat n then throw QuotaExceededError
  else
    bytes ← getRandomValues (4 * n);
    mret ((λ i, uint32 (take 4 (drop (4 * i) bytes))) <$> seq 0 n).

(** [s.charAt(i)]: the empty string outside the string *)
Definition charAt (s : jsstring) (i : nat) : jsstring := option_list (s !! i).

Definition generateSecurePassword (options : Options) : M jsstring :=
  let charset := charset_of options in
  if decide (charset = []) then mret []
  else
    array ← getRandomValues_Uint32 (opt_length options);
    let result :=
      fold_left
        (λ result i,
           result ++ charAt charset (N.to_nat ((array !!! i) mod N.of_nat (length charset))))
        (seq 0 (opt_length options)) [] in
    mret result.

(** The classes a character of the result may come from. *)
Definition allowed (options : Options) (c : N) : Prop :=
  (includeUppercase options = true ∧ c ∈ uppercase
   ∨ includeLowercase options = true ∧ c ∈ lowercase
   ∨ includeNumbers options = true ∧ c ∈ numbers
   ∨ includeSymbols options = true ∧ c ∈ symbols)
  ∧ (excludeSimilar options = true → c ∉ similar)
  ∧ (excludeAmbiguous options = true → c ∉ ambiguous).

Definition some_class (options : Options) : bool :=
  includeUppercase options || includeLowercase options
  || includeNumbers options || includeSymbols options.

End Generator.

(** ** Numbers as text *)

Module JSNumber.

(** The digits of [n] in the given radix, most significant first, in front
    of [acc]; digits above 9 are the lowercase letters. *)
Fixpoint digits (radix : N) (fuel : nat) (n : N) (acc : jsstring) : jsstring :=
  match fuel with
  | O => acc
  | S fuel =>
      let acc := JSString.hex_digit (n mod radix) :: acc in
      if n / radix =? 0 then acc else digits radix fuel (n / radix) acc
  end.

(** [z.toString(radix)] for an integer [z]: a minus sign for a negative
    number and the digits of the absolute value.  A number has no more
    digits than bits. *)
Definition toString (radix : N) (z : Z) : jsstring :=
  let n := Z.abs_N z in
  let ds := digits radix (S (N.to_nat (N.log2 n))) n [] in
  if (z <? 0)%Z then 45 :: ds else ds.

(** The value of a hexadecimal digit. *)
Definition hex_value (c : N) : option N :=
  if in_range 48 57 c then Some (c - 48)
  else if in_range 97 102 c then Some (c - 87)
  else if in_range 65 70 c then Some (c - 55)
  else None.

(** The value of the longest prefix of hexadecimal digits. *)
Fixpoint parse_hex (acc : N) (s : jsstring) : N :=
  match s with
  | [] => acc
  | c :: s' =>
      match hex_value c with
      | Some v => parse_hex (acc * 16 + v) s'
      | None => acc
      end
  end.

(** [parseInt(s, 16)] for a string that begins with neither white space, a
    sign nor the prefix 0x: the value of its leading hexadecimal digits, and
    [NaN], here [None], when it has none. *)
Definition parseInt_16 (s : jsstring) : option N :=
  match s with
  | c :: _ => if bool_decide (is_Some (hex_value c)) then Some (parse_hex 0 s) else None
  | [] => None
  end.

(** [s.padStart(targetLength, pad)] for a one-character [pad] *)
Definition padStart (targetLength : nat) (pad : N) (s : jsstring) : jsstring :=
  replicate (targetLength - length s) pad ++ s.

(** [s.slice(-n)]: the last [n] code units, or all of a shorter string *)
Definition slice_last (n : nat) (s : jsstring) : jsstring := drop (length s - n) s.

(** A lowercase hexadecimal digit, and a text of hexadecimal digits. *)
Definition is_lower_hex (c : N) : Prop := 48 ≤ c ≤ 57 ∨ 97 ≤ c ≤ 102.

Definition is_hex_text (s : jsstring) : Prop :=
  Forall (λ c, ∃ d, d < 16 ∧ hex_value c = Some d) s.

End JSNumber.

(** ** [TwoFactorAuth] *)

Module TwoFactorAuth.
Import Runtime JSNumber.

Global Instance byte_inhabited : Inhabited byte := populate Byte.x00.

(** [chars[k]] appended to a string: the character, and the text
    [undefined] for an index outside the string. *)
Definition index_text (chars : jsstring) (k : nat) : jsstring :=
  from_option (λ c, [c]) (lit "undefined") (chars !! k).

Definition generateSecret : M jsstring :=
  let chars := lit "ABCDEFGHIJKLMNOPQRSTUVWXYZ234567" in
  array ← getRandomValues 32;
  let secret :=
    fold_left
      (λ secret i,
         secret ++ index_text chars
                     (N.to_nat (Byte.to_N (array !!! i) mod N.of_nat (length chars))))
      (seq 0 32) [] in
  mret secret.

(** [simpleHash]: the sum is formed exactly and then cut to 32 bits by
    [hash & hash]. *)
Definition simpleHash (input : jsstring) : jsstring :=
  let hash :=
    fold_left
      (λ hash i,
         let char := Compare.charCodeAt input i in
         let hash := (Int32.shl hash 5 - hash + char)%Z in
         Int32.and hash hash)
      (seq 0 (length input)) 0%Z in
  toString 16 (Z.abs hash).

(** [generateTOTP]; [now] is the value of [Date.now()], an integer, and
    [window] is an integer.  For an integer the floor of the quotient by 1000
    and then by 30 is the integer quotient. *)
Definition generateTOTP (now : Z) (secret : jsstring) (window : Z) : jsstring :=
  let time := (now / 1000 / 30 + window)%Z in
  let timeHex := padStart 16 48 (toString 16 time) in
  let hash := simpleHash (secret ++ timeHex) in
  let code :=
    match parseInt_16 (slice_last 6 hash) with
    | Some n => padStart 6 48 (toString 10 (Z.of_N (n mod 1000000)))
    | None => padStart 6 48 (lit "NaN")
    end in
  code.

(** The alphabet of Base32. *)
Definition is_base32 (c : N) : Prop := 65 ≤ c ≤ 90 ∨ 50 ≤ c ≤ 55.

Definition is_decimal_digit (c : N) : Prop := 48 ≤ c ≤ 57.

End TwoFactorAuth.

(** ** [SecurityAnalyzer.getPasswordAnalytics] *)

Module Analytics.
Import Strength SecurityAnalyzer.

(** An array index among property keys: the decimal text, without sign or
    leading zero, of an integer below 2^32 - 1. *)
Definition decimal_value (k : jsstring) : N := fold_left (λ acc c, acc * 10 + (c - 48)) k 0.

Definition array_index (k : jsstring) : option N :=
  match k with
  | [] => None
  | c :: rest =>
      if forallb (in_range 48 57) k
         && (negb (c =? 48) || bool_decide (rest = []))
         && (length k <=? 10)%nat
         && (decimal_value k <? 4294967295)
      then Some (decimal_value k)
      else None
  end.

(** [Array.prototype.sort] with a comparator: the sort is stable;
    [before x y] says that the comparator is negative on [x] and [y]. *)
Fixpoint insert_sorted {A} (before : A → A → bool) (x : A) (l : list A) : list A :=
  match l with
  | [] => [x]
  | y :: l' => if before x y then x :: l else y :: insert_sorted before x l'
  end.

Definition stable_sort {A} (before : A → A → bool) (l : list A) : list A :=
  fold_left (λ acc x, insert_sorted before x acc) l [].

(** [Object.entries] of an object whose properties were created in the
    order of the list: first the array indices in ascending order, then the
    other keys in the order of their creation. *)
Definition Object_entries {V} (o : JSMap.t jsstring V) : list (jsstring * V) :=
  let indexed := List.filter (λ kv, bool_decide (is_Some (array_index kv.1))) o in
  let named := List.filter (λ kv, negb (bool_decide (is_Some (array_index kv.1)))) o in
  stable_sort (λ x y, default 0 (array_index x.1) <? default 0 (array_index y.1)) indexed
  ++ named.

(** The [reduce] that counts the entries of each category keeps the counts
    in an object that starts as [{}].  A property of it holds a number, or
    the string that [+ 1] makes of anything else. *)
Inductive Stat :=
  | Count (n : nat)
  | Text (s : jsstring).

(** The prototype of [{}] is [Object.prototype], so a name that is not a
    property of the object itself may still be found: the names below yield
    built-in functions, and [__proto__] is an accessor that yields the
    prototype. *)
Definition Object_prototype_functions : list jsstring :=
  [lit "constructor"; lit "__defineGetter__"; lit "__defineSetter__";
   lit "hasOwnProperty"; lit "__lookupGetter__"; lit "__lookupSetter__";
   lit "isPrototypeOf"; lit "propertyIsEnumerable"; lit "toString"; lit "valueOf";
   lit "toLocaleString"].

Inductive Inherited :=
  | BuiltinFunction (name : jsstring)
  | ObjectPrototype.

Definition inherited (k : jsstring) : option Inherited :=
  if decide (k = lit "__proto__") then Some ObjectPrototype
  else if decide (k ∈ Object_prototype_functions) then Some (BuiltinFunction k)
  else None.

(** What the language leaves to the engine: the text of a built-in function
    (of the function that [Object.prototype] holds under the given name),
    and the order in which [sort] leaves the entries when some value is a
    string.  Then [b - a] is [NaN] for a pair of entries (unless the string
    is the text of a number), and for a comparator that is not consistent
    the order is implementation-defined. *)
Class Engine := {
  Function_toString : jsstring → jsstring;
  sort_with_text : list (jsstring * Stat) → list (jsstring * Stat);
}.

Section with_engine.
Context `{Engine}.

(** [(acc[k] || 0) + 1]: a missing property and the empty string count as 0;
    a string, a function and an object are turned into text, to which [1] is
    appended. *)
Definition incremented (acc : JSMap.t jsstring Stat) (k : jsstring) : Stat :=
  match JSMap.get k acc with
  | Some (Count n) => Count (n + 1)
  | Some (Text []) => Count 1
  | Some (Text s) => Text (s ++ lit "1")
  | None =>
      match inherited k with
      | Some (BuiltinFunction name) => Text (Function_toString name ++ lit "1")
      | Some ObjectPrototype => Text (lit "[object Object]1")
      | None => Count 1
      end
  end.

(** [acc[k] = v] for a number or a string [v].  The name [__proto__] is
    handled by the setter of [Object.prototype], which ignores a value that
    is neither an object nor [null]; any other name becomes, or stays, a
    property of the object itself. *)
Definition assign (acc : JSMap.t jsstring Stat) (k : jsstring) (v : Stat)
    : JSMap.t jsstring Stat :=
  if decide (k = lit "__proto__") then acc else JSMap.set k v acc.

Definition count_category (acc : JSMap.t jsstring Stat) (p : PasswordEntry)
    : JSMap.t jsstring Stat :=
  assign acc (category p) (incremented acc (category p)).

Definition is_count (v : Stat) : bool :=
  match v with
  | Count _ => true
  | Text _ => false
  end.

Definition count_of (v : Stat) : nat :=
  match v with
  | Count n => n
  | Text _ => 0
  end.

(** [entries.sort(([,a], [,b]) => b - a)] *)
Definition sort_descending (entries : list (jsstring * Stat)) : list (jsstring * Stat) :=
  if forallb (λ kv, is_count kv.2) entries
  then stable_sort (λ a b, (count_of b.2 <? count_of a.2)%nat) entries
  else sort_with_text entries.

End with_engine.

Record StrengthDistribution := {
  weak : nat;
  fair : nat;
  good : nat;
  strong : nat;
}.

Record PasswordAnalytics := {
  totalPasswords : nat;
  recentlyUsed : nat;
  neverUsed : nat;
  categoryStats : JSMap.t jsstring Stat;
  strengthDistribution : StrengthDistribution;
  averagePasswordAge : Z;
  mostUsedCategory : jsstring;
}.

(** [getAveragePasswordAge]; the quotient is a rational, so the rounding of
    the two binary64 divisions is left out of the model. *)
Definition getAveragePasswordAge (now : Date) (passwords : list PasswordEntry) : Z :=
  if decide (length passwords = 0%nat) then 0%Z
  else
    let totalAge :=
      fold_left (λ sum p, let age := (now - createdAt p)%Z in (sum + age)%Z) passwords 0%Z in
    Qfloor (inject_Z totalAge / num (length passwords) / inject_Z (1000 * 60 * 60 * 24)).

(** [getPasswordAnalytics]; [now] is the value of its [new Date()] and
    [now'] that of the later one in [getAveragePasswordAge]. *)
Definition getPasswordAnalytics `{Engine} (now now' : Date) (passwords : list PasswordEntry)
    : PasswordAnalytics :=
  let thirtyDaysAgo := (now - 30 * 24 * 60 * 60 * 1000)%Z in
  let recentlyUsed :=
    length (List.filter
              (λ p, match lastUsed p with
                    | Some d => (thirtyDaysAgo <? d)%Z
                    | None => false
                    end) passwords) in
  let neverUsed :=
    length (List.filter (λ p, negb (bool_decide (is_Some (lastUsed p)))) passwords) in
  let categoryStats := fold_left count_category passwords JSMap.empty in
  let strengthDistribution :=
    {| weak :=
         length (List.filter
                   (λ p, (calculatePasswordStrength (password p) <? 30)%Z) passwords);
       fair :=
         length (List.filter
                   (λ p, let strength := calculatePasswordStrength (password p) in
                         (30 <=? strength)%Z && (strength <? 60)%Z) passwords);
       good :=
         length (List.filter
                   (λ p, let strength := calculatePasswordStrength (password p) in
                         (60 <=? strength)%Z && (strength <? 80)%Z) passwords);
       strong :=
         length (List.filter
                   (λ p, (80 <=? calculatePasswordStrength (password p))%Z) passwords) |} in
  {| totalPasswords := length passwords;
     recentlyUsed := recentlyUsed;
     neverUsed := neverUsed;
     categoryStats := categoryStats;
     strengthDistribution := strengthDistribution;
     averagePasswordAge := getAveragePasswordAge now' passwords;
     mostUsedCategory :=
       match head (sort_descending (Object_entries categoryStats)) with
       | Some (k :: key, _) => k :: key
       | _ => lit "None"
       end |}.


(** An engine for examples: the text of a built-in function as V8 prints it,
    and a [sort] that leaves the entries in place. *)
Definition sample_engine : Engine := {|
  Function_toString name :=
    lit "function "
    ++ (if decide (name = lit "constructor") then lit "Object" else name)
    ++ lit "() { [native code] }";
  sort_with_text entries := entries;
|}.

End Analytics.

(** ** More of storage and of the platform *)

Module Storage.
Import Runtime.

(** [removeItem] and [sessionStorage.getItem] *)
Definition localStorage_removeItem (k : jsstring) : M unit :=
  λ w, (Ok tt, set_localStorage (delete k (localStorage w)) w).
Definition sessionStorage_getItem (k : jsstring) : M (option jsstring) :=
  λ w, (Ok (sessionStorage w !! k), w).
Definition sessionStorage_removeItem (k : jsstring) : M unit :=
  λ w, (Ok tt, set_sessionStorage (delete k (sessionStorage w)) w).

(** The reducer state that a function of the provider closes over. *)
Definition get_state : M AppState := λ w, (Ok (app_state w), w).

End Storage.

Module Host.

(** Of the credential that [navigator.credentials.get] resolves to, the
    program reads [response.userHandle], which may be [null]. *)
Record Assertion := {
  userHandle : option (list byte);
}.

(** Of the object that [JSON.parse] yields for a decrypted vault, [login]
    reads [passwords] and [settings]; [None] is a missing or falsy
    property, and a property that is present has the type that the program
    expects. *)
Record StoredData := {
  stored_passwords : option (list PasswordEntry);
  stored_settings : option PartialSettings;
}.

(** What [login] takes from the platform besides [Env]: [JSON.parse] of the
    vault text and WebAuthn.  A text that denotes [null] counts as a failure
    of [JSON_parse_vault]: reading a property of it throws, within the same
    [try].  The answers of the platform are those at the time of the call. *)
Class Host := {
  JSON_parse_vault : jsstring → result StoredData;
  (** whether [window.PublicKeyCredential] is defined *)
  PublicKeyCredential_defined : bool;
  (** [PublicKeyCredential.isUserVerifyingPlatformAuthenticatorAvailable()] *)
  isUserVerifyingPlatformAuthenticatorAvailable : result bool;
  (** [navigator.credentials.get] with the given challenge, a timeout of one
      minute, required user verification and no list of credentials; [None]
      is [null] *)
  credentials_get : list byte → result (option Assertion);
}.

End Host.

Import Host.

(** ** [BiometricManager] *)

Module BiometricManager.
Section with_host.
Context `{Host}.
Import Encoding Runtime Storage.

Definition isAvailable : result bool :=
  Platform.try_catch
    (if negb PublicKeyCredential_defined then Ok false
     else
       available ← isUserVerifyingPlatformAuthenticatorAvailable;
       Ok available)
    (λ error, Ok false).

Definition authenticate : M (option jsstring) :=
  Runtime.try_catch
    (available ← lift isAvailable;
     if negb available then throw (Error "Biometric authentication not available")
     else
       challenge ← getRandomValues 32;
       credential ← lift (credentials_get challenge);
       match credential with
       | Some credential =>
           match userHandle credential with
           | Some handle => mret (Some (TextDecoder_decode handle))
           | None => mret None
           end
       | None => mret None
       end)
    (λ error, mret None).

Definition fallbackKey (userHandle : jsstring) : jsstring :=
  lit "biometric_fallback_" ++ userHandle.

Definition storeFallbackData (userHandle encryptedData : jsstring) : M unit :=
  Runtime.try_catch
    (localStorage_setItem (fallbackKey userHandle) encryptedData)
    (λ error, throw error).

Definition retrieveFallbackData (userHandle : jsstring) : M (option jsstring) :=
  Runtime.try_catch
    (localStorage_getItem (fallbackKey userHandle))
    (λ error, mret None).

Definition removeBiometric (userHandle : jsstring) : M unit :=
  Runtime.try_catch
    (localStorage_removeItem (lit "biometric_" ++ userHandle);;
     localStorage_removeItem (fallbackKey userHandle))
    (λ error, mret tt).

End with_host.
End BiometricManager.

(** ** [AppProvider]: sessions *)

Module AppSession.
Section with_env.
Context `{Env} `{Host}.
Import Encoding JSString Runtime Storage AppContext AppProvider BiometricManager.

Definition getCurrentUser : M (option jsstring) :=
  sessionStorage_getItem (lit "currentUserHash").

Definition login (masterPassword : jsstring) : M bool :=
  Runtime.try_catch
    (biometric ←
       (if decide (masterPassword = []) then lift isAvailable else mret false);
     if (biometric : bool) then
       userHandle ← authenticate;
       if truthy userHandle then
         let userHandle := default [] userHandle in
         fallbackData ← retrieveFallbackData userHandle;
         if truthy fallbackData then
           sessionStorage_setItem (lit "currentUserHash") userHandle;;
           dispatch LOGIN;;
           mret true
         else mret false
       else mret false
     else
       userHash ← lift (getUserHash masterPassword);
       let userStorageKey := getUserStorageKey userHash in
       encryptedData ← localStorage_getItem userStorageKey;
       if negb (truthy encryptedData) then mret false
       else
         let encryptedData := default [] encryptedData in
         Runtime.try_catch
           (decryptedData ← lift (CryptoManager.decrypt encryptedData masterPassword);
            data ← lift (JSON_parse_vault decryptedData);
            dispatch (SET_PASSWORDS (default [] (stored_passwords data)));;
            match stored_settings data with
            | Some settings => dispatch (UPDATE_SETTINGS settings)
            | None => mret tt
            end;;
            addUserToList userHash masterPassword;;
            sessionStorage_setItem (lit "masterPassword") masterPassword;;
            sessionStorage_setItem (lit "currentUserHash") userHash;;
            available ← lift isAvailable;
            (if (available : bool) then
               Runtime.try_catch (storeFallbackData userHash encryptedData)
                 (λ error, mret tt)
             else mret tt);;
            dispatch LOGIN;;
            mret true)
           (λ decryptError, mret false))
    (λ error, mret false).

Definition logout : M unit :=
  sessionStorage_removeItem (lit "masterPassword");;
  sessionStorage_removeItem (lit "currentUserHash");;
  dispatch LOGOUT.

(** The object that [saveData] serialises. *)
Definition snapshot (passwords : list PasswordEntry) (categories : list Category)
    (settings : Settings) (lastModified : jsstring) : VaultData :=
  {| vd_passwords := passwords;
     vd_categories := categories;
     vd_settings := settings;
     vd_createdAt := None;
     vd_lastModified := Some lastModified;
     vd_version := lit "2.0" |}.

Definition saveData (passwords : list PasswordEntry) (settings : Settings) : M unit :=
  masterPassword ← sessionStorage_getItem (lit "masterPassword");
  currentUserHash ← sessionStorage_getItem (lit "currentUserHash");
  if truthy masterPassword && truthy currentUserHash then
    let masterPassword := default [] masterPassword in
    let currentUserHash := default [] currentUserHash in
    Runtime.try_catch
      (state ← get_state;
       lastModified ← now_iso;
       let data :=
         JSON_stringify_vault (snapshot passwords (categories state) settings lastModified) in
       encrypted ← CryptoManager.encrypt data masterPassword;
       let userStorageKey := getUserStorageKey currentUserHash in
       localStorage_setItem userStorageKey encrypted)
      (λ error, mret tt)
  else mret tt.

(** The effect that follows a change of the entries, the settings or the
    authentication flag. *)
Definition saveEffect : M unit :=
  state ← get_state;
  if isAuthenticated state then saveData (passwords state) (settings state) else mret tt.

(** [users.filter((u: any) => u.hash !== userHash)] *)
Definition without_user (userHash : jsstring) (users : list UserInfo) : list UserInfo :=
  List.filter (λ u, bool_decide (ui_hash u ≠ userHash)) users.

Definition deleteUser (userHash : jsstring) : M unit :=
  let userStorageKey := getUserStorageKey userHash in
  localStorage_removeItem userStorageKey;;
  users ← getAllUsers;
  let updatedUsers := without_user userHash users in
  localStorage_setItem getUsersListKey (JSON_stringify_users updatedUsers).

Definition clearAllData : M unit :=
  currentUserHash ← getCurrentUser;
  (if truthy currentUserHash then
     let currentUserHash := default [] currentUserHash in
     let userStorageKey := getUserStorageKey currentUserHash in
     localStorage_removeItem userStorageKey;;
     users ← getAllUsers;
     let updatedUsers := without_user currentUserHash users in
     localStorage_setItem getUsersListKey (JSON_stringify_users updatedUsers)
   else mret tt);;
  dispatch CLEAR_ALL_DATA.

End with_env.
End AppSession.

(** A platform for the examples: [JSON.parse] finds neither entries nor
    settings in the text, which fits the text that the sample environment
    serialises every vault to; the authenticator is present and asserts the
    user handle [416a6179], the hash of the passphrase of the examples. *)
Definition sample_host : Host := {|
  JSON_parse_vault s := Ok {| stored_passwords := None; stored_settings := None |};
  PublicKeyCredential_defined := true;
  isUserVerifyingPlatformAuthenticatorAvailable := Ok true;
  credentials_get challenge :=
    Ok (Some {| userHandle := Some (Encoding.TextEncoder_encode (lit "416a6179")) |});
|}.

(** The states that [login] leaves, for the statements about it. *)

Module SessionStates.
Section with_env.
Context `{Env} `{Host}.
Import Encoding JSString Runtime Storage AppContext AppProvider BiometricManager.

(** The answer of [isAvailable], which never throws. *)
Definition available : bool :=
  match isAvailable with
  | Ok b => b
  | Throw _ => false
  end.

(** The reducer state after [login] has dispatched the stored entries and
    settings. *)
Definition loaded (data : StoredData) (state : AppState) : AppState :=
  let state' := appReducer state (SET_PASSWORDS (default [] (stored_passwords data))) in
  match stored_settings data with
  | Some settings => appReducer state' (UPDATE_SETTINGS settings)
  | None => state'
  end.

(** The world after a [login] with the passphrase that decrypted [blob] to
    [data], given the users list [users] read before. *)
Definition logged_in (w : World) (userHash masterPassword blob : jsstring)
    (data : StoredData) (users : list UserInfo) : World :=
  let users' := registered users userHash masterPassword (clock w) in
  let ls := <[getUsersListKey := JSON_stringify_users users']> (localStorage w) in
  {| localStorage := if available then <[fallbackKey userHash := blob]> ls else ls;
     sessionStorage :=
       <[lit "currentUserHash" := userHash]>
         (<[lit "masterPassword" := masterPassword]> (sessionStorage w));
     random_supply := random_supply w;
     random_drawn := random_drawn w;
     clock := clock w;
     app_state := appReducer (loaded data (app_state w)) LOGIN |}.

End with_env.
End SessionStates.

(** ** Platform: [crypto.randomUUID]

    A version 4 UUID after the Web Cryptography standard: sixteen random
    bytes, of which the high four bits of byte 6 are set to 0100 and the
    high two bits of byte 8 to 10, in hexadecimal, in groups of 4, 2, 2, 2
    and 6 bytes joined by hyphens. *)

Module UUID.
Import Encoding JSString Runtime.

Definition set_version (bytes : list byte) : list byte :=
  let bytes := alter (λ b, byte_of_N (N.lor (N.land (Byte.to_N b) 15) 64)) 6%nat bytes in
  alter (λ b, byte_of_N (N.lor (N.land (Byte.to_N b) 63) 128)) 8%nat bytes.

Definition format (bytes : list byte) : jsstring :=
  hex (take 4 bytes) ++ [45] ++ hex (take 2 (drop 4 bytes)) ++ [45]
  ++ hex (take 2 (drop 6 bytes)) ++ [45] ++ hex (take 2 (drop 8 bytes)) ++ [45]
  ++ hex (drop 10 bytes).

Definition randomUUID : M jsstring :=
  bytes ← getRandomValues 16;
  mret (format (set_version bytes)).

End UUID.

(** ** [ActivityLogger] and [SecurityAnalyzer.logActivity] *)

Module ActivityLog.

(** The value of [details] is untyped; [Details] stands for the objects
    passed.  An element of the log of [ActivityLogger] and one of the log of
    [SecurityAnalyzer]. *)
Record LogEntry (Details : Type) := {
  entry_timestamp : jsstring;
  entry_action : jsstring;
  entry_details : Details;
  entry_userAgent : jsstring;
  entry_encryptionStatus : jsstring;
  entry_sessionId : jsstring;
}.
Global Arguments Build_LogEntry {Details}.

Record Activity (Details : Type) := {
  activity_timestamp : jsstring;
  activity_action : jsstring;
  activity_details : Details;
  activity_userAgent : jsstring;
  activity_sessionId : jsstring;
  activity_securityLevel : jsstring;
}.
Global Arguments Build_Activity {Details}.

(** What the loggers take from the platform.  [JSON.parse] yields any
    value: [Some] of the elements when the value is an array, [None] when it
    is not. *)
Class LogHost := {
  Details : Type;
  (** the object [{}] *)
  empty_object : Details;
  (** [{ ...details, encryptionStatus: 'AES-256-GCM', complianceLevel: 'NIST-OWASP' }] *)
  with_compliance : Details → Details;
  navigator_userAgent : jsstring;
  JSON_stringify_logs : list (LogEntry Details) → jsstring;
  JSON_parse_logs : jsstring → result (option (list (LogEntry Details)));
  JSON_stringify_activities : list (Activity Details) → jsstring;
  JSON_parse_activities : jsstring → result (option (list (Activity Details)));
}.

Section with_host.
Context `{LogHost}.
Import Runtime Storage UUID.

(** The exception of a call of a method that the value does not have. *)
Definition TypeError (message : string) : JSError :=
  {| err_name := lit "TypeError"; err_message := lit message |}.

(** *** [ActivityLogger] *)

Definition LOG_KEY : jsstring := lit "securevault_activity_log".
Definition MAX_LOG_ENTRIES : nat := 1000.

Definition getLogs : M (option (list (LogEntry Details))) :=
  Runtime.try_catch
    (logs ← localStorage_getItem LOG_KEY;
     if truthy logs then lift (JSON_parse_logs (default [] logs)) else mret (Some []))
    (λ error, mret (Some [])).

Definition clearLogs : M unit :=
  Runtime.try_catch (localStorage_removeItem LOG_KEY) (λ error, mret tt).

Definition getSessionId : M jsstring :=
  sessionId ← sessionStorage_getItem (lit "session_id");
  if truthy sessionId then mret (default [] sessionId)
  else
    sessionId ← randomUUID;
    sessionStorage_setItem (lit "session_id") sessionId;;
    mret sessionId.

(** [details] is [None] for a missing or falsy argument. *)
Definition log (action : jsstring) (details : option Details) : M unit :=
  Runtime.try_catch
    (timestamp ← now_iso;
     sessionId ← getSessionId;
     let entry :=
       Build_LogEntry timestamp action (default empty_object details)
         navigator_userAgent (lit "AES-256-GCM") sessionId in
     logs ← getLogs;
     match logs with
     | Some logs =>
         (* logs.unshift(entry) *)
         let logs := entry :: logs in
         (* logs.splice(MAX_LOG_ENTRIES) removes what follows the first
            MAX_LOG_ENTRIES elements *)
         let logs :=
           if (MAX_LOG_ENTRIES <? length logs)%nat then take MAX_LOG_ENTRIES logs
           else logs in
         localStorage_setItem LOG_KEY (JSON_stringify_logs logs)
     | None => throw (TypeError "logs.unshift is not a function")
     end)
    (λ error, mret tt).

(** *** [SecurityAnalyzer] *)

Definition ACTIVITY_KEY : jsstring := lit "passwordManager_activityLogs".

Definition getActivityLogs : M (option (list (Activity Details))) :=
  logs ← localStorage_getItem ACTIVITY_KEY;
  if truthy logs then lift (JSON_parse_activities (default [] logs)) else mret (Some []).

Definition clearActivityLogs : M unit := localStorage_removeItem ACTIVITY_KEY.

(** [logs.slice(-n)]: the last [n] elements *)
Definition slice_last {A} (n : nat) (l : list A) : list A := drop (length l - n) l.

(** [details] is [None] for a missing argument, whose default is [{}]. *)
Definition logActivity (action : jsstring) (details : option Details) : M unit :=
  timestamp ← now_iso;
  sessionId ← sessionStorage_getItem (lit "sessionId");
  let activity :=
    Build_Activity timestamp action (with_compliance (default empty_object details))
      navigator_userAgent
      (if truthy sessionId then default [] sessionId else lit "unknown")
      (lit "HIGH") in
  logs ← getActivityLogs;
  match logs with
  | Some logs =>
      (* logs.push(activity) *)
      let logs := logs ++ [activity] in
      let recentLogs := slice_last 100 logs in
      localStorage_setItem ACTIVITY_KEY (JSON_stringify_activities recentLogs)
  | None => throw (TypeError "logs.push is not a function")
  end.

End with_host.
End ActivityLog.

(** The entries that the loggers build, for the statements about them. *)

Module LogStates.
Section with_host.
Context `{ActivityLog.LogHost}.
Import Runtime UUID ActivityLog.

(** The session identifier that [getSessionId] returns in the world [w],
    and the world it leaves. *)
Definition session_of (w : World) : jsstring * World :=
  match sessionStorage w !! lit "session_id" with
  | Some (c :: sessionId) => (c :: sessionId, w)
  | _ =>
      let sessionId := format (set_version (next_random 16 w)) in
      (sessionId,
       set_sessionStorage (<[lit "session_id" := sessionId]> (sessionStorage w))
         (set_random_drawn (random_drawn w + 16) w))
  end.

(** The entry that [log] builds in the world [w]. *)
Definition entry_of (action : jsstring) (details : option Details) (w : World)
    : LogEntry Details :=
  Build_LogEntry (clock w) action (default empty_object details)
    navigator_userAgent (lit "AES-256-GCM") (session_of w).1.

(** The record that [logActivity] builds in the world [w]. *)
Definition activity_of (action : jsstring) (details : option Details) (w : World)
    : Activity Details :=
  Build_Activity (clock w) action (with_compliance (default empty_object details))
    navigator_userAgent
    (if truthy (sessionStorage w !! lit "sessionId")
     then default [] (sessionStorage w !! lit "sessionId") else lit "unknown")
    (lit "HIGH").

End with_host.
End LogStates.

(** * Properties *)

(** ** Password strength *)

Section strength_facts.
Import Strength.

Lemma test_class_Exists (cls : N → bool) (P : N → Prop) (s : jsstring) :
  (∀ c, cls c = true ↔ P c) → test_class cls s = true ↔ Exists P s.
Proof.
  intros Hcls. unfold test_class. rewrite existsb_exists, Exists_exists.
  split; intros (c & Hin & Hc); exists c; rewrite <- list_elem_of_In in *;
    (split; [done | by apply Hcls]).
Qed.

Lemma in_range_spec lo hi c : in_range lo hi c = true ↔ lo ≤ c ≤ hi.
Proof. unfold in_range. rewrite andb_true_iff, !N.leb_le. done. Qed.

Lemma test_lower s : test_class re_lower s = true ↔ has_lowercase s.
Proof. apply test_class_Exists. intros c. apply in_range_spec. Qed.

Lemma test_upper s : test_class re_upper s = true ↔ has_uppercase s.
Proof. apply test_class_Exists. intros c. apply in_range_spec. Qed.

Lemma test_digit s : test_class re_digit s = true ↔ has_digit s.
Proof. apply test_class_Exists. intros c. apply in_range_spec. Qed.

Lemma test_symbol s : test_class re_symbol s = true ↔ has_symbol s.
Proof.
  apply test_class_Exists. intros c. unfold re_symbol.
  by rewrite bool_decide_eq_true.
Qed.

Lemma if_points (b : bool) (P : Prop) `{Decision P} (n acc : Z) :
  (b = true ↔ P) → (if b then acc + n else acc)%Z = (acc + points P n)%Z.
Proof.
  intros Hb. unfold points. destruct b, (decide P); try lia.
  - exfalso. tauto.
  - exfalso. assert (false = true) by tauto. done.
Qed.

(** The sum of all five awards is exactly 100, so the cap never cuts. *)
Lemma strength_sum_le_100 (s : jsstring) :
  (points (8 ≤ length s)%nat 25 + points (12 ≤ length s)%nat 25
   + points (has_lowercase s ∧ has_uppercase s) 20
   + points (has_digit s) 15 + points (has_symbol s) 15 ≤ 100)%Z.
Proof. unfold points. repeat case_decide; lia. Qed.

Lemma strength_eq_spec (s : jsstring) :
  calculatePasswordStrength s = strength_spec s.
Proof.
  unfold calculatePasswordStrength, strength_spec. f_equal.
  rewrite (if_points (8 <=? length s)%nat (8 ≤ length s)%nat) by apply Nat.leb_le.
  rewrite (if_points (12 <=? length s)%nat (12 ≤ length s)%nat) by apply Nat.leb_le.
  rewrite (if_points (test_class re_lower s && test_class re_upper s)
             (has_lowercase s ∧ has_uppercase s))
    by (rewrite andb_true_iff, test_lower, test_upper; done).
  rewrite (if_points (test_class re_digit s) (has_digit s)) by apply test_digit.
  rewrite (if_points (test_class re_symbol s) (has_symbol s)) by apply test_symbol.
  lia.
Qed.

(** C5. For every password string, the score computed by
    [calculatePasswordStrength] is the sum of 25 for length at least 8, a
    further 25 for length at least 12, 20 for containing both a lowercase and
    an uppercase letter (a-z and A-Z), 15 for containing a digit (0-9) and 15
    for containing a symbol of the punctuation set, capped at 100.  The score
    is a function of the string alone, so scoring a string twice gives the
    same score. *)
Theorem calculatePasswordStrength_rule (s : jsstring) :
  calculatePasswordStrength s =
    Z.min 100
      (points (8 ≤ length s)%nat 25 + points (12 ≤ length s)%nat 25
       + points (has_lowercase s ∧ has_uppercase s) 20
       + points (has_digit s) 15 + points (has_symbol s) 15)%Z.
Proof. apply strength_eq_spec. Qed.

Lemma calculatePasswordStrength_deterministic (s1 s2 : jsstring) :
  s1 = s2 → calculatePasswordStrength s1 = calculatePasswordStrength s2.
Proof. by intros ->. Qed.

Lemma calculatePasswordStrength_bounds (s : jsstring) :
  (0 ≤ calculatePasswordStrength s ≤ 100)%Z.
Proof.
  rewrite strength_eq_spec. unfold strength_spec, points.
  repeat case_decide; lia.
Qed.

(** The comparison quoted by the specification. *)
Example strength_abcdefgh_lt :
  (calculatePasswordStrength (lit "abcdefgh") < calculatePasswordStrength (lit "Abcdefg1!"))%Z.
Proof. vm_compute. done. Qed.

(** C6, as stated, fails: the password [abc] does not score 25. *)
Lemma strength_abc_not_25 : calculatePasswordStrength (lit "abc") ≠ 25%Z.
Proof. vm_compute. discriminate. Qed.

(** C6, amended.  The entry added in the signup scenario has the password
    [abc], whose score is 0: its length 3 is below the first length
    threshold of 8, and it has no uppercase letter, digit or symbol. *)
Theorem strength_abc_is_0 :
  calculatePasswordStrength (lit "abc") = 0%Z
  ∧ length (lit "abc") = 3%nat
  ∧ ¬ has_uppercase (lit "abc") ∧ ¬ has_digit (lit "abc") ∧ ¬ has_symbol (lit "abc").
Proof.
  split; [by vm_compute|]. split; [done|].
  rewrite <- test_upper, <- test_digit, <- test_symbol.
  repeat split; by vm_compute.
Qed.

End strength_facts.

(** ** Reuse detection *)

Section jsmap_facts.
Context {K V : Type} `{EqDecision K}.
Implicit Types (m : JSMap.t K V) (k : K) (v : V).

Lemma get_set m k k' v :
  JSMap.get k (JSMap.set k' v m) = if decide (k' = k) then Some v else JSMap.get k m.
Proof.
  induction m as [|[k0 v0] m IH]; simpl.
  - by repeat case_decide.
  - repeat (case_decide; simpl; simplify_eq); try done.
Qed.

Lemma set_keys m k v :
  (JSMap.set k v m).*1 = if decide (k ∈ m.*1) then m.*1 else m.*1 ++ [k].
Proof.
  induction m as [|[k0 v0] m IH]; csimpl.
  - done.
  - destruct (decide (k0 = k)) as [->|Hne]; csimpl.
    + rewrite decide_True; [done | apply elem_of_cons; by left].
    + rewrite IH. destruct (decide (k ∈ m.*1)) as [Hin|Hnin].
      * rewrite decide_True; [done | apply elem_of_cons; by right].
      * rewrite decide_False; [done|].
        rewrite elem_of_cons. intros [->|?]; done.
Qed.

Lemma set_keys_NoDup m k v : NoDup m.*1 → NoDup (JSMap.set k v m).*1.
Proof.
  intros Hnd. rewrite set_keys. case_decide; [done|].
  apply NoDup_app. split_and!; [done | | apply NoDup_singleton].
  intros x Hx ->%list_elem_of_singleton. done.
Qed.

Lemma get_elem_of m k v : NoDup m.*1 → (k, v) ∈ m → JSMap.get k m = Some v.
Proof.
  induction m as [|[k0 v0] m IH]; simpl; intros Hnd Hin.
  - by apply elem_of_nil in Hin.
  - apply NoDup_cons in Hnd as [Hk0 Hnd].
    apply elem_of_cons in Hin as [Heq|Hin]; simplify_eq.
    + by rewrite decide_True.
    + rewrite decide_False; [by apply IH|].
      intros ->. apply Hk0. apply list_elem_of_fmap. by exists (k, v).
Qed.

End jsmap_facts.

Section reuse_facts.
Import SecurityAnalyzer.
Implicit Types (m : JSMap.t jsstring (list PasswordEntry)) (l : list PasswordEntry).

Lemma group_of_group_entry m e k :
  group_of (group_entry m e) k
  = group_of m k ++ (if bool_decide (password e = k) then [e] else []).
Proof.
  unfold group_of, group_entry. rewrite get_set.
  case_decide; case_bool_decide; simplify_eq; simpl; [done|].
  by rewrite app_nil_r.
Qed.

Lemma group_of_fold l m k :
  group_of (fold_left group_entry l m) k = group_of m k ++ with_secret k l.
Proof.
  revert m. induction l as [|e l IH]; intros m; simpl.
  - by rewrite app_nil_r.
  - rewrite IH, group_of_group_entry, <- app_assoc. f_equal.
    by case_bool_decide.
Qed.

Lemma group_keys_NoDup l m : NoDup m.*1 → NoDup (fold_left group_entry l m).*1.
Proof.
  revert m. induction l as [|e l IH]; intros m Hnd; simpl; [done|].
  apply IH. by apply set_keys_NoDup.
Qed.

Lemma select_group_entry P m e :
  select P (group_entry m e) ≡ₚ select P m ++ (if P (password e) then [e] else []).
Proof.
  unfold group_entry.
  induction m as [|[k0 v0] m IH]; simpl.
  - by rewrite app_nil_r.
  - case_decide; simpl; subst.
    + destruct (P (password e)); simpl; [|by rewrite app_nil_r].
      rewrite <- !app_assoc. f_equiv. apply Permutation_app_comm.
    + rewrite IH. by rewrite app_assoc.
Qed.

Lemma select_fold P l m :
  select P (fold_left group_entry l m) ≡ₚ select P m ++ List.filter (λ e, P (password e)) l.
Proof.
  revert m. induction l as [|e l IH]; intros m; simpl.
  - by rewrite app_nil_r.
  - rewrite IH, select_group_entry, <- app_assoc. f_equiv.
    by destruct (P (password e)).
Qed.

Lemma forEach_collect m acc :
  JSMap.forEach collect_group m acc
  = acc ++ flat_map (λ kv, if (1 <? length kv.2)%nat then kv.2 else []) m.
Proof.
  unfold JSMap.forEach. revert acc.
  induction m as [|[k0 v0] m IH]; intros acc; simpl.
  - by rewrite app_nil_r.
  - rewrite IH. unfold collect_group. simpl.
    destruct (1 <? length v0)%nat; simpl; [by rewrite app_assoc | done].
Qed.

Lemma flat_map_agree {A B} (f g : A → list B) (xs : list A) :
  (∀ x, x ∈ xs → f x = g x) → flat_map f xs = flat_map g xs.
Proof.
  induction xs as [|x xs IH]; intros Hfg; simpl; [done|].
  rewrite Hfg by (apply elem_of_cons; by left).
  rewrite IH; [done|]. intros y Hy. apply Hfg, elem_of_cons. by right.
Qed.

Lemma findReusedPasswords_select l :
  findReusedPasswords l
  = select (λ k, (1 <? length (with_secret k l))%nat) (group_by_password l).
Proof.
  unfold findReusedPasswords. rewrite forEach_collect. simpl.
  unfold select. apply flat_map_agree.
  intros [k v] Hin. simpl.
  assert (v = with_secret k l) as ->; [|done].
  pose proof (group_of_fold l JSMap.empty k) as Hg.
  unfold group_of at 1 in Hg. fold (group_by_password l) in Hg.
  rewrite (get_elem_of _ k v) in Hg; [done| |done].
  apply group_keys_NoDup. constructor.
Qed.

(** The characterisation behind C8: the reported list holds exactly the
    entries whose password occurs more than once, each as often as it occurs
    in the input. *)
Lemma findReusedPasswords_perm l :
  findReusedPasswords l ≡ₚ List.filter (is_reused l) l.
Proof.
  rewrite findReusedPasswords_select. unfold group_by_password.
  rewrite select_fold. done.
Qed.

End reuse_facts.

Section analysis_facts.
Import SecurityAnalyzer.
Implicit Types (l : list PasswordEntry).


Lemma findReusedPasswords_length l :
  length (findReusedPasswords l) = length (List.filter (is_reused l) l).
Proof. by rewrite findReusedPasswords_perm. Qed.

Lemma filter_length_le {A} (f : A → bool) (xs : list A) :
  (length (List.filter f xs) ≤ length xs)%nat.
Proof. induction xs as [|x xs IH]; simpl; [done|]. destruct (f x); simpl; lia. Qed.

Lemma filter_all {A} (f : A → bool) (xs : list A) :
  Forall (λ x, f x = true) xs → List.filter f xs = xs.
Proof. induction 1 as [|x xs Hx _ IH]; simpl; [done|]. by rewrite Hx, IH. Qed.

Lemma num_nonneg n : (0 <= num n)%Q.
Proof. unfold num. rewrite <- (Zle_Qle 0). lia. Qed.

Lemma num_pos n : n ≠ 0%nat → (0 < num n)%Q.
Proof. intros Hn. unfold num. rewrite <- (Zlt_Qlt 0). lia. Qed.

Lemma num_le n m : (n ≤ m)%nat → (num n <= num m)%Q.
Proof. intros Hnm. unfold num. rewrite <- Zle_Qle. lia. Qed.

Lemma ratio_bounds (c t : nat) :
  (c ≤ t)%nat → t ≠ 0%nat → (0 <= num c / num t <= 1)%Q.
Proof.
  intros Hct Ht.
  pose proof (num_pos t Ht). pose proof (num_nonneg c). pose proof (num_le c t Hct).
  split.
  - apply Qle_shift_div_l; [done|]. lra.
  - apply Qle_shift_div_r; [done|]. lra.
Qed.






End analysis_facts.

(** ** Import *)

Section import_facts.
Import AppContext.

(** C10. [importData] never removes or modifies an existing entry: the
    password list after the import is the list before it, unchanged and in
    place, followed by exactly the imported entries whose id does not occur
    in the list before. *)
Theorem importData_preserves (state : AppState) (data : ImportData) :
  let imported := default [] (data_passwords data) in
  let appended :=
    List.filter (λ p, bool_decide (id p ∉ id <$> passwords state)) imported in
  passwords (importData state data) = passwords state ++ appended
  ∧ (∀ i e, passwords state !! i = Some e → passwords (importData state data) !! i = Some e)
  ∧ (∀ e, e ∈ appended ↔ e ∈ imported ∧ id e ∉ id <$> passwords state).
Proof.
  cbn zeta.
  assert (passwords (importData state data) = passwords state ++
      List.filter (λ p, bool_decide (id p ∉ id <$> passwords state))
        (default [] (data_passwords data))) as Heq.
  { unfold importData. destruct (data_passwords data) as [imported|]; simpl.
    - assert (∀ p : PasswordEntry,
        negb (bool_decide (id p ∈ (list_to_set (id <$> passwords state) : gset jsstring)))
        = bool_decide (id p ∉ id <$> passwords state)) as Hext.
      { intros p. rewrite <- bool_decide_not. apply bool_decide_ext.
        by rewrite elem_of_list_to_set. }
      destruct (data_settings data); simpl; f_equal; by apply filter_ext.
    - by rewrite app_nil_r. }
  split_and!.
  - done.
  - intros i e Hi. rewrite Heq. by apply lookup_app_l_Some.
  - intros e. rewrite !list_elem_of_In, filter_In, bool_decide_eq_true. by rewrite (list_elem_of_In (id <$> passwords state)).
Qed.

(** An import of two entries into a vault holding the entry 1: the imported
    entry 1 is skipped, although its secret differs, and entry 2 is appended. *)
Lemma importData_preserves_witness :
  let e1 := sample_entry (lit "1") (lit "abc") 0%Z false in
  let e1' := sample_entry (lit "1") (lit "changed") 5%Z true in
  let e2 := sample_entry (lit "2") (lit "xyz") 7%Z false in
  let state := set_passwords [e1] initialState in
  let data := {| data_passwords := Some [e1'; e2]; data_settings := None |} in
  passwords state !! 0%nat = Some e1
  ∧ passwords (importData state data) !! 0%nat = Some e1
  ∧ passwords (importData state data) = [e1; e2].
Proof.
  cbn zeta. split; [reflexivity|]. split.
  - apply (importData_preserves
             (set_passwords [sample_entry (lit "1") (lit "abc") 0%Z false] initialState)).
    reflexivity.
  - by vm_compute.
Defined.

End import_facts.

(** ** Bit operations as arithmetic *)

Section bit_facts.

Lemma land_low a n y : y < 2 ^ n → N.land (a * 2 ^ n) y = 0.
Proof.
  intros Hy. apply N.bits_inj_0. intros m. rewrite N.land_spec.
  destruct (decide (m < n)) as [Hm|Hm].
  - by rewrite N.mul_pow2_bits_low.
  - destruct (decide (y = 0)) as [->|Hy0]; [by rewrite N.bits_0, andb_false_r|].
    rewrite (N.bits_above_log2 y m), andb_false_r; [done|].
    assert (N.log2 y < n) by (apply N.log2_lt_pow2; lia). lia.
Qed.

Lemma lor_add a n y : y < 2 ^ n → N.lor (a * 2 ^ n) y = a * 2 ^ n + y.
Proof.
  intros Hy. rewrite <- N.lxor_lor by by apply land_low.
  symmetry. apply N.add_nocarry_lxor. by apply land_low.
Qed.

Lemma lor_shiftl a n y : y < 2 ^ n → N.lor (N.shiftl a n) y = a * 2 ^ n + y.
Proof. intros Hy. rewrite N.shiftl_mul_pow2. by apply lor_add. Qed.

Lemma land_mod a n : N.land a (N.ones n) = a mod 2 ^ n.
Proof. apply N.land_ones. Qed.

End bit_facts.

(** Rewrites shifts and masks by constants into multiplications, divisions
    and remainders, and closes the goal by linear arithmetic. *)
Ltac euclid := zify; Z.to_euclidean_division_equations; lia.

Ltac mask_to_mod :=
  repeat match goal with
  | |- context [N.land ?a 3] => change (N.land a 3) with (N.land a (N.ones 2))
  | |- context [N.land ?a 7] => change (N.land a 7) with (N.land a (N.ones 3))
  | |- context [N.land ?a 15] => change (N.land a 15) with (N.land a (N.ones 4))
  | |- context [N.land ?a 31] => change (N.land a 31) with (N.land a (N.ones 5))
  | |- context [N.land ?a 63] => change (N.land a 63) with (N.land a (N.ones 6))
  | |- context [N.land ?a 1023] => change (N.land a 1023) with (N.land a (N.ones 10))
  end;
  rewrite ?land_mod, ?N.shiftr_div_pow2.

(** ** Base64 *)

Section base64_facts.
Import Base64.

Lemma list_ind3 {A} (P : list A → Prop) :
  P [] → (∀ a, P [a]) → (∀ a b, P [a; b]) →
  (∀ a b c l, P l → P (a :: b :: c :: l)) → ∀ l, P l.
Proof.
  intros H0 H1 H2 H3.
  assert (∀ l, P l ∧ (∀ a, P (a :: l)) ∧ (∀ a b, P (a :: b :: l))) as Hall.
  { induction l as [|x l (IH0 & IH1 & IH2)]; [by split_and!|].
    split_and!; [done | done | intros a b; by apply H3]. }
  intros l. apply Hall.
Qed.

Lemma value_of_char_of v : v < 64 → value_of (char_of v) = Some v.
Proof.
  intros Hv. unfold value_of, char_of, in_range.
  repeat (case_match; try rewrite ?andb_true_iff, ?andb_false_iff in *;
          try rewrite ?N.ltb_lt, ?N.ltb_ge, ?N.leb_le, ?N.leb_gt, ?N.eqb_eq, ?N.eqb_neq in * );
    try (f_equal; lia); try lia.
Qed.

Lemma char_of_range v : 43 ≤ char_of v ≤ 122 ∧ char_of v ≠ pad_char.
Proof.
  unfold char_of, pad_char.
  repeat (case_match;
          try rewrite ?N.ltb_lt, ?N.ltb_ge, ?N.eqb_eq, ?N.eqb_neq in * ); lia.
Qed.

Lemma char_of_not_whitespace v : is_ascii_whitespace (char_of v) = false.
Proof.
  apply bool_decide_eq_false. pose proof (char_of_range v) as [[Hlo _] _].
  rewrite !elem_of_cons, elem_of_nil. lia.
Qed.

Lemma filter_whitespace_chars (vs : list N) :
  List.filter (λ c, negb (is_ascii_whitespace c)) (char_of <$> vs) = char_of <$> vs.
Proof.
  induction vs as [|v vs IH]; csimpl; [done|].
  by rewrite char_of_not_whitespace, IH.
Qed.

Lemma filter_whitespace_pad n :
  List.filter (λ c, negb (is_ascii_whitespace c)) (replicate n pad_char)
  = replicate n pad_char.
Proof. induction n as [|n IH]; simpl; [done|]. by rewrite IH. Qed.

Lemma mapM_value_of_chars (vs : list N) :
  Forall (λ v, v < 64) vs → mapM value_of (char_of <$> vs) = Some vs.
Proof.
  intros Hvs. apply mapM_Some. apply Forall2_fmap_l.
  induction Hvs as [|v vs Hv _ IH]; constructor; [by apply value_of_char_of | done].
Qed.

Lemma pad_length_step n : pad_length (3 + n) = pad_length n.
Proof.
  unfold pad_length. replace (3 + n)%nat with (n + 1 * 3)%nat by lia.
  by rewrite Nat.Div0.mod_add.
Qed.

(** The number of 6-bit values and of padding characters. *)
Lemma sextets_shape (bs : list N) :
  ((length (to_sextets bs) + pad_length (length bs)) mod 4 = 0)%nat
  ∧ (length (to_sextets bs) mod 4 ≠ 1)%nat
  ∧ (pad_length (length bs) ≤ 2)%nat
  ∧ (bs ≠ [] → to_sextets bs ≠ []).
Proof.
  induction bs as [| | |a b c l (IH1 & IH2 & IH3 & IH4)] using list_ind3;
    [split_and!; [reflexivity | cbv; lia | cbv; lia | try done; intros _; discriminate]..|].
  cbn [to_sextets length]. change (S (S (S (length l)))) with (3 + length l)%nat.
  rewrite pad_length_step. split_and!; [| |done|done].
  - replace (S (S (S (S (length (to_sextets l))))) + pad_length (length l))%nat
      with (length (to_sextets l) + pad_length (length l) + 1 * 4)%nat by lia.
    by rewrite Nat.Div0.mod_add.
  - replace (S (S (S (S (length (to_sextets l))))))
      with (length (to_sextets l) + 1 * 4)%nat by lia.
    by rewrite Nat.Div0.mod_add.
Qed.

Lemma strip_padding_encode (vs : list N) (n : nat) :
  (n ≤ 2)%nat →
  strip_padding ((char_of <$> vs) ++ replicate n pad_char) = char_of <$> vs.
Proof.
  intros Hn. unfold strip_padding.
  rewrite reverse_app, reverse_replicate.
  assert (match reverse (char_of <$> vs) with
          | c1 :: _ => c1 =? pad_char
          | [] => false
          end = false) as Hlast.
  { destruct (reverse (char_of <$> vs)) as [|c1 r1] eqn:Hrev; [done|].
    assert (c1 ∈ char_of <$> vs) as Hin.
    { rewrite <- elem_of_reverse, Hrev. apply elem_of_cons. by left. }
    apply list_elem_of_fmap in Hin as (v & -> & _).
    apply N.eqb_neq, char_of_range. }
  assert (reverse (reverse (char_of <$> vs)) = char_of <$> vs) as Hrr
    by apply reverse_involutive.
  destruct n as [|[|[|n]]]; [| | |lia]; simpl.
  - rewrite app_nil_r.
    destruct (reverse (char_of <$> vs)) as [|c1 r1]; [done|]. by rewrite Hlast.
  - destruct (reverse (char_of <$> vs)) as [|c1 r1]; [done|]. by rewrite Hlast.
  - done.
Qed.

Ltac lor_arith :=
  repeat match goal with
  | |- context [N.lor (N.shiftl ?x ?n) ?y] =>
      rewrite (lor_shiftl x n y) by (mask_to_mod; rewrite ?N.shiftl_mul_pow2; euclid)
  end.

Ltac bits := lor_arith; mask_to_mod; rewrite ?N.shiftl_mul_pow2; euclid.

Lemma to_sextets_range (bs : list N) :
  Forall (λ b, b < 256) bs → Forall (λ v, v < 64) (to_sextets bs).
Proof.
  induction bs as [| | |a b c l IH] using list_ind3; intros Hbs; cbn [to_sextets].
  - done.
  - apply Forall_cons in Hbs as [Ha _].
    repeat (apply Forall_cons; split; [bits|]). done.
  - apply Forall_cons in Hbs as [Ha [Hb _]%Forall_cons].
    repeat (apply Forall_cons; split; [bits|]). done.
  - apply Forall_cons in Hbs as [Ha [Hb [Hc Hl]%Forall_cons]%Forall_cons].
    repeat (apply Forall_cons; split; [bits|]). by apply IH.
Qed.

Lemma from_to_sextets (bs : list N) :
  Forall (λ b, b < 256) bs → from_sextets (to_sextets bs) = bs.
Proof.
  induction bs as [| | |a b c l IH] using list_ind3; intros Hbs;
    cbn [to_sextets from_sextets].
  - done.
  - apply Forall_cons in Hbs as [Ha _].
    f_equal. bits.
  - apply Forall_cons in Hbs as [Ha [Hb _]%Forall_cons].
    f_equal; [bits|]. f_equal. bits.
  - apply Forall_cons in Hbs as [Ha [Hb [Hc Hl]%Forall_cons]%Forall_cons].
    rewrite IH by done.
    f_equal; [bits|]. f_equal; [bits|]. f_equal. bits.
Qed.

(** [atob] undoes [btoa]. *)
Lemma atob_encode (bs : list N) :
  Forall (λ b, b < 256) bs → atob (encode bs) = Some bs.
Proof.
  intros Hbs. unfold atob, encode.
  pose proof (sextets_shape bs) as (Hlen & Hne1 & Hpad & Hnil).
  rewrite List.filter_app, filter_whitespace_chars, filter_whitespace_pad.
  rewrite length_app, length_fmap, length_replicate.
  rewrite Hlen. simpl (0 =? 0)%nat. cbv iota.
  rewrite strip_padding_encode by done.
  rewrite length_fmap.
  replace (length (to_sextets bs) mod 4 =? 1)%nat with false
    by (symmetry; by apply Nat.eqb_neq).
  rewrite mapM_value_of_chars by by apply to_sextets_range.
  simpl. by rewrite from_to_sextets.
Qed.

(** [atob] does not require the padding. *)
Lemma atob_unpadded (bs : list N) :
  Forall (λ b, b < 256) bs → atob (char_of <$> to_sextets bs) = Some bs.
Proof.
  intros Hbs. unfold atob.
  pose proof (sextets_shape bs) as (_ & Hne1 & _ & _).
  rewrite filter_whitespace_chars.
  assert ((if (length (char_of <$> to_sextets bs) mod 4 =? 0)%nat
           then strip_padding (char_of <$> to_sextets bs)
           else char_of <$> to_sextets bs) = char_of <$> to_sextets bs) as ->.
  { case_match; [|done].
    pose proof (strip_padding_encode (to_sextets bs) 0 ltac:(lia)) as Hstrip.
    simpl in Hstrip. by rewrite app_nil_r in Hstrip. }
  rewrite length_fmap.
  replace (length (to_sextets bs) mod 4 =? 1)%nat with false
    by (symmetry; by apply Nat.eqb_neq).
  rewrite mapM_value_of_chars by by apply to_sextets_range.
  simpl. by rewrite from_to_sextets.
Qed.

Lemma encode_without_padding (bs : list N) :
  List.filter (λ c, negb (c =? pad_char)) (encode bs) = char_of <$> to_sextets bs.
Proof.
  unfold encode. rewrite List.filter_app.
  assert (List.filter (λ c, negb (c =? pad_char))
            (replicate (pad_length (length bs)) pad_char) = []) as ->.
  { induction (pad_length (length bs)) as [|n IH]; [done|]. simpl. exact IH. }
  rewrite app_nil_r.
  induction (to_sextets bs) as [|v vs IH]; csimpl; [done|].
  rewrite (proj2 (N.eqb_neq _ _)) by apply char_of_range. simpl. by rewrite IH.
Qed.

Lemma btoa_atob (s : jsstring) :
  Forall (λ c, c < 256) s → ∃ blob, btoa s = Some blob ∧ atob blob = Some s.
Proof.
  intros Hs. exists (encode s). split; [|by apply atob_encode].
  unfold btoa. replace (forallb (λ c, c <? 256) s) with true; [done|].
  symmetry. apply forallb_forall. intros c Hc%list_elem_of_In.
  apply N.ltb_lt. by eapply Forall_forall in Hs.
Qed.

End base64_facts.

(** ** UTF-8 *)

Section encoding_facts.
Import Encoding.

Lemma to_N_byte_of_N n : n < 256 → Byte.to_N (byte_of_N n) = n.
Proof.
  intros Hn. unfold byte_of_N. rewrite N.mod_small by done.
  pose proof (Byte.to_of_N_option_map n) as Hopt.
  replace (n <=? 255) with true in Hopt by (symmetry; apply N.leb_le; lia).
  destruct (Byte.of_N n) as [b|]; simpl in *; [congruence | done].
Qed.

Lemma byte_of_N_to_N b : byte_of_N (Byte.to_N b) = b.
Proof.
  unfold byte_of_N. pose proof (Byte.to_N_bounded b).
  rewrite N.mod_small by lia. by rewrite Byte.of_to_N.
Qed.

Lemma to_N_byte_of_N_list (ns : list N) :
  Forall (λ n, n < 256) ns → Byte.to_N <$> (byte_of_N <$> ns) = ns.
Proof.
  induction 1 as [|n ns Hn _ IH]; csimpl; [done|].
  by rewrite to_N_byte_of_N, IH.
Qed.

Lemma byte_of_N_to_N_list (bs : list byte) : byte_of_N <$> (Byte.to_N <$> bs) = bs.
Proof. induction bs as [|b bs IH]; csimpl; [done|]. by rewrite byte_of_N_to_N, IH. Qed.

Lemma to_N_list_bounded (bs : list byte) : Forall (λ n, n < 256) (Byte.to_N <$> bs).
Proof.
  apply Forall_fmap, Forall_forall. intros b _. simpl.
  pose proof (Byte.to_N_bounded b). lia.
Qed.

Lemma lor_128 y : y < 128 → N.lor 128 y = 128 + y.
Proof. intros Hy. change 128 with (1 * 2 ^ 7). by apply lor_add. Qed.

Lemma continuation_arith x : continuation x = 128 + x mod 64.
Proof.
  unfold continuation. change 0x3F with (N.ones 6). rewrite land_mod.
  apply lor_128. euclid.
Qed.

Lemma lead_1 b : b ≤ 0x7F → lead b = ([b], decoder0).
Proof. intros Hb. unfold lead. by rewrite (proj2 (N.leb_le _ _) Hb). Qed.

Lemma lead_2 b :
  0xC2 ≤ b ≤ 0xDF → lead b = ([], expect 1 (b mod 32) 0x80 0xBF).
Proof.
  intros Hb. unfold lead, in_range.
  rewrite (proj2 (N.leb_gt _ _)) by lia.
  rewrite !(proj2 (N.leb_le _ _)) by lia. simpl.
  change 0x1F with (N.ones 5). by rewrite land_mod.
Qed.

Lemma lead_3 b :
  0xE0 ≤ b ≤ 0xEF →
  lead b = ([], expect 2 (b mod 16) (if b =? 0xE0 then 0xA0 else 0x80)
                         (if b =? 0xED then 0x9F else 0xBF)).
Proof.
  intros Hb. unfold lead, in_range.
  rewrite (proj2 (N.leb_gt b 0x7F)) by lia.
  rewrite (proj2 (N.leb_gt b 0xDF)) by lia. rewrite andb_false_r.
  rewrite !(proj2 (N.leb_le _ _)) by lia. simpl.
  change 0xF with (N.ones 4). by rewrite land_mod.
Qed.

Lemma lead_4 b :
  0xF0 ≤ b ≤ 0xF4 →
  lead b = ([], expect 3 (b mod 8) (if b =? 0xF0 then 0x90 else 0x80)
                         (if b =? 0xF4 then 0x8F else 0xBF)).
Proof.
  intros Hb. unfold lead, in_range.
  rewrite (proj2 (N.leb_gt b 0x7F)) by lia.
  rewrite (proj2 (N.leb_gt b 0xDF)) by lia. rewrite andb_false_r.
  rewrite (proj2 (N.leb_gt b 0xEF)) by lia. rewrite andb_false_r.
  rewrite !(proj2 (N.leb_le _ _)) by lia. simpl.
  change 0x7 with (N.ones 3). by rewrite land_mod.
Qed.

(** A continuation byte within the expected range. *)
Lemma handler_continue n seen cp lo hi x :
  n ≠ 0 → lo ≤ 128 + x mod 64 ≤ hi →
  handler {| code_point := cp; bytes_seen := seen; bytes_needed := n;
             lower_boundary := lo; upper_boundary := hi |} (128 + x mod 64)
  = if seen + 1 =? n then ([cp * 64 + x mod 64], decoder0)
    else ([], {| code_point := cp * 64 + x mod 64; bytes_seen := seen + 1;
                 bytes_needed := n; lower_boundary := 0x80; upper_boundary := 0xBF |}).
Proof.
  intros Hn [Hlo Hhi]. unfold handler, in_range. cbn [bytes_needed lower_boundary
    upper_boundary code_point bytes_seen].
  rewrite (proj2 (N.eqb_neq _ _) Hn).
  rewrite !(proj2 (N.leb_le _ _)) by done. cbn [andb negb].
  assert (N.lor (N.shiftl cp 6) (N.land (128 + x mod 64) 63) = cp * 64 + x mod 64) as ->;
    [|done].
  change 63 with (N.ones 6). rewrite land_mod.
  rewrite lor_shiftl by euclid. euclid.
Qed.

Lemma run_cons d b bs :
  run d (b :: bs) = (handler d b).1 ++ run (handler d b).2 bs.
Proof. simpl. by destruct (handler d b). Qed.

Lemma handler_lead b : handler decoder0 b = lead b.
Proof. done. Qed.

(** Decoding the bytes of one scalar value yields that value and leaves the
    decoder in its initial state. *)
Lemma run_utf8_bytes cp rest :
  is_scalar cp → run decoder0 (utf8_bytes cp ++ rest) = cp :: run decoder0 rest.
Proof.
  intros Hcp. unfold is_scalar in Hcp. unfold utf8_bytes.
  destruct (N.leb_spec cp 0x7F) as [H1|H1];
    [|destruct (N.leb_spec cp 0x7FF) as [H2|H2];
      [|destruct (N.leb_spec cp 0xFFFF) as [H3|H3]]];
    rewrite ?continuation_arith, ?N.shiftr_div_pow2; cbn [app].
  - rewrite run_cons, handler_lead, lead_1 by done. done.
  - rewrite run_cons, handler_lead, lead_2 by euclid. cbn [fst snd app]. unfold expect.
    rewrite run_cons, handler_continue by (done || euclid).
    change (0 + 1 =? 1) with true. cbn [fst snd app]. f_equal. euclid.
  - rewrite run_cons, handler_lead, lead_3 by euclid. cbn [fst snd app]. unfold expect.
    rewrite run_cons, handler_continue; [|done|].
    + change (0 + 1 =? 2) with false. cbn [fst snd app].
      rewrite run_cons, handler_continue by (done || euclid).
      change (0 + 1 + 1 =? 2) with true. cbn [fst snd app]. f_equal. euclid.
    + destruct (N.eqb_spec (cp / 2 ^ 12 + 224) 224);
        destruct (N.eqb_spec (cp / 2 ^ 12 + 224) 237); euclid.
  - rewrite run_cons, handler_lead, lead_4 by euclid. cbn [fst snd app]. unfold expect.
    rewrite run_cons, handler_continue; [|done|].
    + change (0 + 1 =? 3) with false. cbn [fst snd app].
      rewrite run_cons, handler_continue by (done || euclid).
      change (0 + 1 + 1 =? 3) with false. cbn [fst snd app].
      rewrite run_cons, handler_continue by (done || euclid).
      change (0 + 1 + 1 + 1 =? 3) with true. cbn [fst snd app]. f_equal. euclid.
    + destruct (N.eqb_spec (cp / 2 ^ 18 + 240) 240);
        destruct (N.eqb_spec (cp / 2 ^ 18 + 240) 244); euclid.
Qed.

Lemma run_encode_scalars (cps : list N) :
  Forall is_scalar cps → run decoder0 (flat_map utf8_bytes cps) = cps.
Proof.
  induction 1 as [|cp cps Hcp _ IH]; simpl; [done|].
  by rewrite run_utf8_bytes, IH.
Qed.

Lemma utf8_bytes_bounded cp : cp < 0x110000 → Forall (λ b, b < 256) (utf8_bytes cp).
Proof.
  intros Hcp. unfold utf8_bytes.
  repeat case_match; rewrite ?continuation_arith, ?N.shiftr_div_pow2;
    repeat (apply Forall_cons; split; [rewrite ?N.leb_le, ?N.leb_gt in *; euclid|]);
    done.
Qed.

Lemma surrogates_disjoint c :
  is_high_surrogate c = true → is_low_surrogate c = false.
Proof.
  unfold is_high_surrogate, is_low_surrogate, in_range.
  rewrite andb_true_iff, andb_false_iff, !N.leb_le, !N.leb_gt. lia.
Qed.

Lemma pair_value c d :
  is_high_surrogate c = true → is_low_surrogate d = true →
  let cp := 0x10000 + N.shiftl (c - 0xD800) 10 + (d - 0xDC00) in
  is_scalar cp ∧ utf16_units cp = [c; d] ∧ cp ≠ byte_order_mark.
Proof.
  unfold is_high_surrogate, is_low_surrogate, in_range, is_scalar, utf16_units,
    byte_order_mark.
  rewrite !andb_true_iff, !N.leb_le. intros [Hc1 Hc2] [Hd1 Hd2]. cbn zeta.
  rewrite N.shiftl_mul_pow2.
  split_and!; [euclid| |euclid].
  rewrite (proj2 (N.leb_gt _ _)) by euclid.
  change 0x3FF with (N.ones 10). rewrite land_mod, N.shiftr_div_pow2.
  f_equal; [euclid|]. f_equal. euclid.
Qed.

Lemma single_value c :
  is_high_surrogate c = false → is_low_surrogate c = false → c < 0x10000 →
  is_scalar c ∧ utf16_units c = [c].
Proof.
  unfold is_high_surrogate, is_low_surrogate, in_range, is_scalar, utf16_units.
  rewrite !andb_false_iff, !N.leb_gt. intros Hh Hl Hc.
  split; [lia|]. by rewrite (proj2 (N.leb_le _ _)) by lia.
Qed.

(** A well-formed string is the UTF-16 form of its scalar values. *)
Lemma well_formed_scalars (s : jsstring) :
  isWellFormed s = true →
  flat_map utf16_units (to_scalar_values s) = s ∧ Forall is_scalar (to_scalar_values s).
Proof.
  remember (length s) as n eqn:Hn. revert s Hn.
  induction n as [n IH] using lt_wf_ind. intros s Hn Hwf.
  destruct s as [|c t]; [done|]. cbn [isWellFormed to_scalar_values] in *.
  destruct (is_high_surrogate c) eqn:Hhigh.
  - destruct t as [|d t']; [done|].
    apply andb_true_iff in Hwf as [Hlow Hwf]. rewrite Hlow.
    destruct (pair_value c d Hhigh Hlow) as (Hsc & Hunits & _).
    destruct (IH (length t') ltac:(simpl in Hn; lia) t' eq_refl Hwf) as [IH1 IH2].
    split; [|by constructor].
    cbn [flat_map]. rewrite Hunits, IH1. done.
  - apply andb_true_iff in Hwf as [[Hlow Hc]%andb_true_iff Hwf].
    apply negb_true_iff in Hlow. apply N.ltb_lt in Hc. rewrite Hlow.
    destruct (single_value c Hhigh Hlow Hc) as [Hsc Hunits].
    destruct (IH (length t) ltac:(simpl in Hn; lia) t eq_refl Hwf) as [IH1 IH2].
    split; [|by constructor].
    cbn [flat_map]. rewrite Hunits, IH1. done.
Qed.

(** Only a string that begins with U+FEFF has scalar values that begin with
    it. *)
Lemma strip_bom_scalars (s : jsstring) :
  head s ≠ Some byte_order_mark →
  strip_bom (to_scalar_values s) = to_scalar_values s.
Proof.
  destruct s as [|c t]; [done|]. cbn [head to_scalar_values]. intros Hc.
  assert ((replacement_char =? byte_order_mark) = false) as Hrep by done.
  destruct (is_high_surrogate c) eqn:Hhigh.
  - destruct t as [|d t']; [by cbn [strip_bom]; rewrite Hrep|].
    destruct (is_low_surrogate d) eqn:Hlow; [|by cbn [strip_bom]; rewrite Hrep].
    destruct (pair_value c d Hhigh Hlow) as (_ & _ & Hne).
    cbn [strip_bom]. by rewrite (proj2 (N.eqb_neq _ _) Hne).
  - destruct (is_low_surrogate c); [by cbn [strip_bom]; rewrite Hrep|].
    cbn [strip_bom]. rewrite (proj2 (N.eqb_neq _ _)); [done|]. congruence.
Qed.

Lemma utf8_encode_bounded (s : jsstring) :
  isWellFormed s = true → Forall (λ b, b < 256) (utf8_encode s).
Proof.
  intros [_ Hsc]%well_formed_scalars. unfold utf8_encode.
  induction Hsc as [|cp cps Hcp _ IH]; simpl; [done|].
  apply Forall_app. split; [|done].
  apply utf8_bytes_bounded. unfold is_scalar in Hcp. lia.
Qed.

Lemma utf8_decode_encode (s : jsstring) :
  isWellFormed s = true → head s ≠ Some byte_order_mark →
  utf8_decode (utf8_encode s) = s.
Proof.
  intros Hwf Hbom. destruct (well_formed_scalars s Hwf) as [Hback Hsc].
  unfold utf8_decode, utf8_encode.
  by rewrite run_encode_scalars, strip_bom_scalars.
Qed.

(** The text round trip of the platform: it holds for the well-formed
    strings that do not begin with a byte order mark. *)
Lemma TextDecoder_TextEncoder (s : jsstring) :
  isWellFormed s = true → head s ≠ Some byte_order_mark →
  TextDecoder_decode (TextEncoder_encode s) = s.
Proof.
  intros Hwf Hbom. unfold TextDecoder_decode, TextEncoder_encode.
  rewrite to_N_byte_of_N_list by by apply utf8_encode_bounded.
  by apply utf8_decode_encode.
Qed.

(** The decoder drops a leading byte order mark. *)
Example TextDecoder_drops_bom :
  TextDecoder_decode (TextEncoder_encode (byte_order_mark :: lit "abc")) = lit "abc".
Proof. by vm_compute. Qed.

(** The encoder replaces an unpaired surrogate. *)
Example TextEncoder_replaces_surrogate :
  TextDecoder_decode (TextEncoder_encode [0xD800]) = [replacement_char].
Proof. by vm_compute. Qed.

End encoding_facts.

(** ** Vault encryption *)

Section crypto_facts.
Context `{Env}.
Import Encoding Base64 JSString Runtime CryptoManager.

Lemma result_bind_Ok {A B} (a : A) (k : A → result B) : (Ok a ≫= k) = k a.
Proof. done. Qed.

Lemma result_bind_Throw {A B} (e : JSError) (k : A → result B) :
  (Throw e ≫= k) = Throw e.
Proof. done. Qed.

Lemma M_bind_eq {A B} (c : M A) (k : A → M B) (w : World) :
  (c ≫= k) w = match c w with
               | (Ok a, w') => k a w'
               | (Throw e, w') => (Throw e, w')
               end.
Proof. done. Qed.

Lemma next_random_length n w : length (next_random n w) = n.
Proof. unfold next_random. by rewrite length_fmap, length_seq. Qed.

Lemma fromCharCode_bounded (bs : list byte) : Forall (λ c, c < 256) (fromCharCode bs).
Proof. apply to_N_list_bounded. Qed.

Lemma btoa_fromCharCode (bs : list byte) :
  btoa (fromCharCode bs) = Some (encode (fromCharCode bs)).
Proof.
  unfold btoa. replace (forallb (λ c, c <? 256) (fromCharCode bs)) with true; [done|].
  symmetry. apply forallb_forall. intros c Hc%list_elem_of_In.
  apply N.ltb_lt. pose proof (fromCharCode_bounded bs) as Hall.
  by eapply Forall_forall in Hall.
Qed.

Lemma char_codes_fromCharCode (bs : list byte) :
  char_codes_to_bytes (fromCharCode bs) = bs.
Proof. apply byte_of_N_to_N_list. Qed.

(** The header and the body are recovered from the concatenation. *)
Lemma slices_of_combined (salt iv ct : list byte) :
  length salt = SALT_LENGTH → length iv = IV_LENGTH →
  slice 0 SALT_LENGTH (salt ++ iv ++ ct) = salt
  ∧ slice SALT_LENGTH (SALT_LENGTH + IV_LENGTH) (salt ++ iv ++ ct) = iv
  ∧ drop (SALT_LENGTH + IV_LENGTH) (salt ++ iv ++ ct) = ct.
Proof.
  intros Hs Hi. unfold slice. split_and!.
  - rewrite drop_0, Nat.sub_0_r, <- Hs. by rewrite take_app_length.
  - rewrite <- Hs at 3. rewrite drop_app_length.
    replace (SALT_LENGTH + IV_LENGTH - SALT_LENGTH)%nat with (length iv) by lia.
    by rewrite take_app_length.
  - rewrite <- Hs, <- Hi, <- drop_drop, drop_app_length. by rewrite drop_app_length.
Qed.

(** What [decrypt] does with a blob depends on the decoded bytes only. *)
Lemma decrypt_atob (blob blob' password : jsstring) :
  atob blob' = atob blob → decrypt blob' password = decrypt blob password.
Proof. intros Heq. unfold decrypt. by rewrite Heq. Qed.

(** [decrypt] on a blob that [atob] accepts. *)
Lemma decrypt_decoded (blob chars password : jsstring) :
  atob blob = Some chars →
  decrypt blob password =
    Platform.try_catch
      (let combined := char_codes_to_bytes chars in
       key ← deriveKey password (slice 0 SALT_LENGTH combined);
       decryptedBuffer ←
         subtle_decrypt
           {| gcm_iv := slice SALT_LENGTH (SALT_LENGTH + IV_LENGTH) combined;
              gcm_tagLength := 128 |}
           key (drop (SALT_LENGTH + IV_LENGTH) combined);
       Ok (TextDecoder_decode decryptedBuffer))
      (λ _, Throw (Error "Invalid password or corrupted data")).
Proof. intros Hatob. unfold decrypt. by rewrite Hatob. Qed.

Context `{!EnvLaws}.

(** The run of [encrypt] and of [decrypt] on its result, for any text: the
    bytes of the blob are the 48 of the header, those of the text and the 16
    of the tag, and the call fails when they are more than the arguments of
    one call. *)
Lemma encrypt_then_decrypt (data password : jsstring) (w : World) :
  let salt := next_random SALT_LENGTH w in
  let iv := next_random IV_LENGTH (set_random_drawn (random_drawn w + SALT_LENGTH) w) in
  ∃ km key ct,
    subtle_importKey (TextEncoder_encode password) = Ok km
    ∧ subtle_deriveKey
        {| pbkdf2_salt := salt; pbkdf2_iterations := 210000; pbkdf2_hash := SHA_256 |}
        km {| aes_length := 256 |} = Ok key
    ∧ subtle_encrypt {| gcm_iv := iv; gcm_tagLength := 128 |} key
        (TextEncoder_encode data) = Ok ct
    ∧ encrypt data password w
      = (if N.of_nat (length (TextEncoder_encode data)) + 64 <=? max_arguments
         then Ok (encode (fromCharCode (salt ++ iv ++ ct)))
         else Throw (Error "Encryption failed"),
         set_random_drawn (random_drawn w + SALT_LENGTH + IV_LENGTH) w)
    ∧ decrypt (encode (fromCharCode (salt ++ iv ++ ct))) password
      = Ok (TextDecoder_decode (TextEncoder_encode data)).
Proof.
  cbn zeta.
  set (salt := next_random SALT_LENGTH w).
  set (iv := next_random IV_LENGTH (set_random_drawn (random_drawn w + SALT_LENGTH) w)).
  destruct (importKey_ok (TextEncoder_encode password)) as [km Hkm].
  destruct (deriveKey_ok
    {| pbkdf2_salt := salt; pbkdf2_iterations := 210000; pbkdf2_hash := SHA_256 |}
    km {| aes_length := 256 |}) as [key Hkey]; [done..|].
  destruct (encrypt_ok iv key (TextEncoder_encode data)) as [ct Hct];
    [apply next_random_length|].
  assert (deriveKey password salt = Ok key) as Hderive.
  { unfold deriveKey. rewrite Hkm, result_bind_Ok. exact Hkey. }
  exists km, key, ct. split_and!; [done..| |].
  - unfold encrypt, Runtime.try_catch. rewrite !M_bind_eq. cbn [getRandomValues].
    rewrite M_bind_eq. cbn [getRandomValues lift]. fold salt. fold iv.
    unfold seal. rewrite Hderive, result_bind_Ok, Hct, result_bind_Ok.
    unfold spread. rewrite !length_app, (encrypt_length _ _ _ _ Hct).
    unfold salt, iv. rewrite !next_random_length.
    replace (N.of_nat (SALT_LENGTH + (IV_LENGTH + (length (TextEncoder_encode data) + 16))))
      with (N.of_nat (length (TextEncoder_encode data)) + 64)
      by (unfold SALT_LENGTH, IV_LENGTH; lia).
    destruct (_ <=? max_arguments).
    + rewrite result_bind_Ok, btoa_fromCharCode. cbn [or_throw]. cbn. f_equal.
    + cbn. f_equal.
  - erewrite decrypt_decoded; [|apply atob_encode, fromCharCode_bounded].
    cbn zeta. rewrite char_codes_fromCharCode.
    destruct (slices_of_combined salt iv ct) as (-> & -> & ->);
      [apply next_random_length..|].
    rewrite Hderive, result_bind_Ok.
    rewrite (decrypt_encrypt _ _ _ _ Hct), result_bind_Ok. done.
Qed.

(** A blob that [encrypt] returns decrypts to the text as the decoder reads
    its UTF-8 bytes. *)
Lemma decrypt_of_encrypt (data password blob : jsstring) (w w' : World) :
  encrypt data password w = (Ok blob, w') →
  decrypt blob password = Ok (TextDecoder_decode (TextEncoder_encode data)).
Proof.
  destruct (encrypt_then_decrypt data password w)
    as (km & key & ct & _ & _ & _ & -> & Hdec).
  destruct (_ <=? max_arguments); [|done]. intros Heq.
  rewrite <- Hdec. f_equal. congruence.
Qed.


(** A plaintext that begins with U+FEFF comes back without it. *)
Lemma encrypt_decrypt_drops_bom (s k blob : jsstring) (w w' : World) :
  isWellFormed s = true →
  encrypt (byte_order_mark :: s) k w = (Ok blob, w') → decrypt blob k = Ok s.
Proof.
  intros Hwf Henc. rewrite (decrypt_of_encrypt _ _ _ _ _ Henc). f_equal.
  assert (isWellFormed (byte_order_mark :: s) = true) as Hwf' by done.
  destruct (well_formed_scalars _ Hwf') as [_ Hsc].
  destruct (well_formed_scalars _ Hwf) as [Hback _].
  unfold TextDecoder_decode, TextEncoder_encode.
  rewrite to_N_byte_of_N_list by by apply utf8_encode_bounded.
  unfold utf8_decode, utf8_encode. rewrite run_encode_scalars by done.
  done.
Qed.

(** Whatever the environment, a blob stripped of its padding characters
    decrypts like the blob itself. *)
Lemma decrypt_accepts_unpadded (data password blob : jsstring) (w w' : World) :
  encrypt data password w = (Ok blob, w') →
  decrypt (List.filter (λ c, negb (c =? pad_char)) blob) password
  = decrypt blob password.
Proof.
  destruct (encrypt_then_decrypt data password w)
    as (km & key & ct & _ & _ & _ & -> & _).
  destruct (_ <=? max_arguments); [|done]. intros Heq.
  assert (blob = encode (fromCharCode
            (next_random SALT_LENGTH w
             ++ next_random IV_LENGTH (set_random_drawn (random_drawn w + SALT_LENGTH) w)
             ++ ct))) as -> by congruence.
  apply decrypt_atob. rewrite encode_without_padding.
  rewrite atob_unpadded, atob_encode by apply fromCharCode_bounded. done.
Qed.

(** C3. Every blob produced by [encrypt] is the Base64 text of salt, nonce
    and the output of AES-GCM, in this order: the salt is the 32 bytes and
    the nonce the next 16 bytes drawn from the random generator by this very
    call, and the key is derived from the passphrase and that salt by PBKDF2
    with SHA-256 and 210000 iterations, as a 256-bit AES-GCM key.  A blob is
    produced whenever its bytes are no more than the arguments of one
    call. *)
Theorem encrypt_blob_format (data password : jsstring) (w : World) :
  (N.of_nat (length (TextEncoder_encode data)) + 64 ≤ max_arguments →
   ∃ blob w', encrypt data password w = (Ok blob, w'))
  ∧ ∀ blob w',
      encrypt data password w = (Ok blob, w') →
      ∃ salt iv km key ct,
        salt = next_random 32 w
        ∧ iv = next_random 16 (set_random_drawn (random_drawn w + 32) w)
        ∧ random_drawn w' = (random_drawn w + 48)%nat
        ∧ length salt = 32%nat ∧ length iv = 16%nat
        ∧ subtle_importKey (TextEncoder_encode password) = Ok km
        ∧ subtle_deriveKey
            {| pbkdf2_salt := salt; pbkdf2_iterations := PBKDF2_ITERATIONS;
               pbkdf2_hash := SHA_256 |}
            km {| aes_length := KEY_LENGTH * 8 |} = Ok key
        ∧ 210000 ≤ PBKDF2_ITERATIONS ∧ KEY_LENGTH * 8 = 256
        ∧ subtle_encrypt {| gcm_iv := iv; gcm_tagLength := 128 |} key
            (TextEncoder_encode data) = Ok ct
        ∧ blob = encode (fromCharCode (salt ++ iv ++ ct))
        ∧ atob blob = Some (fromCharCode (salt ++ iv ++ ct))
        ∧ take 32 (char_codes_to_bytes (fromCharCode (salt ++ iv ++ ct))) = salt
        ∧ take 16 (drop 32 (char_codes_to_bytes (fromCharCode (salt ++ iv ++ ct)))) = iv
        ∧ drop 48 (char_codes_to_bytes (fromCharCode (salt ++ iv ++ ct))) = ct.
Proof.
  destruct (encrypt_then_decrypt data password w)
    as (km & key & ct & Hkm & Hkey & Hct & Henc & _).
  set (salt := next_random SALT_LENGTH w) in *.
  set (iv := next_random IV_LENGTH (set_random_drawn (random_drawn w + SALT_LENGTH) w)) in *.
  split.
  { intros Hfit%N.leb_le. rewrite Hfit in Henc. by eexists _, _. }
  intros blob w'. rewrite Henc. destruct (_ <=? max_arguments); [|done].
  intros Heq.
  assert (blob = encode (fromCharCode (salt ++ iv ++ ct))) as -> by congruence.
  assert (w' = set_random_drawn (random_drawn w + SALT_LENGTH + IV_LENGTH) w) as ->
    by congruence.
  destruct (slices_of_combined salt iv ct) as (Hs1 & Hs2 & Hs3);
    [apply next_random_length..|].
  exists salt, iv, km, key, ct.
  rewrite char_codes_fromCharCode.
  split_and!;
    first [ done
          | apply next_random_length
          | apply atob_encode, fromCharCode_bounded
          | exact Hs1 | exact Hs2 | exact Hs3
          | cbn; unfold SALT_LENGTH, IV_LENGTH; lia ].
Qed.

(** C2, amended.  [decrypt] has two outcomes only: the decoded plaintext, or
    the one error [Invalid password or corrupted data].  It fails with that
    error when the blob is not Base64 text, when the blob decodes to fewer
    than 64 bytes (48 of header and 16 of tag), and when AES-GCM rejects the
    bytes after the header under the key derived from the passphrase and
    the salt in the header, with the nonce in the header.  A plaintext is
    returned only if AES-GCM accepted it.  Two blobs that [atob] decodes to
    the same bytes are treated alike. *)
Theorem decrypt_fails_closed (blob password : jsstring) :
  let failure : result jsstring := Throw (Error "Invalid password or corrupted data") in
  let header_salt chars := slice 0 32 (char_codes_to_bytes chars) in
  let header_iv chars := slice 32 48 (char_codes_to_bytes chars) in
  let body chars := drop 48 (char_codes_to_bytes chars) in
  (atob blob = None → decrypt blob password = failure)
  ∧ (∀ chars, atob blob = Some chars → (length chars < 64)%nat →
       decrypt blob password = failure)
  ∧ (∀ chars key e, atob blob = Some chars →
       deriveKey password (header_salt chars) = Ok key →
       subtle_decrypt {| gcm_iv := header_iv chars; gcm_tagLength := 128 |} key (body chars)
         = Throw e →
       decrypt blob password = failure)
  ∧ (∀ s, decrypt blob password = Ok s →
       ∃ chars key pt, atob blob = Some chars
         ∧ deriveKey password (header_salt chars) = Ok key
         ∧ subtle_decrypt {| gcm_iv := header_iv chars; gcm_tagLength := 128 |} key
             (body chars) = Ok pt
         ∧ s = TextDecoder_decode pt)
  ∧ (decrypt blob password = failure ∨ ∃ s, decrypt blob password = Ok s)
  ∧ (∀ blob', atob blob' = atob blob → decrypt blob' password = decrypt blob password).
Proof.
  cbn zeta. split_and!.
  - intros Hatob. unfold decrypt. by rewrite Hatob.
  - intros chars Hatob Hlen. rewrite (decrypt_decoded _ _ _ Hatob). cbn zeta.
    destruct (deriveKey password _) as [key|e]; [|done].
    rewrite result_bind_Ok.
    edestruct (decrypt_short
      (slice SALT_LENGTH (SALT_LENGTH + IV_LENGTH) (char_codes_to_bytes chars)) key
      (drop (SALT_LENGTH + IV_LENGTH) (char_codes_to_bytes chars))) as [e He].
    { rewrite length_drop. unfold char_codes_to_bytes. rewrite length_fmap.
      unfold SALT_LENGTH, IV_LENGTH. lia. }
    by rewrite He.
  - intros chars key e Hatob Hkey Hdec. rewrite (decrypt_decoded _ _ _ Hatob).
    cbn zeta. unfold SALT_LENGTH, IV_LENGTH. cbn [Nat.add].
    by rewrite Hkey, result_bind_Ok, Hdec.
  - intros s. unfold decrypt.
    destruct (atob blob) as [chars|]; [|done]. cbn [or_throw]. rewrite result_bind_Ok.
    cbn zeta. unfold SALT_LENGTH, IV_LENGTH. cbn [Nat.add].
    destruct (deriveKey password _) as [key|e] eqn:Hkey; [|done].
    rewrite result_bind_Ok.
    destruct (subtle_decrypt _ key _) as [pt|e] eqn:Hpt; [|done].
    rewrite result_bind_Ok. cbn. intros [= <-]. by exists chars, key, pt.
  - unfold decrypt. destruct (_ ≫= _) as [s|e]; cbn; [right; by exists s | by left].
  - intros blob'. apply decrypt_atob.
Qed.

End crypto_facts.

(** The sample environment satisfies the contract. *)
Section sample_facts.
Import Encoding Base64 JSString Runtime CryptoManager.

Lemma sample_tag_length iv key data : length (sample_tag iv key data) = 16%nat.
Proof. unfold sample_tag. by rewrite length_fmap, length_seq. Qed.

Global Instance sample_laws : @EnvLaws sample_env.
Proof.
  split.
  - intros data. by eexists.
  - intros p km a _ _. by eexists.
  - intros iv key data _. by eexists.
  - intros iv key data ct [= <-]. by rewrite length_app, sample_tag_length.
  - intros p key data ct [= <-]. cbn [subtle_decrypt sample_env]. unfold sample_decrypt.
    rewrite length_app, sample_tag_length.
    replace (length data + 16 <? 16)%nat with false
      by (symmetry; apply Nat.ltb_ge; lia).
    replace (length data + 16 - 16)%nat with (length data) by lia.
    rewrite drop_app_length, take_app_length. by rewrite decide_True.
  - intros iv key ct Hlen. cbn [subtle_decrypt sample_env]. unfold sample_decrypt.
    replace (length ct <? 16)%nat with true by (symmetry; by apply Nat.ltb_lt).
    by eexists.
  - intros h data. by eexists.
  - intros v. done.
Qed.



Lemma encrypt_blob_format_witness :
  ∃ blob w', encrypt (lit "hello") (lit "pw") sample_world = (Ok blob, w')
             ∧ random_drawn w' = 48%nat
             ∧ ∃ chars, atob blob = Some chars
                 ∧ take 32 (char_codes_to_bytes chars) = next_random 32 sample_world.
Proof.
  destruct (@encrypt_blob_format sample_env sample_laws (lit "hello") (lit "pw") sample_world)
    as [Hfit Hformat].
  destruct Hfit as (blob & w' & Henc); [vm_compute; discriminate|].
  destruct (Hformat blob w' Henc)
    as (salt & iv & km & key & ct & Hsalt & _ & Hdrawn & _ & _ & _ & _
        & _ & _ & _ & _ & Hatob & Htake & _).
  exists blob, w'. split; [exact Henc|]. split; [exact Hdrawn|].
  eexists. split; [exact Hatob|]. by rewrite Htake, Hsalt.
Defined.

(** The forgiving decoder does not inspect the unused low bits of a final
    character, and does not require the padding. *)
Example atob_ignores_unused_bits : atob (lit "QR==") = atob (lit "QQ==").
Proof. reflexivity. Qed.

Example atob_without_padding : atob (lit "QQ") = atob (lit "QQ==").
Proof. reflexivity. Qed.

(** C2, as stated, fails.  The blob of the empty plaintext is 64 bytes, in
    Base64 86 characters and two padding characters.  Inverting bit 3 of
    character 85, which changes only bits that the decoder discards, gives a
    different blob that decrypts without error; so does cutting off the
    padding. *)
Lemma decrypt_accepts_modified_blob :
  ∃ blob, (encrypt [] (lit "pw") sample_world).1 = Ok blob
          ∧ flip_bit 85 3 blob ≠ blob
          ∧ decrypt (flip_bit 85 3 blob) (lit "pw") = Ok []
          ∧ take 86 blob ≠ blob
          ∧ decrypt (take 86 blob) (lit "pw") = Ok [].
Proof.
  eexists. split; [by vm_compute|].
  split; [vm_compute; discriminate|]. split; [by vm_compute|].
  split; [vm_compute; discriminate|]. by vm_compute.
Qed.

Lemma decrypt_fails_closed_witness :
  atob (lit "QQ==") = Some [65]
  ∧ decrypt (lit "QQ==") (lit "pw")
    = Throw (Error "Invalid password or corrupted data").
Proof.
  split; [reflexivity|].
  destruct (@decrypt_fails_closed sample_env sample_laws (lit "QQ==") (lit "pw"))
    as (_ & Hshort & _).
  apply (Hshort [65]); [reflexivity|]. cbn [length]. lia.
Defined.

End sample_facts.

(** ** Breach check *)

Section breach_facts.
Context `{Env}.
Import Encoding JSString Breach.

(** C9. [checkPasswordBreach] never propagates a failure: for every
    password it returns a boolean, and when the hashing, the request or the
    reading of the response throws, the result is [false]. *)
Theorem checkPasswordBreach_absorbs (password : jsstring) :
  let data := TextEncoder_encode password in
  let url hashBuffer :=
    lit "https://api.pwnedpasswords.com/range/" ++ take 5 (toUpperCase (hex hashBuffer)) in
  (∃ b, checkPasswordBreach password = Ok b)
  ∧ (∀ e, subtle_digest SHA_1 data = Throw e → checkPasswordBreach password = Ok false)
  ∧ (∀ hashBuffer e,
       subtle_digest SHA_1 data = Ok hashBuffer → fetch (url hashBuffer) = Throw e →
       checkPasswordBreach password = Ok false)
  ∧ (∀ hashBuffer response e,
       subtle_digest SHA_1 data = Ok hashBuffer → fetch (url hashBuffer) = Ok response →
       response_text response = Throw e →
       checkPasswordBreach password = Ok false).
Proof.
  cbn zeta. unfold checkPasswordBreach. split_and!.
  - destruct (_ ≫= _) as [b|e]; cbn; by eexists.
  - intros e ->. done.
  - intros hashBuffer e -> Hfetch. rewrite result_bind_Ok. cbn zeta.
    by rewrite Hfetch.
  - intros hashBuffer response e -> Hfetch Htext. rewrite result_bind_Ok. cbn zeta.
    by rewrite Hfetch, result_bind_Ok, Htext.
Qed.

End breach_facts.

Lemma checkPasswordBreach_absorbs_witness :
  @fetch offline_env
     (lit "https://api.pwnedpasswords.com/range/"
      ++ take 5 (JSString.toUpperCase (JSString.hex
           (take 4 (Encoding.TextEncoder_encode (lit "abc") ++ replicate 4 Byte.x00)))))
  = Throw {| err_name := lit "TypeError"; err_message := lit "Failed to fetch" |}
  ∧ @Breach.checkPasswordBreach offline_env (lit "abc") = Ok false.
Proof.
  split; [reflexivity|].
  destruct (@checkPasswordBreach_absorbs offline_env (lit "abc")) as (_ & _ & Hnet & _).
  eapply Hnet; reflexivity.
Defined.

(** ** Signup *)

Section signup_facts.
Context `{Env}.
Import Encoding Base64 JSString Runtime CryptoManager AppContext AppProvider.

Lemma hex_digit_not_u n : n < 16 → hex_digit n ≠ 117.
Proof. intros Hn. unfold hex_digit. case_match; lia. Qed.

(** The key of a vault is never the key of the users list. *)
Lemma storage_key_ne_users (d : list byte) :
  getUserStorageKey (hex d) ≠ getUsersListKey.
Proof.
  unfold getUserStorageKey, getUsersListKey.
  change (lit "passwordManager_users") with (lit "passwordManager_" ++ lit "users").
  intros Heq%app_inv_head. destruct d as [|b d]; [done|].
  cbn [hex flat_map hex2 app] in Heq. injection Heq as Hd _.
  revert Hd. apply hex_digit_not_u.
  pose proof (Byte.to_N_bounded b). euclid.
Qed.

Lemma getAllUsers_eq (w : World) :
  getAllUsers w =
    ((if truthy (localStorage w !! getUsersListKey)
      then JSON_parse_users (default [] (localStorage w !! getUsersListKey))
      else Ok []), w).
Proof.
  unfold getAllUsers. rewrite M_bind_eq. cbn [localStorage_getItem].
  by destruct (truthy _).
Qed.

Lemma addUserToList_eq (userHash masterPassword : jsstring) (users : list UserInfo)
    (w : World) :
  (getAllUsers w).1 = Ok users →
  addUserToList userHash masterPassword w =
    (Ok tt,
     set_localStorage
       (<[getUsersListKey :=
            JSON_stringify_users (registered users userHash masterPassword (clock w))]>
          (localStorage w)) w).
Proof.
  intros Husers. unfold addUserToList. rewrite M_bind_eq.
  rewrite getAllUsers_eq in Husers |- *. cbn [fst] in Husers. rewrite Husers.
  done.
Qed.


Lemma getUserHash_digest (masterPassword : jsstring) (digest : list byte) :
  subtle_digest SHA_256 (TextEncoder_encode masterPassword) = Ok digest →
  getUserHash masterPassword = Ok (hex digest).
Proof. intros Hdigest. unfold getUserHash. by rewrite Hdigest. Qed.

(** The refusal: a truthy item under the key of the hash. *)
Lemma signup_refused (masterPassword blob : jsstring) (digest : list byte) (w : World) :
  subtle_digest SHA_256 (TextEncoder_encode masterPassword) = Ok digest →
  localStorage w !! getUserStorageKey (hex digest) = Some blob → blob ≠ [] →
  signup masterPassword w = (Ok false, w).
Proof.
  intros Hhash%getUserHash_digest Hblob Hne. unfold signup, Runtime.try_catch.
  rewrite M_bind_eq. cbn [lift]. rewrite Hhash. cbn zeta.
  rewrite M_bind_eq. cbn [localStorage_getItem]. rewrite Hblob.
  destruct blob; [done|]. done.
Qed.

Lemma encode_nonempty (bs : list N) : bs ≠ [] → encode bs ≠ [].
Proof.
  intros Hbs. unfold encode.
  pose proof (sextets_shape bs) as (_ & _ & _ & Hne). specialize (Hne Hbs).
  destruct (to_sextets bs); [done|]. done.
Qed.

Context `{!EnvLaws}.

(** [signup] with a passphrase under whose hash nothing is stored, when the
    snapshot can be encrypted: the blob is stored, and what follows depends
    on the users list. *)
Lemma signup_stored (masterPassword : jsstring) (digest : list byte) (w : World) :
  subtle_digest SHA_256 (TextEncoder_encode masterPassword) = Ok digest →
  truthy (localStorage w !! getUserStorageKey (hex digest)) = false →
  N.of_nat (length (TextEncoder_encode (JSON_stringify_vault (initialData (clock w)))))
    + 64 ≤ max_arguments →
  ∃ blob,
    (encrypt (JSON_stringify_vault (initialData (clock w))) masterPassword w).1 = Ok blob
    ∧ blob ≠ []
    ∧ decrypt blob masterPassword = Ok (JSON_stringify_vault (initialData (clock w)))
    ∧ signup masterPassword w =
        match (getAllUsers w).1 with
        | Ok users =>
            (Ok true,
             signed_up w (hex digest) masterPassword blob
               (registered users (hex digest) masterPassword (clock w)))
        | Throw _ =>
            (Ok false,
             set_localStorage (<[getUserStorageKey (hex digest) := blob]> (localStorage w))
               (set_random_drawn (random_drawn w + 48) w))
        end.
Proof.
  intros Hhash%getUserHash_digest Hfree Hfit%N.leb_le.
  set (dataString := JSON_stringify_vault (initialData (clock w))) in *.
  destruct (encrypt_then_decrypt dataString masterPassword w)
    as (km & key & ct & _ & _ & _ & Henc & Hdec).
  rewrite Hfit in Henc.
  destruct (stringify_vault_text (initialData (clock w))) as [Hwf Hhead].
  eexists. split; [by rewrite Henc|]. split.
  { apply encode_nonempty. unfold fromCharCode.
    pose proof (next_random_length SALT_LENGTH w) as Hlen.
    destruct (next_random SALT_LENGTH w); [done|]. done. }
  split.
  { rewrite Hdec. fold dataString in Hwf, Hhead.
    rewrite TextDecoder_TextEncoder; [done..|]. by rewrite Hhead. }
  unfold signup, Runtime.try_catch.
  rewrite M_bind_eq. cbn [lift]. rewrite Hhash. cbn zeta.
  rewrite M_bind_eq. cbn [localStorage_getItem]. rewrite Hfree.
  rewrite M_bind_eq. cbn [now_iso]. fold dataString.
  rewrite M_bind_eq, Henc.
  rewrite M_bind_eq. cbn [localStorage_setItem].
  rewrite M_bind_eq.
  set (w1 := set_localStorage _ _).
  assert ((getAllUsers w1).1 = (getAllUsers w).1) as Hsame.
  { rewrite !getAllUsers_eq. unfold w1. cbn [fst localStorage set_localStorage
      set_random_drawn].
    by rewrite lookup_insert_ne by apply storage_key_ne_users. }
  destruct (getAllUsers w).1 as [users|e] eqn:Husers.
  - erewrite addUserToList_eq by exact Hsame.
    repeat (rewrite M_bind_eq; cbn [sessionStorage_setItem dispatch]).
    unfold mret, M_ret, ret. f_equal.
    unfold signed_up, w1, set_localStorage, set_sessionStorage, set_random_drawn,
      set_app_state.
    cbn [localStorage sessionStorage random_supply random_drawn clock app_state].
    f_equal. unfold SALT_LENGTH, IV_LENGTH. lia.
  - unfold addUserToList. rewrite M_bind_eq.
    rewrite getAllUsers_eq in Hsame |- *. cbn [fst] in Hsame. rewrite Hsame.
    unfold mret, M_ret, ret. f_equal.
    unfold w1, set_localStorage, set_random_drawn.
    cbn [localStorage sessionStorage random_supply random_drawn clock app_state].
    f_equal. unfold SALT_LENGTH, IV_LENGTH. lia.
Qed.

(** The creation of an account. *)
Lemma signup_fresh (masterPassword : jsstring) (digest : list byte)
    (users : list UserInfo) (w : World) :
  subtle_digest SHA_256 (TextEncoder_encode masterPassword) = Ok digest →
  truthy (localStorage w !! getUserStorageKey (hex digest)) = false →
  (getAllUsers w).1 = Ok users →
  N.of_nat (length (TextEncoder_encode (JSON_stringify_vault (initialData (clock w)))))
    + 64 ≤ max_arguments →
  ∃ blob,
    (encrypt (JSON_stringify_vault (initialData (clock w))) masterPassword w).1 = Ok blob
    ∧ blob ≠ []
    ∧ decrypt blob masterPassword = Ok (JSON_stringify_vault (initialData (clock w)))
    ∧ signup masterPassword w =
        (Ok true,
         signed_up w (hex digest) masterPassword blob
           (registered users (hex digest) masterPassword (clock w))).
Proof.
  intros Hdigest Hfree Husers Hfit.
  destruct (signup_stored masterPassword digest w Hdigest Hfree Hfit)
    as (blob & Henc & Hne & Hdec & Hsignup).
  rewrite Husers in Hsignup. by exists blob.
Qed.

(** A signup that succeeded makes the next one with the same passphrase
    fail. *)
Lemma signup_twice (masterPassword : jsstring) (users : list UserInfo) (w : World) :
  (∀ digest, subtle_digest SHA_256 (TextEncoder_encode masterPassword) = Ok digest →
             truthy (localStorage w !! getUserStorageKey (hex digest)) = false) →
  (getAllUsers w).1 = Ok users →
  N.of_nat (length (TextEncoder_encode (JSON_stringify_vault (initialData (clock w)))))
    + 64 ≤ max_arguments →
  (signup masterPassword w).1 = Ok true
  ∧ signup masterPassword (signup masterPassword w).2
    = (Ok false, (signup masterPassword w).2).
Proof.
  intros Hfree Husers Hfit.
  destruct (digest_ok SHA_256 (TextEncoder_encode masterPassword)) as [digest Hdigest].
  destruct (signup_fresh masterPassword digest users w Hdigest (Hfree _ Hdigest) Husers Hfit)
    as (blob & _ & Hne & _ & ->).
  split; [done|]. cbn [snd].
  apply (signup_refused _ blob digest); [done| |done].
  unfold signed_up. cbn [localStorage].
  rewrite lookup_insert_ne by (intros Heq; by eapply storage_key_ne_users).
  apply lookup_insert_eq.
Qed.


End signup_facts.


(** C4, as stated, fails.  Nothing is stored under the key of the
    passphrase, but the item of the users list is not JSON text: [signup]
    returns [false], and no user is registered.  The blob that it has stored
    by then makes every later [signup] with the passphrase fail as well. *)
Lemma signup_unreadable_users_counterexample :
  let masterPassword := lit "Ajaykanna@123" in
  let userStorageKey := lit "passwordManager_416a6179" in
  let usersListKey := lit "passwordManager_users" in
  let w := Runtime.set_localStorage {[ usersListKey := lit "{" ]} sample_world in
  let w1 := (@AppProvider.signup strict_env masterPassword w).2 in
  @AppProvider.getUserHash strict_env masterPassword = Ok (lit "416a6179")
  ∧ Runtime.localStorage w !! userStorageKey = None
  ∧ (@AppProvider.signup strict_env masterPassword w).1 = Ok false
  ∧ (∃ blob, Runtime.localStorage w1 !! userStorageKey = Some blob ∧ blob ≠ [])
  ∧ Runtime.localStorage w1 !! usersListKey = Some (lit "{")
  ∧ Runtime.sessionStorage w1 = ∅
  ∧ @AppProvider.signup strict_env masterPassword w1 = (Ok false, w1).
Proof.
  cbn zeta. split; [by vm_compute|]. split; [by vm_compute|]. split; [by vm_compute|].
  split; [eexists; split; [by vm_compute | discriminate]|].
  split; [by vm_compute|]. split; [by vm_compute|]. by vm_compute.
Qed.

(** ** More on password strength *)

Section strength_more.
Import Strength SecurityAnalyzer.

Lemma points_mono (P Q : Prop) `{Decision P, Decision Q} (n : Z) :
  (0 ≤ n)%Z → (P → Q) → (points P n ≤ points Q n)%Z.
Proof. intros Hn HPQ. unfold points. repeat case_decide; try lia. tauto. Qed.

Lemma Exists_insert {A} (P : A → Prop) (s1 t s2 : list A) :
  Exists P (s1 ++ s2) → Exists P (s1 ++ t ++ s2).
Proof. rewrite !Exists_app. tauto. Qed.

(** X1. Inserting characters anywhere into a password (in front, in the
    middle or at the end) never lowers its score: the length only grows and
    every character class that was found is still found. *)
Theorem calculatePasswordStrength_monotone (s1 t s2 : jsstring) :
  (calculatePasswordStrength (s1 ++ s2) ≤ calculatePasswordStrength (s1 ++ t ++ s2))%Z.
Proof.
  rewrite !strength_eq_spec. unfold strength_spec.
  assert (length (s1 ++ s2) ≤ length (s1 ++ t ++ s2))%nat as Hlen
    by (rewrite !length_app; lia).
  unfold has_lowercase, has_uppercase, has_digit, has_symbol.
  pose proof (points_mono (8 ≤ length (s1 ++ s2))%nat (8 ≤ length (s1 ++ t ++ s2))%nat 25
                ltac:(lia) ltac:(lia)).
  pose proof (points_mono (12 ≤ length (s1 ++ s2))%nat (12 ≤ length (s1 ++ t ++ s2))%nat 25
                ltac:(lia) ltac:(lia)).
  pose proof (points_mono _ _ 20 ltac:(lia)
    (λ '(conj Hl Hu), conj (Exists_insert (λ c, 97 ≤ c ≤ 122) s1 t s2 Hl)
                           (Exists_insert (λ c, 65 ≤ c ≤ 90) s1 t s2 Hu))).
  pose proof (points_mono _ _ 15 ltac:(lia) (Exists_insert (λ c, 48 ≤ c ≤ 57) s1 t s2)).
  pose proof (points_mono _ _ 15 ltac:(lia) (Exists_insert (λ c, c ∈ symbol_chars) s1 t s2)).
  lia.
Qed.

End strength_more.

(** ** Weak and reused entries *)

Section weak_facts.
Import Strength SecurityAnalyzer.

(** X2. Which entries the report lists as weak.  An entry is in
    [weakPasswordsList] exactly when it is an entry of the vault and its
    password is neither at least 12 long with one of: both letter cases, a
    digit, a symbol; nor at least 8 long with both letter cases and a digit
    or a symbol.  So every password shorter than 8 is listed, whatever its
    characters. *)
Theorem weak_password_characterisation (now : Date) (l : list PasswordEntry)
    (p : PasswordEntry) :
  let s := password p in
  let mixed := has_lowercase s ∧ has_uppercase s in
  p ∈ weakPasswordsList (analyzePasswordSecurity now l) ↔
    p ∈ l ∧ ¬ ((12 ≤ length s)%nat ∧ (mixed ∨ has_digit s ∨ has_symbol s)
               ∨ (8 ≤ length s)%nat ∧ mixed ∧ (has_digit s ∨ has_symbol s)).
Proof.
  cbn zeta. cbn [analyzePasswordSecurity weakPasswordsList].
  rewrite list_elem_of_In, filter_In, <- list_elem_of_In.
  unfold is_weak. rewrite Z.ltb_lt, strength_eq_spec.
  unfold strength_spec, points.
  repeat case_decide; split; intros [Hin Hw]; (split; [done|]); first [lia | tauto].
Qed.

End weak_facts.

Section reuse_more.
Import SecurityAnalyzer.
Implicit Types (l : list PasswordEntry).





Lemma filter_nil_iff {A} (f : A → bool) (xs : list A) :
  List.filter f xs = [] ↔ ∀ x, x ∈ xs → f x = false.
Proof.
  induction xs as [|x xs IH]; simpl.
  - split; [intros _ y Hy; by apply elem_of_nil in Hy | done].
  - destruct (f x) eqn:Hx.
    + split; [done|]. intros Hall. specialize (Hall x (ltac:(left))). congruence.
    + rewrite IH. split.
      * intros Hall y [->|Hy]%elem_of_cons; [done | by apply Hall].
      * intros Hall y Hy. apply Hall. by right.
Qed.



End reuse_more.

(** ** Analytics *)

Section analytics_facts.
Import Strength SecurityAnalyzer Analytics.
Implicit Types (l : list PasswordEntry).
Context `{Engine}.







(** The keys 1, 2 and 10 are array indices and come first, in ascending
    order; the key 04 is not one. *)
Example Object_entries_order :
  (Object_entries [(lit "b", 1); (lit "2", 2); (lit "10", 3); (lit "1", 4);
                   (lit "04", 5)]).*2
  = [4; 2; 3; 1; 5].
Proof. by vm_compute. Qed.
















(** In the sample engine: two entries of the category [__proto__] are not
    counted, and one of the category [constructor] leaves a text. *)
Example categoryStats_inherited :
  let in_cat c i :=
    {| id := lit i; title := []; username := []; password := lit "abc";
       url := None; notes := None; category := lit c;
       createdAt := 0%Z; updatedAt := 0%Z; isFavorite := None;
       tags := None; lastUsed := None; expiryDate := None;
       isCompromised := None; strength := None;
       twoFactorSecret := None; customFields := None |} in
  categoryStats
    (@getPasswordAnalytics sample_engine 0%Z 0%Z
       [in_cat "__proto__" "1"; in_cat "work" "2"; in_cat "__proto__" "3";
        in_cat "constructor" "4"])
  = [(lit "work", Count 1);
     (lit "constructor", Text (lit "function Object() { [native code] }1"))].
Proof. by vm_compute. Qed.

End analytics_facts.

(** ** The reducer on entries *)

Section reducer_facts.
Import AppContext.
Implicit Types (s : AppState) (p : PasswordEntry).

Lemma set_passwords_same s : set_passwords (passwords s) s = s.
Proof. by destruct s. Qed.

Lemma filter_id_absent (i : jsstring) (l : list PasswordEntry) :
  i ∉ id <$> l → List.filter (λ p, bool_decide (id p ≠ i)) l = l.
Proof.
  intros Hi. apply filter_all. apply Forall_forall. intros p Hp.
  apply bool_decide_eq_true. intros <-. apply Hi. apply list_elem_of_fmap. by exists p.
Qed.

Lemma update_ids p (l : list PasswordEntry) :
  id <$> ((λ q, if decide (id q = id p) then p else q) <$> l) = id <$> l.
Proof.
  rewrite <- list_fmap_compose. apply list_fmap_ext. intros _ q _. simpl.
  by destruct (decide _).
Qed.

Lemma update_absent p (l : list PasswordEntry) :
  id p ∉ id <$> l → (λ q, if decide (id q = id p) then p else q) <$> l = l.
Proof.
  intros Hp. rewrite <- (list_fmap_id l) at 2. apply list_fmap_ext.
  intros _ q Hq%list_elem_of_lookup_2. simpl. destruct (decide _) as [Heq|]; [|done].
  exfalso. apply Hp. rewrite <- Heq. apply list_elem_of_fmap. by exists q.
Qed.

Lemma filter_ids (f : PasswordEntry → bool) (l : list PasswordEntry) :
  NoDup (id <$> l) → NoDup (id <$> List.filter f l).
Proof.
  induction l as [|a l IH]; [done|]. rewrite fmap_cons, NoDup_cons. intros [Ha Hl].
  cbn [List.filter]. destruct (f a); [|by apply IH].
  rewrite fmap_cons, NoDup_cons. split; [|by apply IH].
  intros [q [Hq Hin]]%list_elem_of_fmap. apply Ha.
  apply list_elem_of_In, filter_In in Hin as [Hin _].
  apply list_elem_of_fmap. exists q. by rewrite <- list_elem_of_In in Hin.
Qed.

(** X5. Pairwise distinct ids are an invariant of the list of entries:
    when no two entries of the state share an id, this still holds after
    [UPDATE_PASSWORD] and [DELETE_PASSWORD] with any payload, after
    [ADD_PASSWORD] of an entry whose id is new, and after [importData] of a
    list whose own ids are pairwise distinct. *)
Theorem unique_ids_preserved s :
  NoDup (id <$> passwords s) →
  (∀ p, NoDup (id <$> passwords (appReducer s (UPDATE_PASSWORD p))))
  ∧ (∀ i, NoDup (id <$> passwords (appReducer s (DELETE_PASSWORD i))))
  ∧ (∀ p, id p ∉ id <$> passwords s →
          NoDup (id <$> passwords (appReducer s (ADD_PASSWORD p))))
  ∧ (∀ data, NoDup (id <$> default [] (data_passwords data)) →
             NoDup (id <$> passwords (importData s data))).
Proof.
  intros Hs. split_and!.
  - intros p. cbn [appReducer set_passwords passwords]. by rewrite update_ids.
  - intros i. cbn [appReducer set_passwords passwords]. by apply filter_ids.
  - intros p Hp. cbn [appReducer set_passwords passwords].
    rewrite fmap_app, NoDup_app. split_and!; [done| |apply NoDup_singleton].
    intros i Hi Hi'. apply list_elem_of_singleton in Hi' as ->. done.
  - intros data Hd. unfold importData.
    destruct (data_passwords data) as [imported|]; [|done]. cbn [default] in Hd.
    assert (NoDup (id <$> (passwords s ++
      List.filter (λ p, negb (bool_decide
        (id p ∈ (list_to_set (id <$> passwords s) : gset jsstring)))) imported))).
    { rewrite fmap_app, NoDup_app. split_and!; [done| |by apply filter_ids].
      intros i Hi [q [-> Hq]]%list_elem_of_fmap.
      apply list_elem_of_In, filter_In in Hq as [_ Hq].
      apply negb_true_iff, bool_decide_eq_false in Hq. apply Hq.
      by apply elem_of_list_to_set. }
    by destruct (data_settings data).
Qed.

(** X6. [UPDATE_PASSWORD] keeps the ids of the entries and their order.
    With an entry whose id does not occur it changes nothing at all: the
    update is dropped.  In a list without duplicate ids the entry that has
    the id of the payload is replaced by the payload, in place, and no other
    entry changes. *)
Theorem update_password_replaces s p :
  let s' := appReducer s (UPDATE_PASSWORD p) in
  id <$> passwords s' = id <$> passwords s
  ∧ (id p ∉ id <$> passwords s → s' = s)
  ∧ (∀ l1 old l2,
       passwords s = l1 ++ old :: l2 → id old = id p → NoDup (id <$> passwords s) →
       passwords s' = l1 ++ p :: l2).
Proof.
  cbn zeta. cbn [appReducer set_passwords passwords]. split_and!.
  - apply update_ids.
  - intros Hp. rewrite update_absent by done. apply set_passwords_same.
  - intros l1 old l2 -> Hold Hnd.
    rewrite fmap_app, fmap_cons, Hold in Hnd.
    apply NoDup_app in Hnd as (_ & Hl1 & [Hl2 _]%NoDup_cons).
    rewrite fmap_app, fmap_cons, decide_True by done.
    rewrite !update_absent; [done|done|].
    intros Hin. apply (Hl1 _ Hin). left.
Qed.

(** X7. After [DELETE_PASSWORD] no entry has the given id and every entry
    with another id is still there.  Deleting an id that does not occur
    changes nothing, and adding an entry with a new id and then deleting
    that id gives back the state before. *)
Theorem delete_password_removes s (i : jsstring) :
  let s' := appReducer s (DELETE_PASSWORD i) in
  (i ∉ id <$> passwords s')
  ∧ (∀ p, p ∈ passwords s → id p ≠ i → p ∈ passwords s')
  ∧ (i ∉ id <$> passwords s → s' = s)
  ∧ (∀ p, id p = i → i ∉ id <$> passwords s →
          appReducer (appReducer s (ADD_PASSWORD p)) (DELETE_PASSWORD i) = s).
Proof.
  cbn zeta. cbn [appReducer set_passwords passwords]. split_and!.
  - intros [p [-> Hp]]%list_elem_of_fmap.
    apply list_elem_of_In, filter_In in Hp as [_ Hp].
    by apply bool_decide_eq_true in Hp.
  - intros p Hp Hne. apply list_elem_of_In, filter_In.
    split; [by apply list_elem_of_In | by apply bool_decide_eq_true].
  - intros Hi. rewrite filter_id_absent by done. apply set_passwords_same.
  - intros p <- Hi. rewrite List.filter_app, filter_id_absent by done.
    cbn [List.filter]. rewrite bool_decide_eq_false_2 by (intros Hne; by apply Hne).
    rewrite app_nil_r. by destruct s.
Qed.

Lemma default_twice {A} (a : A) (o : option A) : default (default a o) o = default a o.
Proof. by destruct o. Qed.

Lemma spread_settings_idemp (x : Settings) (p : PartialSettings) :
  spread_settings (spread_settings x p) p = spread_settings x p.
Proof.
  unfold spread_settings.
  cbn [autoLockMinutes theme showPasswordStrength compactView enableBiometric
       autoFillEnabled passwordExpiryDays enableBreachCheck enableTwoFactor
       backupFrequency language].
  by rewrite !default_twice.
Qed.

(** X8. Importing the same data a second time changes nothing: every
    imported id is then present, and the settings are already merged. *)
Theorem importData_idempotent s (data : ImportData) :
  importData (importData s data) data = importData s data.
Proof.
  unfold importData. destruct (data_passwords data) as [imported|] eqn:Hd; [|done].
  set (new := List.filter _ imported).
  assert (List.filter (λ p, negb (bool_decide
      (id p ∈ (list_to_set (id <$> (passwords s ++ new)) : gset jsstring)))) imported = [])
    as Hnone.
  { apply filter_nil_iff. intros p Hp.
    apply negb_false_iff, bool_decide_eq_true, elem_of_list_to_set.
    rewrite fmap_app, elem_of_app.
    destruct (decide (id p ∈ id <$> passwords s)) as [|Hnew]; [by left|right].
    apply list_elem_of_fmap. exists p. split; [done|].
    apply list_elem_of_In, filter_In. split; [by apply list_elem_of_In|].
    apply negb_true_iff, bool_decide_eq_false. by rewrite elem_of_list_to_set. }
  destruct (data_settings data) as [x|];
    cbn [appReducer set_passwords set_settings passwords settings
      isAuthenticated categories searchQuery selectedCategory showPasswordGenerator
      editingPassword];
    rewrite Hnone, app_nil_r, ?spread_settings_idemp; done.
Qed.

End reducer_facts.

(** ** User hashes *)

Section hash_facts.
Import Encoding JSString JSNumber AppProvider.

Lemma hex_digit_inj m n : m < 16 → n < 16 → hex_digit m = hex_digit n → m = n.
Proof.
  unfold hex_digit. intros Hm Hn.
  destruct (N.ltb_spec m 10), (N.ltb_spec n 10); lia.
Qed.

Lemma hex2_inj (b b' : byte) : hex2 b = hex2 b' → b = b'.
Proof.
  unfold hex2. intros [= Hhi Hlo].
  pose proof (Byte.to_N_bounded b). pose proof (Byte.to_N_bounded b').
  apply hex_digit_inj in Hhi; [|euclid..]. apply hex_digit_inj in Hlo; [|euclid..].
  rewrite <- (byte_of_N_to_N b), <- (byte_of_N_to_N b'). f_equal. euclid.
Qed.

Lemma hex_inj (d d' : list byte) : hex d = hex d' → d = d'.
Proof.
  revert d'. induction d as [|b d IH]; intros [|b' d']; try done.
  cbn [hex flat_map hex2 app]. intros [= Hhi Hlo Hrest].
  f_equal; [apply hex2_inj; unfold hex2; congruence | by apply IH].
Qed.

Lemma hex_digit_lower n : n < 16 → is_lower_hex (hex_digit n).
Proof.
  unfold hex_digit, is_lower_hex. intros Hn. destruct (N.ltb_spec n 10); lia.
Qed.

(** X9. The user hash of a passphrase is its SHA-256 digest in lowercase
    hexadecimal, two characters for each byte.  Two passphrases have the same
    hash, and their vaults the same storage key, exactly when their digests
    are equal. *)
Theorem user_hash_shape `{Env} (masterPassword : jsstring) (digest : list byte) :
  subtle_digest SHA_256 (TextEncoder_encode masterPassword) = Ok digest →
  ∃ userHash,
    getUserHash masterPassword = Ok userHash
    ∧ length userHash = (2 * length digest)%nat
    ∧ Forall is_lower_hex userHash
    ∧ (∀ masterPassword' digest',
         subtle_digest SHA_256 (TextEncoder_encode masterPassword') = Ok digest' →
         (getUserHash masterPassword' = Ok userHash ↔ digest' = digest)
         ∧ (getUserStorageKey (hex digest') = getUserStorageKey userHash ↔ digest' = digest)).
Proof.
  intros Hd. exists (hex digest). unfold getUserHash. rewrite Hd. split; [done|].
  split_and!.
  - induction digest as [|b d IH] in |- *; [done|]. cbn [hex flat_map hex2 app length].
    fold (hex d). rewrite IH. lia.
  - induction digest as [|b d IH] in |- *; [constructor|]. cbn [hex flat_map hex2 app].
    pose proof (Byte.to_N_bounded b).
    apply Forall_cons. split; [apply hex_digit_lower; euclid|].
    apply Forall_cons. split; [apply hex_digit_lower; euclid|]. apply IH.
  - intros mp' d' Hd'. rewrite Hd'. split.
    + split; [intros [= Heq]; by apply hex_inj | by intros ->].
    + unfold getUserStorageKey. split; [intros Heq%app_inv_head; by apply hex_inj | by intros ->].
Qed.

End hash_facts.

(** ** The users list *)

Section users_facts.
Context `{Env}.
Import Runtime AppProvider.

Lemma set_lastLogin_hash now u : ui_hash (set_lastLogin now u) = ui_hash u.
Proof. done. Qed.

(** The list written back by [addUserToList]. *)
Lemma registered_spec (users : list UserInfo) (userHash masterPassword now : jsstring) :
  let users' := registered users userHash masterPassword now in
  (userHash ∉ ui_hash <$> users →
     ∃ userInfo, users' = users ++ [userInfo]
       ∧ ui_hash userInfo = userHash
       ∧ ui_createdAt userInfo = now ∧ ui_lastLogin userInfo = now)
  ∧ (∀ l1 u l2, users = l1 ++ u :: l2 → ui_hash u = userHash →
       userHash ∉ ui_hash <$> l1 →
       users' = l1 ++ set_lastLogin now u :: l2)
  ∧ (NoDup (ui_hash <$> users) → NoDup (ui_hash <$> users')).
Proof.
  cbn zeta. unfold registered, upsert_user. cbn [ui_hash].
  assert (∀ l1 u l2, users = l1 ++ u :: l2 → ui_hash u = userHash →
    userHash ∉ ui_hash <$> l1 →
    list_find (λ u0, ui_hash u0 = userHash) users = Some (length l1, u)) as Hfound.
  { intros l1 u l2 -> Hu Hl1. apply list_find_Some. split_and!.
    - by rewrite lookup_app_r, Nat.sub_diag.
    - done.
    - intros j v Hj Hlt Hv. apply Hl1. rewrite <- Hv.
      rewrite lookup_app_l in Hj by done. apply list_elem_of_fmap.
      exists v. split; [done|]. by eapply list_elem_of_lookup_2. }
  assert (userHash ∉ ui_hash <$> users →
    list_find (λ u0, ui_hash u0 = userHash) users = None) as Hnone.
  { intros Hnot. apply list_find_None. apply Forall_forall. intros u Hu Heq.
    apply Hnot. rewrite <- Heq. apply list_elem_of_fmap. by exists u. }
  split_and!.
  - intros Hnot. rewrite Hnone by done. by eexists.
  - intros l1 u l2 Husers Hu Hl1. rewrite (Hfound l1 u l2) by done. subst users.
    rewrite insert_app_r_alt by done. by rewrite Nat.sub_diag.
  - intros Hnd. destruct (list_find _ users) as [[i u]|] eqn:Hfind.
    + apply list_find_Some in Hfind as (Hi & Hu & _).
      rewrite list_fmap_insert, set_lastLogin_hash.
      rewrite list_insert_id; [done|]. by rewrite list_lookup_fmap, Hi.
    + apply list_find_None in Hfind. rewrite fmap_app. apply NoDup_app.
      split_and!; [done| |apply NoDup_singleton].
      intros h [u [-> Hu]]%list_elem_of_fmap Hin%list_elem_of_singleton.
      eapply Forall_forall in Hfind; [|done]. by apply Hfind.
Qed.

(** X10. [addUserToList] keeps one record per hash.  When the stored users
    list can be read, it writes back a list in which an unknown hash has a
    new record at the end, created and last seen at the time of the call,
    while for a known hash the first record with that hash gets the new
    [lastLogin], keeps its other properties and its place, and nothing else
    changes.  Hashes that were pairwise distinct stay so.  Nothing but the
    users list is written. *)
Theorem addUserToList_one_record (userHash masterPassword : jsstring)
    (users : list UserInfo) (w : World) :
  (getAllUsers w).1 = Ok users →
  ∃ users',
    addUserToList userHash masterPassword w =
      (Ok tt,
       set_localStorage
         (<[getUsersListKey := JSON_stringify_users users']> (localStorage w)) w)
    ∧ (userHash ∉ ui_hash <$> users →
         ∃ userInfo, users' = users ++ [userInfo]
           ∧ ui_hash userInfo = userHash
           ∧ ui_createdAt userInfo = clock w ∧ ui_lastLogin userInfo = clock w)
    ∧ (∀ l1 u l2, users = l1 ++ u :: l2 → ui_hash u = userHash →
         userHash ∉ ui_hash <$> l1 →
         users' = l1 ++ set_lastLogin (clock w) u :: l2)
    ∧ (NoDup (ui_hash <$> users) → NoDup (ui_hash <$> users')).
Proof.
  intros Husers. exists (registered users userHash masterPassword (clock w)).
  split; [by apply addUserToList_eq|]. apply registered_spec.
Qed.

End users_facts.

Lemma addUserToList_one_record_witness :
  ∃ users',
    (@AppProvider.addUserToList sample_env (lit "416a6179") (lit "Ajaykanna@123")
       sample_world).1 = Ok tt
    ∧ (∃ userInfo, users' = [userInfo] ∧ ui_hash userInfo = lit "416a6179")
    ∧ NoDup (ui_hash <$> users').
Proof.
  destruct (@addUserToList_one_record sample_env (lit "416a6179") (lit "Ajaykanna@123") []
              sample_world ltac:(reflexivity))
    as (users' & Hrun & Hnew & _ & Hnd).
  exists users'. split; [by rewrite Hrun|]. split.
  - destruct Hnew as (userInfo & Heq & Hhash & _); [by intros ?%elem_of_nil|].
    by exists userInfo.
  - apply Hnd. constructor.
Defined.

(** ** Comparison of strings *)

Section compare_facts.
Import Int32 Compare.

Lemma ToInt32_small z : (- 2 ^ 31 ≤ z < 2 ^ 31)%Z → ToInt32 z = z.
Proof. intros Hz. unfold ToInt32. rewrite Z.mod_small; lia. Qed.

Lemma lor_below (n a b : Z) :
  (0 ≤ n)%Z → (0 ≤ a < 2 ^ n)%Z → (0 ≤ b < 2 ^ n)%Z → (0 ≤ Z.lor a b < 2 ^ n)%Z.
Proof.
  intros Hn Ha Hb. split; [apply Z.lor_nonneg; lia|].
  rewrite <- (Z.mod_small a (2 ^ n)), <- (Z.mod_small b (2 ^ n)) by lia.
  rewrite <- !Z.land_ones, <- Z.land_lor_distr_l, Z.land_ones by lia.
  apply Z.mod_pos_bound. lia.
Qed.

Lemma lxor_below (n a b : Z) :
  (0 ≤ n)%Z → (0 ≤ a < 2 ^ n)%Z → (0 ≤ b < 2 ^ n)%Z → (0 ≤ Z.lxor a b < 2 ^ n)%Z.
Proof.
  intros Hn Ha Hb. split; [apply Z.lxor_nonneg; lia|].
  assert (Z.lxor a b = Z.land (Z.lxor a b) (Z.ones n)) as ->.
  { apply Z.bits_inj'. intros i Hi. rewrite Z.land_spec, !Z.lxor_spec.
    destruct (decide (i < n)%Z).
    - rewrite Z.ones_spec_low, andb_true_r by lia. done.
    - rewrite Z.ones_spec_high, andb_false_r by lia.
      rewrite <- (Z.mod_small a (2 ^ n)), <- (Z.mod_small b (2 ^ n)) by lia.
      rewrite !Z.mod_pow2_bits_high by lia. done. }
  rewrite Z.land_ones by lia. apply Z.mod_pos_bound. lia.
Qed.

(** One step of the loop on code units. *)
Lemma compare_step (r x y : Z) :
  (0 ≤ r < 2 ^ 16)%Z → (0 ≤ x < 2 ^ 16)%Z → (0 ≤ y < 2 ^ 16)%Z →
  (0 ≤ or r (xor x y) < 2 ^ 16)%Z ∧ (or r (xor x y) = 0%Z ↔ r = 0%Z ∧ x = y).
Proof.
  intros Hr Hx Hy. unfold or, xor.
  rewrite (ToInt32_small r), (ToInt32_small x), (ToInt32_small y) by lia.
  pose proof (lxor_below 16 x y ltac:(lia) Hx Hy) as Hxor.
  rewrite (ToInt32_small (Z.lxor x y)) by lia.
  split; [apply lor_below; lia|].
  rewrite Z.lor_eq_0_iff, Z.lxor_eq_0_iff. done.
Qed.

Lemma charCodeAt_range (s : jsstring) (i : nat) :
  is_string s → (0 ≤ charCodeAt s i < 2 ^ 16)%Z.
Proof.
  intros Hs. unfold charCodeAt. destruct (s !! i) as [c|] eqn:Hi; [|simpl; lia].
  simpl. eapply Forall_lookup_1 in Hs; [|done]. simpl in Hs. lia.
Qed.

Lemma compare_loop (a b : jsstring) (idx : list nat) (r : Z) :
  is_string a → is_string b → (0 ≤ r < 2 ^ 16)%Z →
  fold_left (λ result i, or result (xor (charCodeAt a i) (charCodeAt b i))) idx r = 0%Z
  ↔ r = 0%Z ∧ ∀ i, i ∈ idx → charCodeAt a i = charCodeAt b i.
Proof.
  intros Ha Hb. revert r. induction idx as [|i idx IH]; intros r Hr; cbn [fold_left].
  - split; [intros ->; split; [done|]; intros i Hi; by apply elem_of_nil in Hi | by intros [-> _]].
  - pose proof (compare_step r _ _ Hr (charCodeAt_range a i Ha) (charCodeAt_range b i Hb))
      as [Hrange Hzero].
    rewrite IH by done. rewrite Hzero. split.
    + intros [[-> Hi] His]. split; [done|]. intros j [->|Hj]%elem_of_cons; auto.
    + intros [-> His]. split; [split; [done|]|]; intros; apply His; by constructor.
Qed.

(** X11. On strings, whose code units are below 2^16,
    [constantTimeCompare] returns [true] exactly when the two strings are
    equal. *)
Theorem constantTimeCompare_equal (a b : jsstring) :
  is_string a → is_string b → constantTimeCompare a b = true ↔ a = b.
Proof.
  intros Ha Hb. unfold constantTimeCompare.
  destruct (length a =? length b)%nat eqn:Hlen; cbn [negb].
  - apply Nat.eqb_eq in Hlen. rewrite Z.eqb_eq, compare_loop by (done || lia).
    split.
    + intros [_ Hall]. apply list_eq_same_length with (length a); [done..|].
      intros i x y Hi Hx Hy. specialize (Hall i).
      unfold charCodeAt in Hall. rewrite Hx, Hy in Hall. simpl in Hall.
      assert (Z.of_N x = Z.of_N y) by (apply Hall, elem_of_seq; lia). lia.
    + by intros ->.
  - apply Nat.eqb_neq in Hlen. split; [done|]. by intros ->.
Qed.

End compare_facts.

Lemma constantTimeCompare_equal_witness :
  Compare.is_string (lit "s3cret") ∧ Compare.is_string (lit "s3creT")
  ∧ (Compare.constantTimeCompare (lit "s3cret") (lit "s3creT") = true
     ↔ lit "s3cret" = lit "s3creT").
Proof.
  assert (Compare.is_string (lit "s3cret")) as Ha by (repeat constructor).
  assert (Compare.is_string (lit "s3creT")) as Hb by (repeat constructor).
  split; [exact Ha|]. split; [exact Hb|].
  exact (constantTimeCompare_equal _ _ Ha Hb).
Defined.

(** ** Generated passwords *)

Section generator_facts.
Import Runtime JSString Generator.

Lemma includes_singleton (s : jsstring) (c : N) : includes s [c] = true ↔ c ∈ s.
Proof.
  induction s as [|a s IH]; cbn [includes startsWith].
  - split; [done | by intros ?%elem_of_nil].
  - replace (startsWith s []) with true by by destruct s.
    rewrite orb_true_iff, IH, andb_true_r, N.eqb_eq, elem_of_cons. done.
Qed.

Lemma without_elem (excluded charset : jsstring) (c : N) :
  c ∈ without excluded charset ↔ c ∈ charset ∧ c ∉ excluded.
Proof.
  unfold without. rewrite list_elem_of_In, filter_In, <- list_elem_of_In.
  rewrite negb_true_iff, <- not_true_iff_false, includes_singleton. done.
Qed.

Lemma charset_allowed (options : Options) (c : N) :
  c ∈ charset_of options → allowed options c.
Proof.
  unfold charset_of, allowed.
  destruct (excludeAmbiguous options), (excludeSimilar options),
    (includeUppercase options), (includeLowercase options), (includeNumbers options),
    (includeSymbols options); cbn zeta iota;
    rewrite ?without_elem, ?elem_of_app, ?elem_of_nil; intuition congruence.
Qed.

Lemma charset_nonempty (options : Options) :
  some_class options = true → charset_of options ≠ [].
Proof.
  unfold some_class, charset_of.
  destruct (excludeAmbiguous options), (excludeSimilar options),
    (includeUppercase options), (includeLowercase options), (includeNumbers options),
    (includeSymbols options); intros Hsome; try discriminate Hsome; by vm_compute.
Qed.

Lemma charset_empty (options : Options) :
  some_class options = false → charset_of options = [].
Proof.
  unfold some_class, charset_of.
  destruct (includeUppercase options), (includeLowercase options),
    (includeNumbers options), (includeSymbols options); intros Hsome;
    try discriminate Hsome.
  by destruct (excludeAmbiguous options), (excludeSimilar options).
Qed.

Lemma fold_append {A} (f : nat → list A) (idx : list nat) (acc : list A) :
  fold_left (λ result i, result ++ f i) idx acc = acc ++ mjoin (f <$> idx).
Proof.
  revert acc. induction idx as [|i idx IH]; intros acc; csimpl.
  - by rewrite app_nil_r.
  - by rewrite IH, <- app_assoc.
Qed.

(** A loop that appends one character of [chars] at each step. *)
Lemma fold_pick (chars : jsstring) (pick : nat → nat) (idx : list nat) :
  (∀ i, pick i < length chars)%nat →
  let result := fold_left (λ result i, result ++ charAt chars (pick i)) idx [] in
  length result = length idx ∧ Forall (λ c, c ∈ chars) result.
Proof.
  intros Hpick. cbn zeta. rewrite fold_append. cbn [app].
  induction idx as [|i idx [IHlen IHall]]; csimpl; [done|].
  destruct (lookup_lt_is_Some_2 chars (pick i) (Hpick i)) as [c Hc].
  unfold charAt at 1 3. rewrite Hc. change (option_list (Some c)) with [c].
  cbn [app length].
  split; [by rewrite IHlen|]. constructor; [by eapply list_elem_of_lookup_2 | done].
Qed.

(** X12. With at least one character class selected and a length of at most
    16384, [generateSecurePassword] returns a password of exactly the
    requested length, having drawn four random bytes per character.  Each of
    its characters belongs to one of the selected classes, is none of
    [il1Lo0O] when similar characters are excluded, and is none of the
    ambiguous punctuation when that is excluded. *)
Theorem generateSecurePassword_result (options : Options) (w : World) :
  some_class options = true → N.of_nat (opt_length options) ≤ 16384 →
  ∃ result,
    generateSecurePassword options w
    = (Ok result, set_random_drawn (random_drawn w + 4 * opt_length options) w)
    ∧ length result = opt_length options
    ∧ Forall (allowed options) result.
Proof.
  intros Hsome Hlen. pose proof (charset_nonempty options Hsome) as Hne.
  unfold generateSecurePassword. rewrite decide_False by done.
  rewrite M_bind_eq. unfold getRandomValues_Uint32.
  replace (65536 <? 4 * N.of_nat (opt_length options)) with false
    by (symmetry; apply N.ltb_ge; lia).
  rewrite M_bind_eq. cbn [getRandomValues].
  eexists. split; [reflexivity|].
  match goal with |- context [fold_left ?f ?idx []] =>
    pose proof (fold_pick (charset_of options)
      (λ i, N.to_nat (((λ i0, uint32 (take 4 (drop (4 * i0)
         (next_random (4 * opt_length options) w)))) <$> seq 0 (opt_length options)) !!! i
         mod N.of_nat (length (charset_of options)))) idx) as Hfold
  end.
  cbn zeta in Hfold. destruct Hfold as [Hl Hall].
  { intros i. assert (length (charset_of options) ≠ 0%nat)
      by (destruct (charset_of options); done).
    pose proof (N.mod_upper_bound
      (((λ i0, uint32 (take 4 (drop (4 * i0) (next_random (4 * opt_length options) w))))
          <$> seq 0 (opt_length options)) !!! i)
      (N.of_nat (length (charset_of options)))). lia. }
  split; [by rewrite Hl, length_seq|].
  eapply Forall_impl; [exact Hall|]. intros c. apply charset_allowed.
Qed.

(** X13. The edges of [generateSecurePassword].  With no character class
    selected it returns the empty string and draws nothing, whatever the
    length.  With a class selected and a length above 16384 the request for
    random values exceeds the quota of 65536 bytes and the call throws
    [QuotaExceededError], which the function does not catch.  For the length
    0 the result is the empty string. *)
Theorem generateSecurePassword_edges (options : Options) (w : World) :
  (some_class options = false → generateSecurePassword options w = (Ok [], w))
  ∧ (some_class options = true → 16384 < N.of_nat (opt_length options) →
     generateSecurePassword options w = (Throw QuotaExceededError, w))
  ∧ (opt_length options = 0%nat →
     generateSecurePassword options w = (Ok [], w)).
Proof.
  split_and!.
  - intros Hnone%charset_empty. unfold generateSecurePassword. by rewrite Hnone.
  - intros Hne%charset_nonempty Hlen. unfold generateSecurePassword.
    rewrite decide_False by done. rewrite M_bind_eq. unfold getRandomValues_Uint32.
    replace (65536 <? 4 * N.of_nat (opt_length options)) with true
      by (symmetry; apply N.ltb_lt; lia).
    done.
  - intros Hzero. unfold generateSecurePassword. destruct (decide _); [done|].
    rewrite M_bind_eq. unfold getRandomValues_Uint32. rewrite Hzero.
    cbn. unfold ret. f_equal. by destruct w; unfold set_random_drawn; cbn; rewrite Nat.add_0_r.
Qed.

End generator_facts.

(** ** Numbers as text, secrets and one-time codes *)

Section number_facts.
Import JSString JSNumber.

Lemma digits_app radix fuel n acc :
  digits radix fuel n acc = digits radix fuel n [] ++ acc.
Proof.
  revert n acc. induction fuel as [|fuel IH]; intros n acc; cbn [digits]; [done|].
  destruct (n / radix =? 0); [done|].
  rewrite IH, (IH _ [_]), <- app_assoc. done.
Qed.

(** A number below [radix ^ k] has at most [k] digits, each below the
    radix. *)
Lemma digits_length radix fuel n k :
  1 < radix → n < radix ^ N.of_nat k → (0 < k)%nat →
  (length (digits radix fuel n []) ≤ k)%nat.
Proof.
  intros Hr. revert n k. induction fuel as [|fuel IH]; intros n k Hn Hk; cbn [digits].
  - simpl. lia.
  - destruct (N.eqb_spec (n / radix) 0) as [|Hq]; [simpl; lia|].
    rewrite digits_app, length_app. cbn [length].
    destruct k as [|[|k]]; [lia| |].
    + exfalso. apply Hq. apply N.div_small. simpl in Hn. lia.
    + specialize (IH (n / radix) (S k)).
      assert (n / radix < radix ^ N.of_nat (S k)).
      { apply N.Div0.div_lt_upper_bound.
        replace (N.of_nat (S (S k))) with (N.succ (N.of_nat (S k))) in Hn by lia.
        by rewrite N.pow_succ_r' in Hn. }
      specialize (IH ltac:(done) ltac:(lia)). lia.
Qed.

Lemma digits_nonempty radix fuel n : digits radix (S fuel) n [] ≠ [].
Proof.
  cbn [digits]. destruct (n / radix =? 0); [done|].
  rewrite digits_app. by destruct (digits _ _ _ []).
Qed.

Lemma digits_range radix fuel n (P : N → Prop) :
  (∀ d, d < radix → P (hex_digit d)) → radix ≠ 0 →
  Forall P (digits radix fuel n []).
Proof.
  intros HP Hr. revert n. induction fuel as [|fuel IH]; intros n; cbn [digits].
  - constructor.
  - assert (P (hex_digit (n mod radix))) by (apply HP; by apply N.mod_upper_bound).
    destruct (n / radix =? 0); [by repeat constructor|].
    rewrite digits_app. apply Forall_app. split; [apply IH | by repeat constructor].
Qed.

Lemma hex_value_digit d : d < 16 → hex_value (hex_digit d) = Some d.
Proof.
  intros Hd. unfold hex_value, hex_digit, in_range.
  destruct (N.ltb_spec d 10).
  - replace (48 <=? 48 + d) with true by (symmetry; apply N.leb_le; lia).
    replace (48 + d <=? 57) with true by (symmetry; apply N.leb_le; lia).
    cbn. f_equal. lia.
  - replace (87 + d <=? 57) with false by (symmetry; apply N.leb_gt; lia).
    rewrite andb_false_r.
    replace (97 <=? 87 + d) with true by (symmetry; apply N.leb_le; lia).
    replace (87 + d <=? 102) with true by (symmetry; apply N.leb_le; lia).
    cbn. f_equal. lia.
Qed.

Lemma parse_hex_bound (s : jsstring) (acc : N) :
  is_hex_text s → parse_hex acc s < (acc + 1) * 16 ^ N.of_nat (length s).
Proof.
  intros Hs. revert acc. induction Hs as [|c s (d & Hd & Hc) _ IH]; intros acc.
  - cbn. lia.
  - cbn [parse_hex length]. rewrite Hc.
    replace (N.of_nat (S (length s))) with (N.succ (N.of_nat (length s))) by lia.
    rewrite N.pow_succ_r'. specialize (IH (acc * 16 + d)). nia.
Qed.

Lemma is_hex_text_digit d : d < 16 → is_hex_text [hex_digit d].
Proof.
  intros Hd. apply Forall_singleton. exists d. split; [done | by apply hex_value_digit].
Qed.

Lemma parse_hex_app (acc : N) (s t : jsstring) :
  is_hex_text s → parse_hex acc (s ++ t) = parse_hex (parse_hex acc s) t.
Proof.
  intros Hs. revert acc. induction Hs as [|c s (d & _ & Hc) _ IH]; intros acc; [done|].
  cbn [app parse_hex]. by rewrite Hc, IH.
Qed.

(** The hexadecimal digits of a number denote it. *)
Lemma parse_hex_digits (fuel : nat) (n : N) :
  n < 16 ^ N.of_nat fuel →
  is_hex_text (digits 16 fuel n []) ∧ parse_hex 0 (digits 16 fuel n []) = n.
Proof.
  revert n. induction fuel as [|fuel IH]; intros n Hn; cbn [digits].
  - split; [constructor | simpl in *; lia].
  - assert (n mod 16 < 16) as Hd by (by apply N.mod_upper_bound).
    destruct (N.eqb_spec (n / 16) 0) as [Hq|Hq].
    + split; [by apply is_hex_text_digit|]. cbn [parse_hex].
      rewrite hex_value_digit by done. cbn [parse_hex].
      pose proof (N.Div0.div_mod n 16). lia.
    + destruct (IH (n / 16)) as [Hhex Hval].
      { apply N.Div0.div_lt_upper_bound.
        replace (N.of_nat (S fuel)) with (N.succ (N.of_nat fuel)) in Hn by lia.
        by rewrite N.pow_succ_r' in Hn. }
      rewrite digits_app. split.
      * apply Forall_app. split; [done | by apply is_hex_text_digit].
      * rewrite parse_hex_app, Hval by done. cbn [parse_hex].
        rewrite hex_value_digit by done. cbn [parse_hex].
        pose proof (N.Div0.div_mod n 16). lia.
Qed.

(** [parseInt(n.toString(16), 16)] is [n], for a natural number [n]. *)
Lemma parseInt_toString_16 (n : N) : parseInt_16 (toString 16 (Z.of_N n)) = Some n.
Proof.
  unfold toString. rewrite Zabs2N.id.
  replace (Z.of_N n <? 0)%Z with false by (symmetry; apply Z.ltb_ge, N2Z.is_nonneg).
  destruct (parse_hex_digits (S (N.to_nat (N.log2 n))) n) as [Hhex Hval].
  { destruct (decide (n = 0)) as [->|Hn]; [done|].
    pose proof (N.log2_spec n ltac:(lia)) as [_ Hlt].
    eapply N.lt_le_trans; [exact Hlt|].
    replace (N.of_nat (S (N.to_nat (N.log2 n)))) with (N.succ (N.log2 n)) by lia.
    apply N.pow_le_mono_l. lia. }
  pose proof (digits_nonempty 16 (N.to_nat (N.log2 n)) n) as Hne.
  unfold parseInt_16. destruct (digits 16 _ n []) as [|c ds] eqn:Hds; [done|].
  apply Forall_cons in Hhex as [(d & _ & Hd) Hrest].
  rewrite bool_decide_eq_true_2 by (rewrite Hd; by eexists). by rewrite Hval.
Qed.

Example toString_examples :
  toString 16 255 = lit "ff" ∧ toString 16 (-255) = lit "-ff"
  ∧ toString 10 1000000 = lit "1000000" ∧ toString 10 0 = lit "0".
Proof. by vm_compute. Qed.

Lemma toString_16_nonneg (z : Z) :
  (0 ≤ z)%Z → toString 16 z ≠ [] ∧ is_hex_text (toString 16 z).
Proof.
  intros Hz. unfold toString. replace (z <? 0)%Z with false by (symmetry; apply Z.ltb_ge; lia).
  split; [apply digits_nonempty|].
  apply digits_range; [|done]. intros d Hd. exists d. split; [done|].
  by apply hex_value_digit.
Qed.

Lemma padStart_digits (k : nat) (s : jsstring) (P : N → Prop) :
  (length s ≤ k)%nat → P 48 → Forall P s →
  length (padStart k 48 s) = k ∧ Forall P (padStart k 48 s).
Proof.
  intros Hlen H0 Hs. unfold padStart. split.
  - rewrite length_app, length_replicate. lia.
  - apply Forall_app. split; [by apply Forall_replicate | done].
Qed.

End number_facts.

Section totp_facts.
Import Runtime JSString JSNumber TwoFactorAuth.

(** X14. For every secret, time and window the code of [generateTOTP] is
    exactly six decimal digits. *)
Theorem generateTOTP_six_digits (now : Z) (secret : jsstring) (window : Z) :
  length (generateTOTP now secret window) = 6%nat
  ∧ Forall is_decimal_digit (generateTOTP now secret window).
Proof.
  unfold generateTOTP. cbn zeta.
  set (hash := simpleHash _).
  assert (hash ≠ [] ∧ is_hex_text hash) as [Hne Hhex].
  { unfold hash, simpleHash. apply toString_16_nonneg. lia. }
  set (tail := slice_last 6 hash).
  assert (tail ≠ [] ∧ is_hex_text tail ∧ (length tail ≤ 6)%nat) as (Htne & Hthex & Htlen).
  { unfold tail, slice_last. split_and!.
    - intros Hnil. apply (f_equal length) in Hnil. rewrite length_drop in Hnil.
      destruct hash; [done|]. cbn [length] in Hnil. lia.
    - by apply Forall_drop.
    - rewrite length_drop. lia. }
  assert (∃ n, parseInt_16 tail = Some n) as [n ->].
  { unfold parseInt_16. destruct tail as [|c tail']; [done|].
    apply Forall_cons in Hthex as [(d & _ & Hd) _].
    rewrite bool_decide_eq_true_2 by (rewrite Hd; by eexists). by eexists. }
  apply padStart_digits.
  - unfold toString.
    replace (Z.of_N (n mod 1000000) <? 0)%Z with false
      by (symmetry; apply Z.ltb_ge, N2Z.is_nonneg).
    apply digits_length; [lia| |lia].
    rewrite Zabs2N.id. change (10 ^ N.of_nat 6) with 1000000.
    apply N.mod_upper_bound. lia.
  - unfold is_decimal_digit. lia.
  - unfold toString.
    replace (Z.of_N (n mod 1000000) <? 0)%Z with false
      by (symmetry; apply Z.ltb_ge, N2Z.is_nonneg).
    apply digits_range; [|done]. intros d Hd. unfold is_decimal_digit, hex_digit.
    destruct (N.ltb_spec d 10); lia.
Qed.

(** The hash of [abc]: 97, then 97 * 31 + 98 = 3105, then
    3105 * 31 + 99 = 96354, in hexadecimal. *)
Example simpleHash_abc : simpleHash (lit "abc") = lit "17862".
Proof. by vm_compute. Qed.

Example generateTOTP_example :
  generateTOTP 1700000000000 (lit "JBSWY3DPEHPK3PXP") 0 = lit "309249".
Proof. by vm_compute. Qed.

Lemma fold_index (chars : jsstring) (pick : nat → nat) (idx : list nat) :
  (∀ i, pick i < length chars)%nat →
  let result := fold_left (λ result i, result ++ index_text chars (pick i)) idx [] in
  length result = length idx ∧ Forall (λ c, c ∈ chars) result.
Proof.
  intros Hpick. cbn zeta. rewrite fold_append. cbn [app].
  induction idx as [|i idx [IHlen IHall]]; csimpl; [done|].
  destruct (lookup_lt_is_Some_2 chars (pick i) (Hpick i)) as [c Hc].
  unfold index_text at 1 3. rewrite Hc. cbn [from_option app length].
  split; [by rewrite IHlen|]. constructor; [by eapply list_elem_of_lookup_2 | done].
Qed.

(** X15. [generateSecret] draws 32 random bytes and returns 32 characters of
    the Base32 alphabet (A to Z and 2 to 7). *)
Theorem generateSecret_base32 (w : World) :
  ∃ secret,
    generateSecret w = (Ok secret, set_random_drawn (random_drawn w + 32) w)
    ∧ length secret = 32%nat
    ∧ Forall is_base32 secret.
Proof.
  unfold generateSecret. cbn zeta. rewrite M_bind_eq. cbn [getRandomValues].
  eexists. split; [reflexivity|].
  match goal with |- context [fold_left ?f ?idx []] =>
    pose proof (fold_index (lit "ABCDEFGHIJKLMNOPQRSTUVWXYZ234567")
      (λ i, N.to_nat (Byte.to_N (next_random 32 w !!! i)
              mod N.of_nat (length (lit "ABCDEFGHIJKLMNOPQRSTUVWXYZ234567")))) idx) as Hfold
  end.
  cbn zeta in Hfold. destruct Hfold as [Hl Hall].
  { intros i.
    pose proof (N.mod_upper_bound (Byte.to_N (next_random 32 w !!! i))
      (N.of_nat (length (lit "ABCDEFGHIJKLMNOPQRSTUVWXYZ234567")))). 
    change (length (lit "ABCDEFGHIJKLMNOPQRSTUVWXYZ234567")) with 32%nat in *. lia. }
  split; [by rewrite Hl|].
  eapply Forall_impl; [exact Hall|]. intros c Hc. unfold is_base32.
  revert Hc. cbv [lit fmap list_fmap String.list_ascii_of_string N_of_ascii N_of_digits].
  cbn. rewrite !elem_of_cons, elem_of_nil. lia.
Qed.

End totp_facts.

(** ** Login, logout and saving *)

Section session_facts.
Context `{Env} `{Host}.
Import Encoding Base64 JSString Runtime Storage CryptoManager AppContext AppProvider.
Import BiometricManager AppSession SessionStates.

Lemma isAvailable_available : isAvailable = Ok available.
Proof.
  unfold available. unfold isAvailable.
  destruct PublicKeyCredential_defined; [|done]. cbn [negb].
  by destruct isUserVerifyingPlatformAuthenticatorAvailable.
Qed.

Lemma try_catch_eq {A} (body : M A) (handler : JSError → M A) (w : World) :
  Runtime.try_catch body handler w
  = match body w with
    | (Ok a, w') => (Ok a, w')
    | (Throw e, w') => handler e w'
    end.
Proof. done. Qed.

Lemma mret_eq {A} (a : A) (w : World) : (mret a : M A) w = (Ok a, w).
Proof. done. Qed.

(** [login] with a passphrase, step by step. *)
Lemma login_passphrase (masterPassword : jsstring) (digest : list byte) (w : World) :
  masterPassword ≠ [] →
  subtle_digest SHA_256 (TextEncoder_encode masterPassword) = Ok digest →
  login masterPassword w =
    match localStorage w !! getUserStorageKey (hex digest) with
    | Some (c :: blob') =>
        let blob := c :: blob' in
        match decrypt blob masterPassword with
        | Ok text =>
            match JSON_parse_vault text with
            | Ok data =>
                let w1 := set_app_state (loaded data (app_state w)) w in
                match (getAllUsers w1).1 with
                | Ok users => (Ok true, logged_in w (hex digest) masterPassword blob data users)
                | Throw _ => (Ok false, w1)
                end
            | Throw _ => (Ok false, w)
            end
        | Throw _ => (Ok false, w)
        end
    | _ => (Ok false, w)
    end.
Proof.
  intros Hne Hhash%getUserHash_digest. unfold login.
  rewrite try_catch_eq, M_bind_eq. rewrite decide_False by done.
  rewrite mret_eq.
  rewrite M_bind_eq. cbn [lift]. rewrite Hhash. cbn zeta.
  rewrite M_bind_eq. cbn [localStorage_getItem].
  destruct (localStorage w !! getUserStorageKey (hex digest)) as [[|c blob']|] eqn:Hblob;
    cbn [truthy negb]; [by rewrite mret_eq| |by rewrite mret_eq].
  change (default [] (Some (c :: blob'))) with (c :: blob').
  rewrite try_catch_eq, M_bind_eq. cbn [lift].
  destruct (decrypt (c :: blob') masterPassword) as [text|e];
    [|cbn beta iota; by rewrite !mret_eq].
  rewrite M_bind_eq. cbn [lift].
  destruct (JSON_parse_vault text) as [data|e]; [|cbn beta iota; by rewrite !mret_eq].
  rewrite M_bind_eq. cbn [dispatch].
  rewrite M_bind_eq.
  assert ((match stored_settings data with
           | Some settings => dispatch (UPDATE_SETTINGS settings)
           | None => mret tt
           end)
            (set_app_state
               (appReducer (app_state w) (SET_PASSWORDS (default [] (stored_passwords data))))
               w)
          = (Ok tt, set_app_state (loaded data (app_state w)) w)) as ->.
  { unfold loaded. by destruct (stored_settings data). }
  set (w1 := set_app_state (loaded data (app_state w)) w). cbn zeta.
  rewrite M_bind_eq.
  destruct (getAllUsers w1) as [[users|e] w1'] eqn:Husers.
  - rewrite (addUserToList_eq _ _ users) by by rewrite Husers.
    repeat (rewrite M_bind_eq; cbn [sessionStorage_setItem lift]).
    rewrite isAvailable_available.
    unfold logged_in. cbn zeta. destruct available.
    + rewrite M_bind_eq, try_catch_eq. unfold storeFallbackData.
      rewrite try_catch_eq. cbn [localStorage_setItem].
      rewrite M_bind_eq. cbn [dispatch]. done.
    + rewrite M_bind_eq, mret_eq.
      rewrite M_bind_eq. cbn [dispatch]. done.
  - cbn [fst]. unfold addUserToList. rewrite M_bind_eq, Husers.
    rewrite getAllUsers_eq in Husers. by injection Husers as _ <-.
Qed.

End session_facts.

Section login_facts.
Context `{Env} `{Host}.
Import Encoding Base64 JSString Runtime Storage CryptoManager AppContext AppProvider.
Import BiometricManager AppSession SessionStates.

Lemma login_total (masterPassword : jsstring) (w : World) :
  ∃ b, (login masterPassword w).1 = Ok b.
Proof.
  unfold login. rewrite try_catch_eq.
  match goal with |- context [let (_, _) := ?body in _] =>
    destruct body as [[b|e] w']
  end; [by exists b | by exists false].
Qed.

Lemma login_digest_fails (masterPassword : jsstring) (e : JSError) (w : World) :
  masterPassword ≠ [] →
  subtle_digest SHA_256 (TextEncoder_encode masterPassword) = Throw e →
  login masterPassword w = (Ok false, w).
Proof.
  intros Hne Hhash. unfold login.
  rewrite try_catch_eq, M_bind_eq. rewrite decide_False by done.
  rewrite mret_eq, M_bind_eq. cbn [lift]. unfold getUserHash. by rewrite Hhash.
Qed.

Lemma loaded_passwords (data : StoredData) (state : AppState) :
  passwords (loaded data state) = default [] (stored_passwords data).
Proof. unfold loaded. by destruct (stored_settings data). Qed.

(** X16. [login] with a non-empty passphrase returns [true] only if a blob
    is stored under the key of the hash of the passphrase, [decrypt] with
    the passphrase accepts it, and the plaintext parses.  The entries of the
    state are then those of the parsed data (none when it has no
    [passwords]), the state is authenticated and the passphrase is kept in
    session storage. *)
Theorem login_requires_decryption (masterPassword : jsstring) (w : World) :
  masterPassword ≠ [] →
  (login masterPassword w).1 = Ok true →
  ∃ digest blob text data users,
    subtle_digest SHA_256 (TextEncoder_encode masterPassword) = Ok digest
    ∧ localStorage w !! getUserStorageKey (hex digest) = Some blob
    ∧ decrypt blob masterPassword = Ok text
    ∧ JSON_parse_vault text = Ok data
    ∧ (login masterPassword w).2 = logged_in w (hex digest) masterPassword blob data users
    ∧ passwords (app_state (login masterPassword w).2) = default [] (stored_passwords data)
    ∧ isAuthenticated (app_state (login masterPassword w).2) = true
    ∧ sessionStorage (login masterPassword w).2 !! lit "masterPassword"
      = Some masterPassword.
Proof.
  intros Hne.
  destruct (subtle_digest SHA_256 (TextEncoder_encode masterPassword)) as [digest|e]
    eqn:Hdigest; [|by rewrite (login_digest_fails _ e)].
  rewrite (login_passphrase _ digest) by done.
  destruct (localStorage w !! _) as [[|c blob']|] eqn:Hblob; [done| |done]. cbn zeta.
  destruct (decrypt (c :: blob') masterPassword) as [text|e] eqn:Hdec; [|done].
  destruct (JSON_parse_vault text) as [data|e] eqn:Hparse; [|done].
  destruct (getAllUsers _).1 as [users|e]; [|done]. intros _.
  exists digest, (c :: blob'), text, data, users. cbn [snd].
  split_and!; [done..| | |].
  - unfold logged_in. cbn [app_state appReducer set_isAuthenticated passwords].
    apply loaded_passwords.
  - done.
  - unfold logged_in. cbn [sessionStorage].
    rewrite lookup_insert_ne by done. apply lookup_insert_eq.
Qed.

(** X17. A failed [login] with a non-empty passphrase returns [false] and
    changes nothing, neither storage nor state: when the hashing throws,
    when nothing (or the empty string) is stored under the key of the hash,
    when [decrypt] rejects the stored blob, and when the plaintext does not
    parse. *)
Theorem login_failure_changes_nothing (masterPassword : jsstring) (w : World) :
  masterPassword ≠ [] →
  (∀ e, subtle_digest SHA_256 (TextEncoder_encode masterPassword) = Throw e →
        login masterPassword w = (Ok false, w))
  ∧ (∀ digest,
       subtle_digest SHA_256 (TextEncoder_encode masterPassword) = Ok digest →
       let stored := localStorage w !! getUserStorageKey (hex digest) in
       (truthy stored = false → login masterPassword w = (Ok false, w))
       ∧ (∀ blob e, stored = Some blob → decrypt blob masterPassword = Throw e →
            login masterPassword w = (Ok false, w))
       ∧ (∀ blob text e, stored = Some blob → decrypt blob masterPassword = Ok text →
            JSON_parse_vault text = Throw e →
            login masterPassword w = (Ok false, w))).
Proof.
  intros Hne. split; [intros e; by apply login_digest_fails|].
  intros digest Hdigest. cbn zeta. rewrite (login_passphrase _ digest) by done.
  split_and!.
  - by destruct (localStorage w !! _) as [[|c blob']|].
  - intros blob e -> Hdec. destruct blob; [done|]. cbn zeta. by rewrite Hdec.
  - intros blob text e -> Hdec Hparse. destruct blob; [done|]. cbn zeta.
    by rewrite Hdec, Hparse.
Qed.

Lemma logout_eq (w : World) :
  logout w =
    (Ok tt,
     set_app_state initialState
       (set_sessionStorage
          (delete (lit "currentUserHash") (delete (lit "masterPassword") (sessionStorage w)))
          w)).
Proof. done. Qed.

Lemma saveData_eq (ps : list PasswordEntry) (st : Settings) (w : World) :
  saveData ps st w =
    if truthy (sessionStorage w !! lit "masterPassword")
       && truthy (sessionStorage w !! lit "currentUserHash")
    then
      let data :=
        JSON_stringify_vault (snapshot ps (categories (app_state w)) st (clock w)) in
      match encrypt data (default [] (sessionStorage w !! lit "masterPassword")) w with
      | (Ok encrypted, w') =>
          (Ok tt,
           set_localStorage
             (<[getUserStorageKey (default [] (sessionStorage w !! lit "currentUserHash")) :=
                  encrypted]> (localStorage w')) w')
      | (Throw _, w') => (Ok tt, w')
      end
    else (Ok tt, w).
Proof.
  unfold saveData. rewrite M_bind_eq. cbn [sessionStorage_getItem].
  rewrite M_bind_eq. cbn [sessionStorage_getItem].
  destruct (truthy _ && truthy _); [|done]. cbn zeta.
  rewrite try_catch_eq, M_bind_eq. cbn [get_state].
  rewrite M_bind_eq. cbn [now_iso]. rewrite M_bind_eq.
  destruct (encrypt _ _ w) as [[encrypted|e] w']; done.
Qed.

(** X18. [logout] removes the passphrase and the user hash from session
    storage, resets the state to the initial one and leaves local storage
    untouched.  After it nothing is saved any more: [saveData], with any
    arguments, and the save effect change nothing. *)
Theorem logout_ends_persistence (w : World) :
  let w' := (logout w).2 in
  (logout w).1 = Ok tt
  ∧ sessionStorage w' !! lit "masterPassword" = None
  ∧ sessionStorage w' !! lit "currentUserHash" = None
  ∧ app_state w' = initialState
  ∧ localStorage w' = localStorage w
  ∧ (∀ ps st, saveData ps st w' = (Ok tt, w'))
  ∧ saveEffect w' = (Ok tt, w').
Proof.
  cbn zeta. rewrite logout_eq. cbn [fst snd]. split_and!; try done.
  - cbn [sessionStorage set_sessionStorage set_app_state].
    rewrite lookup_delete_ne by done. apply lookup_delete_eq.
  - cbn [sessionStorage set_sessionStorage set_app_state]. apply lookup_delete_eq.
  - intros ps st. rewrite saveData_eq.
    cbn [sessionStorage set_sessionStorage set_app_state].
    rewrite lookup_delete_ne by done. by rewrite lookup_delete_eq.
Qed.

(** A save never throws. *)
Lemma saveData_total (ps : list PasswordEntry) (st : Settings) (w : World) :
  (saveData ps st w).1 = Ok tt.
Proof.
  rewrite saveData_eq. destruct (_ && _); [|done]. cbn zeta.
  by destruct (encrypt _ _ w) as [[encrypted|e] w'].
Qed.

(** The biometric path of [login]. *)
Lemma login_biometric_eq (w : World) :
  available = true →
  login [] w =
    let w1 := set_random_drawn (random_drawn w + 32) w in
    match credentials_get (next_random 32 w) with
    | Ok (Some {| userHandle := Some handle |}) =>
        let userHandle := TextDecoder_decode handle in
        if truthy (Some userHandle) && truthy (localStorage w !! fallbackKey userHandle)
        then
          (Ok true,
           set_app_state (appReducer (app_state w) LOGIN)
             (set_sessionStorage
                (<[lit "currentUserHash" := userHandle]> (sessionStorage w)) w1))
        else (Ok false, w1)
    | _ => (Ok false, w1)
    end.
Proof.
  intros Hav. unfold login. rewrite try_catch_eq, M_bind_eq.
  rewrite decide_True by done. cbn [lift]. rewrite isAvailable_available, Hav.
  rewrite M_bind_eq. unfold authenticate. rewrite try_catch_eq, M_bind_eq.
  cbn [lift]. rewrite isAvailable_available, Hav. cbn [negb].
  rewrite M_bind_eq. cbn [getRandomValues]. rewrite M_bind_eq. cbn [lift]. cbn zeta.
  destruct (credentials_get (next_random 32 w)) as [[[[handle|]]|]|e];
    cbn [userHandle]; rewrite ?mret_eq; cbn beta iota; rewrite ?mret_eq; try done.
  destruct (TextDecoder_decode handle) as [|c handle'] eqn:Hhandle;
    [by (cbn [truthy andb]; rewrite ?mret_eq)|].
  cbn [truthy andb]. change (default [] (Some (c :: handle'))) with (c :: handle').
  rewrite M_bind_eq. unfold retrieveFallbackData. rewrite try_catch_eq.
  cbn [localStorage_getItem localStorage set_random_drawn].
  destruct (truthy (localStorage w !! _)); [|by rewrite mret_eq].
  rewrite M_bind_eq. cbn [sessionStorage_setItem]. rewrite M_bind_eq. cbn [dispatch].
  by rewrite mret_eq.
Qed.

(** X19. The biometric path of [login] (empty passphrase, authenticator
    available) never reads a vault: whatever its outcome, local storage, the
    entries and settings of the state and the passphrase slot of the session
    are as before.  It returns [true] exactly when the authenticator asserts
    a user handle that decodes to a non-empty string under which fallback
    data is stored; the state is then authenticated and, if the session
    held no passphrase, [saveData] changes nothing afterwards. *)
Theorem login_biometric_skips_vault (w : World) :
  available = true →
  let w' := (login [] w).2 in
  localStorage w' = localStorage w
  ∧ passwords (app_state w') = passwords (app_state w)
  ∧ settings (app_state w') = settings (app_state w)
  ∧ sessionStorage w' !! lit "masterPassword" = sessionStorage w !! lit "masterPassword"
  ∧ ((login [] w).1 = Ok true ↔
       ∃ handle,
         credentials_get (next_random 32 w) = Ok (Some {| userHandle := Some handle |})
         ∧ TextDecoder_decode handle ≠ []
         ∧ truthy (localStorage w !! fallbackKey (TextDecoder_decode handle)) = true)
  ∧ ((login [] w).1 = Ok true →
       isAuthenticated (app_state w') = true
       ∧ ∀ ps st, truthy (sessionStorage w !! lit "masterPassword") = false →
                  saveData ps st w' = (Ok tt, w')).
Proof.
  intros Hav. cbn zeta. rewrite login_biometric_eq by done. cbn zeta.
  destruct (credentials_get (next_random 32 w)) as [[[[handle|]]|]|e];
    try (cbn [fst snd]; split_and!; try done;
         split; [done | intros (handle' & [=] & _)]).
  destruct (TextDecoder_decode handle) as [|c handle'] eqn:Hhandle.
  { cbn [truthy andb fst snd]. split_and!; try done.
    split; [done|]. intros (handle2 & [= <-] & Hne & _). by rewrite Hhandle in Hne. }
  cbn [truthy andb].
  destruct (truthy (localStorage w !! _)) eqn:Hfb; cbn [fst snd].
  - split_and!; try done.
    + cbn [sessionStorage set_app_state set_sessionStorage].
      by rewrite lookup_insert_ne.
    + split; [|done]. intros _. exists handle. by rewrite Hhandle.
    + intros _. split; [done|]. intros ps st Hmp. rewrite saveData_eq.
      cbn [sessionStorage set_app_state set_sessionStorage].
      rewrite lookup_insert_ne by done. by rewrite Hmp.
  - split_and!; try done.
    split; [done|]. intros (handle2 & [= <-] & _ & Htr). rewrite Hhandle in Htr. congruence.
Qed.

End login_facts.

Section vault_facts.
Context `{Env} `{Host} `{!EnvLaws}.
Import Encoding Base64 JSString Runtime Storage CryptoManager AppContext AppProvider.
Import BiometricManager AppSession SessionStates.

Lemma default_Some {A} (d a : A) : default d (Some a) = a.
Proof. done. Qed.

Lemma storage_key_ne_fallback (h h' : jsstring) : getUserStorageKey h ≠ fallbackKey h'.
Proof. done. Qed.


(** X21. Sign up, log out, log in.  After a [signup] with a new non-empty
    passphrase and a [logout], which leaves the state unauthenticated and
    removes the passphrase from session storage, [login] with the same
    passphrase succeeds (provided the bytes of the first blob fit in one
    call and [JSON.parse] reads what [signup] serialised): the state is
    authenticated, its entries are those parsed
    from the initial vault, the session holds the passphrase and the hash,
    and the stored blob is still the one that [signup] wrote. *)
Theorem signup_logout_login (masterPassword : jsstring) (digest : list byte)
    (users users' : list UserInfo) (data : StoredData) (w : World) :
  masterPassword ≠ [] →
  subtle_digest SHA_256 (TextEncoder_encode masterPassword) = Ok digest →
  truthy (localStorage w !! getUserStorageKey (hex digest)) = false →
  (getAllUsers w).1 = Ok users →
  N.of_nat (length (TextEncoder_encode (JSON_stringify_vault (initialData (clock w)))))
    + 64 ≤ max_arguments →
  JSON_parse_vault (JSON_stringify_vault (initialData (clock w))) = Ok data →
  JSON_parse_users
    (JSON_stringify_users (registered users (hex digest) masterPassword (clock w)))
    = Ok users' →
  let w1 := (signup masterPassword w).2 in
  let w2 := (logout w1).2 in
  let w3 := (login masterPassword w2).2 in
  (signup masterPassword w).1 = Ok true
  ∧ isAuthenticated (app_state w2) = false
  ∧ sessionStorage w2 !! lit "masterPassword" = None
  ∧ (login masterPassword w2).1 = Ok true
  ∧ isAuthenticated (app_state w3) = true
  ∧ passwords (app_state w3) = default [] (stored_passwords data)
  ∧ sessionStorage w3 !! lit "masterPassword" = Some masterPassword
  ∧ sessionStorage w3 !! lit "currentUserHash" = Some (hex digest)
  ∧ localStorage w3 !! getUserStorageKey (hex digest)
    = localStorage w1 !! getUserStorageKey (hex digest).
Proof.
  intros Hne Hdigest Hfree Husers Hfit Hparse Hparse_users. cbn zeta.
  destruct (signup_fresh masterPassword digest users w Hdigest Hfree Husers Hfit)
    as (blob & _ & Hblob & Hdec & ->). cbn [fst snd].
  rewrite logout_eq. cbn [snd].
  set (w1 := signed_up w (hex digest) masterPassword blob _).
  set (w2 := set_app_state initialState _).
  assert (localStorage w2 !! getUserStorageKey (hex digest) = Some blob) as Hstored.
  { unfold w2, w1, signed_up. cbn [localStorage set_app_state set_sessionStorage].
    rewrite lookup_insert_ne by (intros Heq; by eapply storage_key_ne_users).
    apply lookup_insert_eq. }
  assert (∃ users2, (getAllUsers (set_app_state (loaded data (app_state w2)) w2)).1
                    = Ok users2) as [users2 Husers2].
  { rewrite getAllUsers_eq. cbn [fst localStorage set_app_state].
    unfold w2, w1, signed_up. cbn [localStorage set_app_state set_sessionStorage].
    rewrite lookup_insert_eq, default_Some, Hparse_users.
    destruct (truthy (Some _)); by eexists. }
  rewrite (login_passphrase _ digest) by done. rewrite Hstored.
  destruct blob as [|c blob']; [done|]. cbn zeta. rewrite Hdec, Hparse, Husers2.
  cbn [fst snd]. split_and!; try done.
  - unfold w2. cbn [sessionStorage set_sessionStorage set_app_state].
    rewrite lookup_delete_ne by done. apply lookup_delete_eq.
  - unfold logged_in. cbn [app_state appReducer set_isAuthenticated passwords].
    apply loaded_passwords.
  - unfold logged_in. cbn [sessionStorage]. rewrite lookup_insert_ne by done.
    apply lookup_insert_eq.
  - unfold logged_in. cbn [sessionStorage]. apply lookup_insert_eq.
  - unfold logged_in. cbn [localStorage].
    assert (localStorage w1 !! getUserStorageKey (hex digest) = Some (c :: blob')) as ->.
    { unfold w1, signed_up. cbn [localStorage].
      rewrite lookup_insert_ne by (intros Heq; by eapply storage_key_ne_users).
      apply lookup_insert_eq. }
    destruct available.
    + rewrite lookup_insert_ne by (intros Heq; by eapply storage_key_ne_fallback).
      by rewrite lookup_insert_ne by (intros Heq; by eapply storage_key_ne_users).
    + by rewrite lookup_insert_ne by (intros Heq; by eapply storage_key_ne_users).
Qed.

End vault_facts.

(** ** Deleting accounts *)

Section delete_facts.
Context `{Env}.
Import Encoding JSString Runtime Storage AppContext AppProvider AppSession.

Lemma without_user_spec (userHash : jsstring) (users : list UserInfo) (u : UserInfo) :
  u ∈ without_user userHash users ↔ u ∈ users ∧ ui_hash u ≠ userHash.
Proof.
  unfold without_user. rewrite list_elem_of_In, filter_In, <- list_elem_of_In.
  by rewrite bool_decide_eq_true.
Qed.

Lemma deleteUser_eq (userHash : jsstring) (w : World) :
  deleteUser userHash w =
    let w1 := set_localStorage (delete (getUserStorageKey userHash) (localStorage w)) w in
    match (getAllUsers w1).1 with
    | Ok users =>
        (Ok tt,
         set_localStorage
           (<[getUsersListKey := JSON_stringify_users (without_user userHash users)]>
              (localStorage w1)) w1)
    | Throw e => (Throw e, w1)
    end.
Proof.
  unfold deleteUser. cbn zeta. rewrite M_bind_eq. cbn [localStorage_removeItem].
  rewrite M_bind_eq, getAllUsers_eq. cbn [fst].
  by destruct (if truthy _ then _ else _).
Qed.

(** Removing a vault does not touch the users list. *)
Lemma getAllUsers_after_delete (digest : list byte) (w : World) :
  (getAllUsers (set_localStorage (delete (getUserStorageKey (hex digest)) (localStorage w))
                  w)).1
  = (getAllUsers w).1.
Proof.
  rewrite !getAllUsers_eq. cbn [fst localStorage set_localStorage].
  rewrite lookup_delete_ne by apply storage_key_ne_users. done.
Qed.

(** X22. [deleteUser] for a user hash removes the vault stored under its
    key and leaves every key other than that one and the users list, the
    session and the state as they are.  When the users list can be read it
    is written back without the records of that hash, all other records
    kept; when it cannot, the call throws after the vault is removed. *)
Theorem deleteUser_removes_account (digest : list byte) (w : World) :
  let userHash := hex digest in
  let w' := (deleteUser userHash w).2 in
  localStorage w' !! getUserStorageKey userHash = None
  ∧ (∀ k, k ≠ getUserStorageKey userHash → k ≠ getUsersListKey →
          localStorage w' !! k = localStorage w !! k)
  ∧ sessionStorage w' = sessionStorage w ∧ app_state w' = app_state w
  ∧ (∀ users, (getAllUsers w).1 = Ok users →
       (deleteUser userHash w).1 = Ok tt
       ∧ localStorage w' !! getUsersListKey
         = Some (JSON_stringify_users (without_user userHash users))
       ∧ ∀ u, u ∈ without_user userHash users ↔ u ∈ users ∧ ui_hash u ≠ userHash)
  ∧ (∀ e, (getAllUsers w).1 = Throw e →
       (deleteUser userHash w).1 = Throw e
       ∧ localStorage w' = delete (getUserStorageKey userHash) (localStorage w)).
Proof.
  cbn zeta. rewrite deleteUser_eq. cbn zeta.
  rewrite getAllUsers_after_delete.
  destruct (getAllUsers w).1 as [users|e]; cbn [fst snd].
  - split_and!; try done.
    + cbn [localStorage set_localStorage].
      rewrite lookup_insert_ne by (intros Heq; by eapply storage_key_ne_users).
      apply lookup_delete_eq.
    + intros k Hk Hk'. cbn [localStorage set_localStorage].
      rewrite lookup_insert_ne by done. by rewrite lookup_delete_ne.
    + intros users0 [= <-]. split; [done|]. split.
      * cbn [localStorage set_localStorage]. apply lookup_insert_eq.
      * apply without_user_spec.
  - split_and!; try done.
    + cbn [localStorage set_localStorage]. apply lookup_delete_eq.
    + intros k Hk Hk'. cbn [localStorage set_localStorage]. by rewrite lookup_delete_ne.
    + intros e0 [= <-]. done.
Qed.

Lemma clearAllData_eq (w : World) :
  clearAllData w =
    match sessionStorage w !! lit "currentUserHash" with
    | Some (c :: h) =>
        match deleteUser (c :: h) w with
        | (Ok _, w') => (Ok tt, set_app_state (set_isAuthenticated true initialState) w')
        | (Throw e, w') => (Throw e, w')
        end
    | _ => (Ok tt, set_app_state (set_isAuthenticated true initialState) w)
    end.
Proof.
  unfold clearAllData. rewrite M_bind_eq. unfold getCurrentUser.
  cbn [sessionStorage_getItem]. rewrite M_bind_eq.
  by destruct (sessionStorage w !! lit "currentUserHash") as [[|c h]|].
Qed.

(** X23. [clearAllData] in a session of the user with the given hash
    (with a readable users list) removes the vault of that user and the
    records of the user from the users list, touches no other key and not
    the session, and resets the state to the initial one with the
    authentication flag set: no entries, default categories and settings. *)
Theorem clearAllData_resets (digest : list byte) (users : list UserInfo) (w : World) :
  sessionStorage w !! lit "currentUserHash" = Some (hex digest) → digest ≠ [] →
  (getAllUsers w).1 = Ok users →
  let w' := (clearAllData w).2 in
  (clearAllData w).1 = Ok tt
  ∧ localStorage w' !! getUserStorageKey (hex digest) = None
  ∧ localStorage w' !! getUsersListKey
    = Some (JSON_stringify_users (without_user (hex digest) users))
  ∧ (∀ k, k ≠ getUserStorageKey (hex digest) → k ≠ getUsersListKey →
          localStorage w' !! k = localStorage w !! k)
  ∧ sessionStorage w' = sessionStorage w
  ∧ app_state w' = set_isAuthenticated true initialState
  ∧ passwords (app_state w') = [] ∧ isAuthenticated (app_state w') = true.
Proof.
  intros Hh Hne Husers. cbn zeta. rewrite clearAllData_eq, Hh.
  destruct (hex digest) as [|c h] eqn:Hhex.
  { destruct digest; [done|]. done. }
  rewrite <- Hhex. rewrite deleteUser_eq. cbn zeta.
  rewrite getAllUsers_after_delete, Husers. cbn [fst snd].
  cbn [localStorage sessionStorage app_state set_localStorage set_app_state].
  split_and!; try done.
  - rewrite lookup_insert_ne by (intros Heq; by eapply storage_key_ne_users).
    apply lookup_delete_eq.
  - apply lookup_insert_eq.
  - intros k Hk Hk'. rewrite lookup_insert_ne by done. by rewrite lookup_delete_ne.
Qed.

End delete_facts.

(** ** Biometric login *)

Section biometric_facts.
Context `{Env} `{Host}.
Import Encoding Base64 JSString Runtime Storage CryptoManager AppContext AppProvider.
Import BiometricManager AppSession SessionStates.

Lemma hex_nonempty (digest : list byte) : digest ≠ [] → hex digest ≠ [].
Proof. by destruct digest. Qed.

(** X24. Biometric login after a login with the passphrase.  On a
    platform with an authenticator, a successful [login] with the passphrase
    leaves the fallback copy that lets a later biometric [login], after a
    [logout], succeed when the authenticator asserts the hash of the user as
    user handle.  That session is authenticated but holds no entries and no
    passphrase: the vault is not decrypted, its stored blob stays as it was
    and the save effect writes nothing. *)
Theorem biometric_login_after_login (masterPassword : jsstring) (digest handle : list byte)
    (w : World) :
  let w1 := (login masterPassword w).2 in
  let w2 := (logout w1).2 in
  let w3 := (login [] w2).2 in
  available = true → masterPassword ≠ [] →
  subtle_digest SHA_256 (TextEncoder_encode masterPassword) = Ok digest → digest ≠ [] →
  (login masterPassword w).1 = Ok true →
  credentials_get (next_random 32 w2) = Ok (Some {| userHandle := Some handle |}) →
  TextDecoder_decode handle = hex digest →
  (login [] w2).1 = Ok true
  ∧ isAuthenticated (app_state w3) = true
  ∧ passwords (app_state w3) = []
  ∧ sessionStorage w3 !! lit "currentUserHash" = Some (hex digest)
  ∧ sessionStorage w3 !! lit "masterPassword" = None
  ∧ localStorage w3 = localStorage w1
  ∧ saveEffect w3 = (Ok tt, w3).
Proof.
  cbn zeta. intros Hav Hne Hdigest Hdne Hlogin Hcred Hhandle.
  pose proof (login_passphrase masterPassword digest w Hne Hdigest) as Heq.
  rewrite Heq in Hlogin, Hcred |- *. clear Heq.
  destruct (localStorage w !! _) as [[|c blob']|] eqn:Hblob; [done| |done].
  cbn zeta in Hlogin, Hcred |- *.
  destruct (decrypt (c :: blob') masterPassword) as [text|e]; [|done].
  destruct (JSON_parse_vault text) as [data|e]; [|done].
  destruct (getAllUsers _).1 as [users|e]; [|done]. cbn [snd] in Hcred |- *.
  rewrite logout_eq in Hcred |- *. cbn [snd] in Hcred |- *.
  set (w1 := logged_in w (hex digest) masterPassword (c :: blob') data users) in *.
  set (w2 := set_app_state initialState _) in *.
  assert (localStorage w2 !! fallbackKey (hex digest) = Some (c :: blob')) as Hfb.
  { unfold w2, w1, logged_in. cbn [localStorage set_app_state set_sessionStorage].
    rewrite Hav. apply lookup_insert_eq. }
  rewrite login_biometric_eq by done. cbn zeta. rewrite Hcred, Hhandle, Hfb.
  destruct (hex digest) as [|h0 hash] eqn:Hhex; [by apply hex_nonempty in Hhex|].
  cbn [truthy andb fst snd].
  assert (sessionStorage w2 !! lit "masterPassword" = None) as Hmp.
  { unfold w2. cbn [sessionStorage set_app_state set_sessionStorage].
    rewrite lookup_delete_ne by done. apply lookup_delete_eq. }
  split_and!; try done.
  - cbn [sessionStorage set_app_state set_sessionStorage]. apply lookup_insert_eq.
  - cbn [sessionStorage set_app_state set_sessionStorage].
    by rewrite lookup_insert_ne.
  - unfold saveEffect. rewrite M_bind_eq. cbn [get_state app_state set_app_state].
    cbn [appReducer set_isAuthenticated isAuthenticated]. rewrite saveData_eq.
    cbn [sessionStorage set_app_state set_sessionStorage].
    rewrite lookup_insert_ne by done. by rewrite Hmp.
Qed.

End biometric_facts.

Lemma biometric_login_after_login_witness :
  let masterPassword := lit "Ajaykanna@123" in
  let w := (@AppProvider.signup sample_env masterPassword sample_world).2 in
  let w1 := (@AppSession.login sample_env sample_host masterPassword w).2 in
  let w2 := (AppSession.logout w1).2 in
  (@AppSession.login sample_env sample_host masterPassword w).1 = Ok true
  ∧ (@AppSession.login sample_env sample_host [] w2).1 = Ok true
  ∧ passwords (Runtime.app_state (@AppSession.login sample_env sample_host [] w2).2) = [].
Proof.
  cbn zeta.
  assert ((@AppSession.login sample_env sample_host (lit "Ajaykanna@123")
             (@AppProvider.signup sample_env (lit "Ajaykanna@123") sample_world).2).1
          = Ok true) as Hlogin by (vm_compute; reflexivity).
  split; [exact Hlogin|].
  destruct (@biometric_login_after_login sample_env sample_host (lit "Ajaykanna@123")
              (take 4 (Encoding.TextEncoder_encode (lit "Ajaykanna@123")
                       ++ replicate 4 Byte.x00))
              (Encoding.TextEncoder_encode (lit "416a6179"))
              (@AppProvider.signup sample_env (lit "Ajaykanna@123") sample_world).2
              ltac:(reflexivity) ltac:(discriminate) ltac:(reflexivity) ltac:(discriminate)
              Hlogin ltac:(reflexivity) ltac:(vm_compute; reflexivity))
    as (Hbio & _ & Hpasswords & _).
  split; [exact Hbio | exact Hpasswords].
Defined.

(** ** Activity logs *)

Section log_facts.
Context `{ActivityLog.LogHost}.
Import Encoding JSString Runtime Storage UUID ActivityLog LogStates.

Lemma hex_length (bs : list byte) : length (hex bs) = (2 * length bs)%nat.
Proof.
  induction bs as [|b bs IH]; [done|]. cbn [hex flat_map hex2 app length].
  fold (hex bs). rewrite IH. lia.
Qed.

Lemma set_version_length (bs : list byte) : length (set_version bs) = length bs.
Proof. unfold set_version. by rewrite !length_alter. Qed.

(** A UUID has 36 characters. *)
Lemma format_length (bs : list byte) : length bs = 16%nat → length (format bs) = 36%nat.
Proof.
  intros Hlen. unfold format.
  rewrite !length_app, !hex_length, !length_take, !length_drop, Hlen. done.
Qed.

Lemma randomUUID_eq (w : World) :
  randomUUID w = (Ok (format (set_version (next_random 16 w))),
                  set_random_drawn (random_drawn w + 16) w).
Proof. done. Qed.

Lemma getLogs_eq (w : World) :
  getLogs w =
    (match localStorage w !! LOG_KEY with
     | Some (c :: text) =>
         match JSON_parse_logs (c :: text) with
         | Ok logs => Ok logs
         | Throw _ => Ok (Some [])
         end
     | _ => Ok (Some [])
     end, w).
Proof.
  unfold getLogs. rewrite try_catch_eq, M_bind_eq. cbn [localStorage_getItem].
  destruct (localStorage w !! LOG_KEY) as [[|c text]|]; cbn [truthy]; try done.
  change (default [] (Some (c :: text))) with (c :: text). cbn [lift].
  by destruct (JSON_parse_logs (c :: text)).
Qed.

Lemma getSessionId_eq (w : World) :
  getSessionId w = (Ok (session_of w).1, (session_of w).2).
Proof.
  unfold getSessionId, session_of. rewrite M_bind_eq. cbn [sessionStorage_getItem].
  by destruct (sessionStorage w !! lit "session_id") as [[|c sessionId]|].
Qed.

Lemma session_of_spec (w : World) :
  (session_of w).1 ≠ []
  ∧ sessionStorage (session_of w).2 !! lit "session_id" = Some (session_of w).1
  ∧ localStorage (session_of w).2 = localStorage w
  ∧ clock (session_of w).2 = clock w
  ∧ session_of (session_of w).2 = session_of w.
Proof.
  unfold session_of.
  destruct (sessionStorage w !! lit "session_id") as [[|c sessionId]|] eqn:Hs;
    cbn [fst snd].
  - assert (format (set_version (next_random 16 w)) ≠ []) as Hne.
    { intros Hnil. apply (f_equal length) in Hnil.
      rewrite format_length in Hnil by (by rewrite set_version_length, next_random_length).
      done. }
    split_and!; [done| |done|done|].
    + cbn [sessionStorage set_sessionStorage]. apply lookup_insert_eq.
    + cbn [sessionStorage set_sessionStorage]. rewrite lookup_insert_eq.
      destruct (format _); done.
  - split_and!; [done|done|done|done|]. by rewrite Hs.
  - assert (format (set_version (next_random 16 w)) ≠ []) as Hne.
    { intros Hnil. apply (f_equal length) in Hnil.
      rewrite format_length in Hnil by (by rewrite set_version_length, next_random_length).
      done. }
    split_and!; [done| |done|done|].
    + cbn [sessionStorage set_sessionStorage]. apply lookup_insert_eq.
    + cbn [sessionStorage set_sessionStorage]. rewrite lookup_insert_eq.
      destruct (format _); done.
Qed.

Lemma splice_take {A} (n : nat) (l : list A) :
  (if (n <? length l)%nat then take n l else l) = take n l.
Proof. destruct (Nat.ltb_spec n (length l)); [done|]. by rewrite take_ge. Qed.

Lemma log_eq (action : jsstring) (details : option Details) (w : World) :
  log action details w =
    let w1 := (session_of w).2 in
    match (getLogs w).1 with
    | Ok (Some logs) =>
        (Ok tt,
         set_localStorage
           (<[LOG_KEY := JSON_stringify_logs
                           (take MAX_LOG_ENTRIES (entry_of action details w :: logs))]>
              (localStorage w1)) w1)
    | _ => (Ok tt, w1)
    end.
Proof.
  unfold log. rewrite try_catch_eq, M_bind_eq. cbn [now_iso].
  rewrite M_bind_eq, getSessionId_eq. cbn zeta.
  rewrite M_bind_eq, !getLogs_eq. cbn [fst].
  destruct (session_of_spec w) as (_ & _ & Hls & _). rewrite Hls.
  fold (entry_of action details w).
  destruct (match localStorage w !! LOG_KEY with
            | Some (c :: text) => _
            | _ => _
            end) as [[logs|]|e]; try done.
  cbn [localStorage_setItem]. by rewrite splice_take, Hls.
Qed.

(** X25. [ActivityLogger.log] never throws and keeps the newest 1000
    entries, newest first.  The entry carries the session identifier, which
    is not empty, is kept in session storage and is the one of every later
    entry.  When the stored log is an array of entries (or there is none),
    the new log is the new entry followed by the old ones, cut after 1000
    elements.  When the stored log is not an array, nothing is written; when
    it cannot be parsed, the log starts again with the new entry alone.
    After [clearLogs] the log is empty. *)
Theorem log_keeps_newest (action : jsstring) (details : option Details) (w : World) :
  let w' := (log action details w).2 in
  let entry := entry_of action details w in
  (log action details w).1 = Ok tt
  ∧ entry_sessionId _ entry ≠ []
  ∧ sessionStorage w' !! lit "session_id" = Some (entry_sessionId _ entry)
  ∧ (∀ logs, (getLogs w).1 = Ok (Some logs) →
       ∃ logs',
         localStorage w' = <[LOG_KEY := JSON_stringify_logs logs']> (localStorage w)
         ∧ logs' = take 1000 (entry :: logs)
         ∧ head logs' = Some entry
         ∧ (length logs' ≤ 1000)%nat)
  ∧ ((getLogs w).1 = Ok None → localStorage w' = localStorage w)
  ∧ (∀ text e, localStorage w !! LOG_KEY = Some text → text ≠ [] →
       JSON_parse_logs text = Throw e →
       localStorage w' = <[LOG_KEY := JSON_stringify_logs [entry]]> (localStorage w))
  ∧ (∀ action' details',
       entry_sessionId _ (entry_of action' details' w') = entry_sessionId _ entry)
  ∧ (getLogs (clearLogs w).2).1 = Ok (Some []).
Proof.
  cbn zeta. rewrite log_eq. cbn zeta.
  destruct (session_of_spec w) as (Hne & Hsession & Hls & _).
  split_and!.
  - by destruct (getLogs w).1 as [[logs|]|e].
  - done.
  - by destruct (getLogs w).1 as [[logs|]|e].
  - intros logs ->. cbn [snd]. eexists. split_and!.
    + cbn [localStorage set_localStorage]. by rewrite Hls.
    + done.
    + done.
    + rewrite length_take. unfold MAX_LOG_ENTRIES. lia.
  - intros ->. done.
  - intros text e Htext Hnonempty Hparse. rewrite getLogs_eq. cbn [fst].
    rewrite Htext. destruct text as [|c text]; [done|]. rewrite Hparse. cbn [snd].
    cbn [localStorage set_localStorage]. by rewrite Hls.
  - intros action' details'. unfold entry_of. cbn [entry_sessionId].
    destruct (session_of_spec w) as (_ & _ & _ & _ & Hagain).
    assert (∀ ls, (session_of (set_localStorage ls (session_of w).2)).1
                  = (session_of (session_of w).2).1) as Hls'.
    { intros ls. unfold session_of at 1 3. cbn [sessionStorage set_localStorage].
      by destruct (sessionStorage (session_of w).2 !! lit "session_id") as [[|c s]|]. }
    destruct (getLogs w).1 as [[logs|]|e]; cbn [snd]; by rewrite ?Hls', Hagain.
  - rewrite getLogs_eq. cbn [fst]. unfold clearLogs. rewrite try_catch_eq.
    cbn [localStorage_removeItem snd localStorage set_localStorage].
    by rewrite lookup_delete_eq.
Qed.

End log_facts.

Section activity_facts.
Context `{ActivityLog.LogHost}.
Import Runtime Storage ActivityLog LogStates.

Lemma getActivityLogs_eq (w : World) :
  getActivityLogs w =
    (match localStorage w !! ACTIVITY_KEY with
     | Some (c :: text) => JSON_parse_activities (c :: text)
     | _ => Ok (Some [])
     end, w).
Proof.
  unfold getActivityLogs. rewrite M_bind_eq. cbn [localStorage_getItem].
  by destruct (localStorage w !! ACTIVITY_KEY) as [[|c text]|].
Qed.

Lemma last_drop_lt {A} (n : nat) (l : list A) :
  (n < length l)%nat → last (drop n l) = last l.
Proof.
  intros Hn. rewrite <- (take_drop n l) at 2. rewrite last_app.
  destruct (last (drop n l)) eqn:Hlast; [done|].
  apply last_None in Hlast. apply (f_equal length) in Hlast.
  rewrite length_drop in Hlast. simpl in Hlast. lia.
Qed.

Lemma logActivity_eq (action : jsstring) (details : option Details) (w : World) :
  logActivity action details w =
    match (getActivityLogs w).1 with
    | Ok (Some logs) =>
        (Ok tt,
         set_localStorage
           (<[ACTIVITY_KEY := JSON_stringify_activities
                (slice_last 100 (logs ++ [activity_of action details w]))]>
              (localStorage w)) w)
    | Ok None => (Throw (TypeError "logs.push is not a function"), w)
    | Throw e => (Throw e, w)
    end.
Proof.
  unfold logActivity. rewrite M_bind_eq. cbn [now_iso].
  rewrite M_bind_eq. cbn [sessionStorage_getItem]. cbn zeta.
  fold (activity_of action details w).
  rewrite M_bind_eq, getActivityLogs_eq. cbn [fst].
  by destruct (match localStorage w !! ACTIVITY_KEY with
               | Some (c :: text) => _
               | _ => _
               end) as [[logs|]|e].
Qed.

(** X26. [SecurityAnalyzer.logActivity] keeps the last 100 activities.  When
    the stored log is an array (or there is none), the new log is the end of
    the old log followed by the new activity: it is a suffix of that list,
    ends with the new activity and has at most 100 elements.  The function
    has no handler: when the stored log cannot be parsed, or is not an
    array, it throws and writes nothing.  After [clearActivityLogs] the log
    is empty. *)
Theorem logActivity_keeps_last_100 (action : jsstring) (details : option Details)
    (w : World) :
  let activity := activity_of action details w in
  (∀ logs, (getActivityLogs w).1 = Ok (Some logs) →
     ∃ recentLogs,
       logActivity action details w =
         (Ok tt,
          set_localStorage
            (<[ACTIVITY_KEY := JSON_stringify_activities recentLogs]> (localStorage w)) w)
       ∧ recentLogs `suffix_of` logs ++ [activity]
       ∧ last recentLogs = Some activity
       ∧ length recentLogs = ((length logs + 1) `min` 100)%nat)
  ∧ (∀ e, (getActivityLogs w).1 = Throw e → logActivity action details w = (Throw e, w))
  ∧ ((getActivityLogs w).1 = Ok None →
     logActivity action details w = (Throw (TypeError "logs.push is not a function"), w))
  ∧ (getActivityLogs (clearActivityLogs w).2).1 = Ok (Some []).
Proof.
  cbn zeta. rewrite logActivity_eq. split_and!.
  - intros logs ->. eexists. split; [done|]. unfold slice_last. split_and!.
    + apply suffix_drop.
    + rewrite last_drop_lt by (rewrite length_app; cbn [length]; lia).
      apply last_snoc.
    + rewrite length_drop, length_app. cbn [length]. lia.
  - by intros e ->.
  - by intros ->.
  - rewrite getActivityLogs_eq. cbn [fst]. unfold clearActivityLogs.
    cbn [localStorage_removeItem snd localStorage set_localStorage].
    by rewrite lookup_delete_eq.
Qed.

End activity_facts.

(** ** Extremes of the security score, outcomes of encryption *)

Section score_facts.
Import SecurityAnalyzer.
Implicit Types (l : list PasswordEntry).

Lemma num_inj (n m : nat) : (num n == num m)%Q ↔ n = m.
Proof. unfold num. rewrite inject_Z_injective. lia. Qed.

Lemma ratio_eq (c t : nat) (q : Z) :
  t ≠ 0%nat → (num c / num t == inject_Z q)%Q ↔ (Z.of_nat c = q * Z.of_nat t)%Z.
Proof.
  intros Ht. pose proof (num_pos t Ht) as Hpos.
  assert (num c == num c / num t * num t)%Q as Hc by (field; lra).
  unfold num in *. split.
  - intros Heq. rewrite Heq, <- inject_Z_mult in Hc.
    exact (proj1 (inject_Z_injective _ _) Hc).
  - intros Heq. rewrite Heq, inject_Z_mult. field. lra.
Qed.

(** X27. The security score of a report lies between 0 and 100.  It is 100
    exactly when the report counts no weak, no reused, no expired and no
    compromised entry; it is 0 exactly when there are entries and every one
    of them is counted as weak, as reused, as expired and as compromised. *)
Theorem securityScore_extremes (now : Date) l :
  let r := analyzePasswordSecurity now l in
  (0 <= securityScore r <= 100)%Q
  ∧ ((securityScore r == 100)%Q ↔
       weakPasswords r = 0%nat ∧ reusedPasswords r = 0%nat
       ∧ expiredPasswords r = 0%nat ∧ compromisedPasswords r = 0%nat)
  ∧ ((securityScore r == 0)%Q ↔
       l ≠ [] ∧ weakPasswords r = length l ∧ reusedPasswords r = length l
       ∧ expiredPasswords r = length l ∧ compromisedPasswords r = length l).
Proof.
  cbn zeta. unfold analyzePasswordSecurity. cbn [securityScore
    weakPasswords reusedPasswords expiredPasswords compromisedPasswords].
  destruct l as [|p l'].
  { cbn [length List.filter Nat.ltb Nat.leb]. split; [by vm_compute|]. split.
    - split; [intros _; by vm_compute | done].
    - split; [by vm_compute | by intros [? _]]. }
  set (l := p :: l').
  assert (length l ≠ 0%nat) as Hnz by done.
  replace (0 <? length l)%nat with true by done.
  pose proof (filter_length_le is_weak l) as Hw.
  pose proof (filter_length_le (λ p, isPasswordExpired now p) l) as He.
  pose proof (filter_length_le (λ p, truthy_flag (isCompromised p)) l) as Hc.
  assert (length (findReusedPasswords l) ≤ length l)%nat as Hr.
  { rewrite findReusedPasswords_length. apply filter_length_le. }
  pose proof (ratio_bounds _ _ Hw Hnz). pose proof (ratio_bounds _ _ Hr Hnz).
  pose proof (ratio_bounds _ _ He Hnz). pose proof (ratio_bounds _ _ Hc Hnz).
  pose proof (ratio_eq (length (List.filter is_weak l)) _ 0 Hnz) as Hw0.
  pose proof (ratio_eq (length (findReusedPasswords l)) _ 0 Hnz) as Hr0.
  pose proof (ratio_eq (length (List.filter (λ p, isPasswordExpired now p) l)) _ 0 Hnz)
    as He0.
  pose proof (ratio_eq (length (List.filter (λ p, truthy_flag (isCompromised p)) l)) _ 0
                Hnz) as Hc0.
  pose proof (ratio_eq (length (List.filter is_weak l)) _ 1 Hnz) as Hw1.
  pose proof (ratio_eq (length (findReusedPasswords l)) _ 1 Hnz) as Hr1.
  pose proof (ratio_eq (length (List.filter (λ p, isPasswordExpired now p) l)) _ 1 Hnz)
    as He1.
  pose proof (ratio_eq (length (List.filter (λ p, truthy_flag (isCompromised p)) l)) _ 1
                Hnz) as Hc1.
  set (a := (num (length (List.filter is_weak l)) / num (length l))%Q) in *.
  set (b := (num (length (findReusedPasswords l)) / num (length l))%Q) in *.
  set (c := (num (length (List.filter (λ p, isPasswordExpired now p) l))
             / num (length l))%Q) in *.
  set (d := (num (length (List.filter (λ p, truthy_flag (isCompromised p)) l))
             / num (length l))%Q) in *.
  change (inject_Z 0) with 0%Q in *. change (inject_Z 1) with 1%Q in *.
  rewrite Q.max_r by lra. split; [lra|]. split.
  - split.
    + intros Hscore.
      assert (a == 0)%Q as Ha by lra. assert (b == 0)%Q as Hb by lra.
      assert (c == 0)%Q as Hc' by lra. assert (d == 0)%Q as Hd by lra.
      apply Hw0 in Ha. apply Hr0 in Hb. apply He0 in Hc'. apply Hc0 in Hd. lia.
    + intros (Ha & Hb & Hc' & Hd).
      assert (a == 0)%Q as -> by (apply Hw0; lia).
      assert (b == 0)%Q as -> by (apply Hr0; lia).
      assert (c == 0)%Q as -> by (apply He0; lia).
      assert (d == 0)%Q as -> by (apply Hc0; lia). lra.
  - split.
    + intros Hscore. split; [done|].
      assert (a == 1)%Q as Ha by lra. assert (b == 1)%Q as Hb by lra.
      assert (c == 1)%Q as Hc' by lra. assert (d == 1)%Q as Hd by lra.
      apply Hw1 in Ha. apply Hr1 in Hb. apply He1 in Hc'. apply Hc1 in Hd. lia.
    + intros (_ & Ha & Hb & Hc' & Hd).
      assert (a == 1)%Q as -> by (apply Hw1; lia).
      assert (b == 1)%Q as -> by (apply Hr1; lia).
      assert (c == 1)%Q as -> by (apply He1; lia).
      assert (d == 1)%Q as -> by (apply Hc1; lia). lra.
Qed.

End score_facts.

Section encrypt_facts.
Context `{Env}.
Import Encoding Base64 JSString Runtime CryptoManager.

(** X28. The outcomes of [encrypt], whatever the environment.  The call
    returns a blob or throws the one error [Encryption failed]: so it does
    when the import of the passphrase, the key derivation or AES-GCM throws.
    In every case it has drawn exactly 48 random bytes, and it changes
    neither storage nor state. *)
Theorem encrypt_outcomes (data password : jsstring) (w : World) :
  let salt := next_random 32 w in
  let iv := next_random 16 (set_random_drawn (random_drawn w + 32) w) in
  (encrypt data password w).2 = set_random_drawn (random_drawn w + 48) w
  ∧ ((∃ blob, (encrypt data password w).1 = Ok blob)
     ∨ (encrypt data password w).1 = Throw (Error "Encryption failed"))
  ∧ (∀ e, subtle_importKey (TextEncoder_encode password) = Throw e →
          (encrypt data password w).1 = Throw (Error "Encryption failed"))
  ∧ (∀ km e, subtle_importKey (TextEncoder_encode password) = Ok km →
       subtle_deriveKey
         {| pbkdf2_salt := salt; pbkdf2_iterations := 210000; pbkdf2_hash := SHA_256 |}
         km {| aes_length := 256 |} = Throw e →
       (encrypt data password w).1 = Throw (Error "Encryption failed"))
  ∧ (∀ key e, deriveKey password salt = Ok key →
       subtle_encrypt {| gcm_iv := iv; gcm_tagLength := 128 |} key
         (TextEncoder_encode data) = Throw e →
       (encrypt data password w).1 = Throw (Error "Encryption failed")).
Proof.
  cbn zeta.
  assert (encrypt data password w =
    (match seal (next_random 32 w)
             (next_random 16 (set_random_drawn (random_drawn w + 32) w)) data password with
     | Ok blob => Ok blob
     | Throw _ => Throw (Error "Encryption failed")
     end, set_random_drawn (random_drawn w + 48) w)) as ->.
  { unfold encrypt, Runtime.try_catch. rewrite !M_bind_eq. cbn [getRandomValues].
    rewrite M_bind_eq. cbn [getRandomValues lift].
    unfold SALT_LENGTH, IV_LENGTH.
    assert (set_random_drawn
              (random_drawn (set_random_drawn (random_drawn w + 32) w) + 16)
              (set_random_drawn (random_drawn w + 32) w)
            = set_random_drawn (random_drawn w + 48) w) as ->.
    { unfold set_random_drawn. cbn [localStorage sessionStorage random_supply random_drawn
        clock app_state]. f_equal. lia. }
    by destruct (seal _ _ data password). }
  cbn [fst snd]. split; [done|]. split_and!.
  - destruct (seal _ _ data password) as [blob|e]; [left; by exists blob | by right].
  - intros e He. unfold seal, deriveKey. by rewrite He.
  - intros km e Hkm He. unfold seal, deriveKey. rewrite Hkm, result_bind_Ok.
    unfold PBKDF2_ITERATIONS, KEY_LENGTH. change (32 * 8) with 256. by rewrite He.
  - intros key e Hkey He. unfold seal. by rewrite Hkey, result_bind_Ok, He.
Qed.

End encrypt_facts.

(** ** Examples in the sample world *)

Section examples.
Import Encoding JSString JSNumber Runtime Storage CryptoManager AppContext AppProvider.
Import BiometricManager AppSession SessionStates Generator.

Lemma unique_ids_preserved_witness :
  let e1 := sample_entry (lit "1") (lit "abc") 0%Z false in
  let e2 := sample_entry (lit "2") (lit "xyz") 7%Z false in
  let state := set_passwords [e1; e2] initialState in
  NoDup (id <$> passwords state)
  ∧ NoDup (id <$> passwords (appReducer state (UPDATE_PASSWORD e2)))
  ∧ NoDup (id <$> passwords (appReducer state (DELETE_PASSWORD (lit "1")))).
Proof.
  cbn zeta.
  assert (NoDup (id <$> passwords
            (set_passwords [sample_entry (lit "1") (lit "abc") 0%Z false;
                            sample_entry (lit "2") (lit "xyz") 7%Z false] initialState)))
    as Hnd by (apply (bool_decide_unpack _); vm_compute; exact I).
  destruct (unique_ids_preserved _ Hnd) as (Hupdate & Hdelete & _).
  split; [exact Hnd|]. split; [apply Hupdate | apply Hdelete].
Defined.

Lemma user_hash_shape_witness :
  ∃ userHash,
    @getUserHash sample_env (lit "Ajaykanna@123") = Ok userHash
    ∧ length userHash = 8%nat
    ∧ Forall is_lower_hex userHash.
Proof.
  destruct (@user_hash_shape sample_env (lit "Ajaykanna@123")
              (take 4 (TextEncoder_encode (lit "Ajaykanna@123") ++ replicate 4 Byte.x00))
              ltac:(reflexivity))
    as (userHash & Hhash & Hlen & Hhex & _).
  exists userHash. split; [exact Hhash|]. split; [exact Hlen | exact Hhex].
Defined.

Lemma generateSecurePassword_result_witness :
  let options :=
    {| opt_length := 16; includeUppercase := true; includeLowercase := true;
       includeNumbers := true; includeSymbols := false;
       excludeSimilar := true; excludeAmbiguous := false |} in
  ∃ result,
    (generateSecurePassword options sample_world).1 = Ok result
    ∧ length result = 16%nat
    ∧ Forall (λ c, c ∉ similar) result.
Proof.
  cbn zeta.
  destruct (generateSecurePassword_result
              {| opt_length := 16; includeUppercase := true; includeLowercase := true;
                 includeNumbers := true; includeSymbols := false;
                 excludeSimilar := true; excludeAmbiguous := false |}
              sample_world ltac:(reflexivity) ltac:(vm_compute; discriminate))
    as (result & Hrun & Hlen & Hall).
  exists result. split; [by rewrite Hrun|]. split; [exact Hlen|].
  eapply Forall_impl; [exact Hall|]. intros c (_ & Hsim & _). by apply Hsim.
Defined.

Lemma login_requires_decryption_witness :
  let masterPassword := lit "Ajaykanna@123" in
  let w := (@signup sample_env masterPassword sample_world).2 in
  (@login sample_env sample_host masterPassword w).1 = Ok true
  ∧ ∃ digest blob text,
      localStorage w !! getUserStorageKey (hex digest) = Some blob
      ∧ @decrypt sample_env blob masterPassword = Ok text.
Proof.
  cbn zeta.
  assert ((@login sample_env sample_host (lit "Ajaykanna@123")
             (@signup sample_env (lit "Ajaykanna@123") sample_world).2).1 = Ok true)
    as Hlogin by (vm_compute; reflexivity).
  split; [exact Hlogin|].
  destruct (@login_requires_decryption sample_env sample_host (lit "Ajaykanna@123")
              (@signup sample_env (lit "Ajaykanna@123") sample_world).2
              ltac:(discriminate) Hlogin)
    as (digest & blob & text & data & users & _ & Hblob & Hdec & _).
  exists digest, blob, text. split; [exact Hblob | exact Hdec].
Defined.

Lemma login_failure_changes_nothing_witness :
  truthy (localStorage sample_world
            !! getUserStorageKey (hex (take 4 (TextEncoder_encode (lit "guess")
                                                ++ replicate 4 Byte.x00)))) = false
  ∧ @login sample_env sample_host (lit "guess") sample_world = (Ok false, sample_world).
Proof.
  split; [reflexivity|].
  destruct (@login_failure_changes_nothing sample_env sample_host (lit "guess") sample_world
              ltac:(discriminate)) as [_ Hstored].
  destruct (Hstored (take 4 (TextEncoder_encode (lit "guess") ++ replicate 4 Byte.x00))
              ltac:(reflexivity)) as (Hnone & _).
  apply Hnone. reflexivity.
Defined.


Lemma signup_logout_login_witness :
  let masterPassword := lit "Ajaykanna@123" in
  let w1 := (@signup sample_env masterPassword sample_world).2 in
  let w2 := (logout w1).2 in
  (@login sample_env sample_host masterPassword w2).1 = Ok true
  ∧ passwords (app_state (@login sample_env sample_host masterPassword w2).2) = [].
Proof.
  cbn zeta.
  destruct (@signup_logout_login sample_env sample_host sample_laws (lit "Ajaykanna@123")
              (take 4 (TextEncoder_encode (lit "Ajaykanna@123") ++ replicate 4 Byte.x00))
              [] [] {| stored_passwords := None; stored_settings := None |} sample_world
              ltac:(discriminate) ltac:(reflexivity) ltac:(reflexivity) ltac:(reflexivity)
              ltac:(vm_compute; discriminate) ltac:(reflexivity) ltac:(reflexivity))
    as (_ & _ & _ & Hlogin & _ & Hpasswords & _).
  split; [exact Hlogin | exact Hpasswords].
Defined.

Lemma login_biometric_skips_vault_witness :
  let w := set_localStorage {[ fallbackKey (lit "416a6179") := lit "QUJD" ]} sample_world in
  @available sample_host = true
  ∧ (@login sample_env sample_host [] w).1 = Ok true
  ∧ passwords (app_state (@login sample_env sample_host [] w).2) = []
  ∧ sessionStorage (@login sample_env sample_host [] w).2 !! lit "masterPassword" = None.
Proof.
  cbn zeta.
  destruct (@login_biometric_skips_vault sample_env sample_host
              (set_localStorage {[ fallbackKey (lit "416a6179") := lit "QUJD" ]} sample_world)
              ltac:(reflexivity))
    as (_ & Hpasswords & _ & Hsession & Hiff & _).
  split; [reflexivity|]. split; [|split; [exact Hpasswords | exact Hsession]].
  apply Hiff. exists (TextEncoder_encode (lit "416a6179")).
  split; [reflexivity|]. split; [by vm_compute | by vm_compute].
Defined.

Lemma clearAllData_resets_witness :
  let w := (@signup sample_env (lit "Ajaykanna@123") sample_world).2 in
  let w' := (@clearAllData sample_env w).2 in
  localStorage w !! getUserStorageKey (lit "416a6179") ≠ None
  ∧ (@clearAllData sample_env w).1 = Ok tt
  ∧ localStorage w' !! getUserStorageKey (lit "416a6179") = None
  ∧ passwords (app_state w') = [].
Proof.
  cbn zeta. split; [by vm_compute|].
  destruct (@clearAllData_resets sample_env
              (take 4 (TextEncoder_encode (lit "Ajaykanna@123") ++ replicate 4 Byte.x00)) []
              (@signup sample_env (lit "Ajaykanna@123") sample_world).2
              ltac:(vm_compute; reflexivity) ltac:(discriminate) ltac:(vm_compute; reflexivity))
    as (Hok & Hgone & _ & _ & _ & _ & Hpasswords & _).
  split; [exact Hok|]. split; [exact Hgone | exact Hpasswords].
Defined.

End examples.
